(** * Equation Hub API: the equation parser, the solvers and the statistics routes

    A shallow embedding of [backend/src/route/equations.js] (the equation
    routes and, after them, the machine-learning routes), of the
    [/api/stats] and [/api/quadratic] handlers of [backend/src/server.js]
    and of the calculator route of [backend/src/route/calculator.js].

    - JavaScript strings are sequences of UTF-16 code units ([list N]).
    - The text routes only ever build integers, so the parser and the
      formatters work on [num]: an integer or [NaN].  The integers are
      exact; they are the Numbers of JavaScript as long as they are safe
      integers, and the theorems on the text routes are stated there.
    - The numeric routes work on IEEE-754 binary64 numbers, which is what a
      JavaScript Number is: Rocq's primitive [float].
    - A route answers with [Ok] (status 200) or with [Err] (status 400, or
      500 when a call inside its [try] block throws).
    - What the routes take from their dependencies (express-validator,
      simple-statistics, mathjs) and from the engine ([Math.pow], the
      number of arguments of a call) is an interface, or is modelled by its
      documented meaning where a route's answer depends on it. *)

From Stdlib Require Import ZArith NArith List Floats Ascii String Lia NArithRing Decimal DecimalN DecimalPos Zpower Sorted.
From stdpp Require Import base option list gmap strings.

Set Default Proof Using "Type".
(* Decimal literals such as 1e-10 denote the nearest binary64 number, as in
   JavaScript. *)
Set Warnings "-inexact-float".
#[local] Open Scope Z_scope.

(** ** JavaScript strings *)

Module Js.

Definition jsstring := list N.

(** The code units of an ASCII literal of the source. *)
Definition units (s : string) : jsstring :=
  map N_of_ascii (list_ascii_of_string s).

(** [²], U+00B2: one code unit. *)
Definition sup2 : N := 178%N.

Definition in_range (lo hi c : N) : bool := ((lo <=? c) && (c <=? hi))%N.

(** The class [\s] of a regular expression, which is also the white space
    [parseInt] skips: WhiteSpace and LineTerminator of ECMAScript. *)
Definition isWhiteSpace (c : N) : bool :=
  in_range 9 13 c || (c =? 32)%N || (c =? 160)%N || (c =? 5760)%N
  || in_range 8192 8202 c || (c =? 8232)%N || (c =? 8233)%N
  || (c =? 8239)%N || (c =? 8287)%N || (c =? 12288)%N || (c =? 65279)%N.

(** The class [\d]. *)
Definition isDigit (c : N) : bool := in_range 48 57 c.

(** [String.prototype.toLowerCase], on the letters A to Z.  The other case
    mappings of Unicode neither produce nor consume a character that the
    patterns of [parseEquation] mention, so they are left out. *)
Definition lowerUnit (c : N) : N := if in_range 65 90 c then (c + 32)%N else c.
Definition toLowerCase (s : jsstring) : jsstring := map lowerUnit s.

(** [s.replace(/\s/g, '')] *)
Definition stripWhiteSpace (s : jsstring) : jsstring :=
  List.filter (fun c => negb (isWhiteSpace c)) s.

(** *** Integer-valued numbers *)

(** A number of the text routes: [NaN], or an integer given by its exact
    value.  A JavaScript Number holds every integer of magnitude up to
    2^53 − 1 exactly ([Number.isSafeInteger]) and rounds beyond; the
    theorems on [parseInt] and [toString] are stated on safe integers,
    where [Int z] is the Number itself. *)
Inductive num := NaN | Int (z : Z).

Definition safeInteger (z : Z) : Prop := Z.abs z ≤ 2 ^ 53 - 1.

#[global] Instance num_eq_dec : EqDecision num.
Proof. solve_decision. Defined.

(** [x === y], [x > y], [x < y] and [Math.abs] on numbers. *)
Definition num_eqb (x y : num) : bool :=
  match x, y with Int a, Int b => a =? b | _, _ => false end.
Definition num_gtb (x y : num) : bool :=
  match x, y with Int a, Int b => b <? a | _, _ => false end.
Definition num_ltb (x y : num) : bool :=
  match x, y with Int a, Int b => a <? b | _, _ => false end.
Definition Math_abs (x : num) : num :=
  match x with Int a => Int (Z.abs a) | NaN => NaN end.

(** [x || d] for a number [x]: [0] and [NaN] are falsy. *)
Definition num_or (x d : num) : num :=
  match x with
  | NaN => d
  | Int z => if z =? 0 then d else x
  end.

Fixpoint uint_units (d : Decimal.uint) : jsstring :=
  match d with
  | Decimal.Nil => []
  | Decimal.D0 d => 48%N :: uint_units d
  | Decimal.D1 d => 49%N :: uint_units d
  | Decimal.D2 d => 50%N :: uint_units d
  | Decimal.D3 d => 51%N :: uint_units d
  | Decimal.D4 d => 52%N :: uint_units d
  | Decimal.D5 d => 53%N :: uint_units d
  | Decimal.D6 d => 54%N :: uint_units d
  | Decimal.D7 d => 55%N :: uint_units d
  | Decimal.D8 d => 56%N :: uint_units d
  | Decimal.D9 d => 57%N :: uint_units d
  end.

(** The decimal digits of a natural number, as [Number::toString] writes
    an integer below 10^21. *)
Definition digits (n : N) : jsstring := uint_units (N.to_uint n).

(** [`${x}`]: the string of a number. *)
Definition toString (x : num) : jsstring :=
  match x with
  | NaN => units "NaN"
  | Int z => (if z <? 0 then units "-" else []) ++ digits (Z.abs_N z)
  end.

(** *** [parseInt(string)], radix undefined *)

(** The value of a digit in a radix up to 16, when it is one. *)
Definition digitValue (radix c : N) : option N :=
  let v := if in_range 48 57 c then Some (c - 48)%N
           else if in_range 97 102 c then Some (c - 87)%N
           else if in_range 65 70 c then Some (c - 55)%N
           else None in
  match v with
  | Some d => if (d <? radix)%N then Some d else None
  | None => None
  end.

(** The longest prefix of digits, read from the left; [None] when it is
    empty. *)
Fixpoint readDigits (radix : N) (acc : option N) (s : jsstring) : option N :=
  match s with
  | [] => acc
  | c :: s' =>
      match digitValue radix c with
      | Some d => readDigits radix (Some (default 0%N acc * radix + d)%N) s'
      | None => acc
      end
  end.

Fixpoint skipWhiteSpace (s : jsstring) : jsstring :=
  match s with
  | c :: s' => if isWhiteSpace c then skipWhiteSpace s' else s
  | [] => []
  end.

(** The result is the exact value of the digits read.  JavaScript returns
    the binary64 number nearest to it, which is that value whenever it is
    a safe integer. *)
Definition parseInt (str : jsstring) : num :=
  (* leading white space is skipped *)
  let s := skipWhiteSpace str in
  (* a sign *)
  let sign := if bool_decide (head s = Some 45%N) then -1 else 1 in
  let s := if bool_decide (head s = Some 45%N ∨ head s = Some 43%N) then tail s else s in
  (* the prefix 0x or 0X selects radix 16 *)
  let hex :=
    match s with
    | c0 :: c1 :: _ => (c0 =? 48)%N && ((c1 =? 120)%N || (c1 =? 88)%N)
    | _ => false
    end in
  let radix := if hex then 16%N else 10%N in
  let s := if hex then drop 2 s else s in
  (* the digits, up to the first character that is not one *)
  match readDigits radix None s with
  | None => NaN
  | Some n => Int (sign * Z.of_N n)
  end.

End Js.

(** ** Regular expressions, as [String.prototype.match] runs them *)

Module Regex.
Import Js.

Inductive regex :=
| Chr (c : N)                 (* a literal character *)
| Cls (p : N → bool)          (* a character class *)
| Cat (r1 r2 : regex)         (* r1 r2 *)
| Opt (r : regex)             (* r?, greedy *)
| Star (r : regex)            (* r*, greedy *)
| Plus (r : regex)            (* r+, greedy *)
| Grp (i : nat) (r : regex).  (* the i-th capturing group *)

(** The captures: [match[i]] is [caps !! i], [undefined] when absent. *)
Abbreviation captures := (gmap nat jsstring).

(** A backtracking matcher returns the ways to match a prefix of the input
    in the order in which the engine tries them: each is what is left of
    the input, with the captures made. *)
Definition outcomes := list (jsstring * captures).

(** Greedy iteration: one more round of [step] first, then none.  A round
    that consumes nothing is dropped, as ECMAScript does; every kept round
    shortens the input, so the length of the input is fuel enough and the
    engine never stops for want of it. *)
Fixpoint iterate (step : jsstring → captures → outcomes)
    (fuel : nat) (s : jsstring) (caps : captures) : outcomes :=
  match fuel with
  | O => [(s, caps)]
  | S fuel' =>
      flat_map (fun '(s', caps') =>
                  if (length s' <? length s)%nat
                  then iterate step fuel' s' caps' else [])
               (step s caps)
      ++ [(s, caps)]
  end.

Fixpoint run (r : regex) (s : jsstring) (caps : captures) : outcomes :=
  match r with
  | Chr c =>
      match s with
      | x :: s' => if (x =? c)%N then [(s', caps)] else []
      | [] => []
      end
  | Cls p =>
      match s with
      | x :: s' => if p x then [(s', caps)] else []
      | [] => []
      end
  | Cat r1 r2 =>
      flat_map (fun '(s', caps') => run r2 s' caps') (run r1 s caps)
  | Opt r1 => run r1 s caps ++ [(s, caps)]
  | Star r1 => iterate (run r1) (length s) s caps
  | Plus r1 =>
      flat_map (fun '(s', caps') => iterate (run r1) (length s') s' caps')
               (run r1 s caps)
  | Grp i r1 =>
      map (fun '(s', caps') =>
             (s', <[i := take (length s - length s') s]> caps'))
          (run r1 s caps)
  end.

(** [RegExp.prototype.exec] without the sticky or global flag: the first
    way to match at the leftmost position that has one. *)
Fixpoint exec (r : regex) (s : jsstring) : option captures :=
  match run r s ∅ with
  | (_, caps) :: _ => Some caps
  | [] =>
      match s with
      | [] => None
      | _ :: s' => exec r s'
      end
  end.

End Regex.


(** ** The equation routes: formatting and parsing *)

Module Equations.
Import Js Regex.

Definition one : num := Int 1.
Definition minus_one : num := Int (-1).
Definition zero : num := Int 0.

Definition formatQuadraticEquation (a b c : num) : jsstring :=
  let equation := [] in
  (* Termo a *)
  let equation :=
    if num_eqb a one then equation ++ units "x" ++ [sup2]
    else if num_eqb a minus_one then equation ++ units "-x" ++ [sup2]
    else equation ++ toString a ++ units "x" ++ [sup2] in
  (* Termo b *)
  let equation :=
    if num_gtb b zero
    then equation ++ units " + "
           ++ (if num_eqb b one then [] else toString b) ++ units "x"
    else if num_ltb b zero
    then equation ++ units " - "
           ++ (if num_eqb b minus_one then [] else toString (Math_abs b))
           ++ units "x"
    else equation in
  (* Termo c *)
  let equation :=
    if num_gtb c zero then equation ++ units " + " ++ toString c
    else if num_ltb c zero
    then equation ++ units " - " ++ toString (Math_abs c)
    else equation in
  equation ++ units " = 0".

Definition formatLinearEquation (a b : num) : jsstring :=
  let equation := [] in
  let equation :=
    if num_eqb a one then equation ++ units "x"
    else if num_eqb a minus_one then equation ++ units "-x"
    else equation ++ toString a ++ units "x" in
  let equation :=
    if num_gtb b zero then equation ++ units " + " ++ toString b
    else if num_ltb b zero
    then equation ++ units " - " ++ toString (Math_abs b)
    else equation in
  equation ++ units " = 0".

(** [!str] for a string or [undefined]. *)
Definition falsy (str : option jsstring) : bool :=
  match str with
  | None | Some [] => true
  | Some _ => false
  end.

Definition parseCoeff (str : option jsstring) : num :=
  if falsy str || bool_decide (str = Some (units "+")) then one
  else if bool_decide (str = Some (units "-")) then minus_one
  else parseInt (default [] str).

(** The pieces the five patterns are made of.  (The comments below write
    the patterns of the source with spaces between their parts.) *)
Definition sign : regex := Cls (fun c => (c =? 43)%N || (c =? 45)%N).
Definition digit : regex := Cls isDigit.
Definition chr (s : string) : regex := Chr (default 0%N (head (units s))).

Declare Scope regex_scope.
Delimit Scope regex_scope with re.
Infix "⋅" := Cat (at level 60, right associativity) : regex_scope.

(** The capturing groups: an optional sign and digits, a sign and digits,
    a sign and at least one digit. *)
Definition coeff1 : regex := Grp 1 (Opt sign ⋅ Star digit)%re.
Definition coeff2 : regex := Grp 2 (sign ⋅ Star digit)%re.
Definition const (i : nat) : regex := Grp i (sign ⋅ Plus digit)%re.

Definition quadratic : list regex :=
  [ (* ( [+-]? \d* ) \*? x \^? 2 ( [+-] \d* ) \*? x ( [+-] \d+ ) = 0 *)
    (coeff1 ⋅ Opt (chr "*") ⋅ chr "x" ⋅ Opt (chr "^") ⋅ chr "2"
       ⋅ coeff2 ⋅ Opt (chr "*") ⋅ chr "x" ⋅ const 3 ⋅ chr "=" ⋅ chr "0")%re;
    (* ( [+-]? \d* ) \*? x ² ( [+-] \d* ) \*? x ( [+-] \d+ ) = 0 *)
    (coeff1 ⋅ Opt (chr "*") ⋅ chr "x" ⋅ Chr sup2
       ⋅ coeff2 ⋅ Opt (chr "*") ⋅ chr "x" ⋅ const 3 ⋅ chr "=" ⋅ chr "0")%re;
    (* ( [+-]? \d* ) \*? x \^? 2 ( [+-] \d+ ) = 0 *)
    (coeff1 ⋅ Opt (chr "*") ⋅ chr "x" ⋅ Opt (chr "^") ⋅ chr "2"
       ⋅ const 2 ⋅ chr "=" ⋅ chr "0")%re;
    (* ( [+-]? \d* ) \*? x ² ( [+-] \d+ ) = 0 *)
    (coeff1 ⋅ Opt (chr "*") ⋅ chr "x" ⋅ Chr sup2
       ⋅ const 2 ⋅ chr "=" ⋅ chr "0")%re ].

Definition linear : list regex :=
  [ (* ( [+-]? \d* ) \*? x ( [+-] \d+ ) = 0 *)
    (coeff1 ⋅ Opt (chr "*") ⋅ chr "x" ⋅ const 2 ⋅ chr "=" ⋅ chr "0")%re ].

(** The captures of the first pattern of the list that matches: the
    [for (let pattern of ...)] loops return at the first match. *)
Fixpoint firstMatch (patterns : list regex) (eq : jsstring) : option captures :=
  match patterns with
  | [] => None
  | pattern :: rest =>
      match exec pattern eq with
      | Some m => Some m
      | None => firstMatch rest eq
      end
  end.

Inductive parsed :=
| Quadratic (a b c : num) (formatted : jsstring)
| Linear (a b : num) (formatted : jsstring)
| Unrecognised (error : string) (suggestions : list jsstring).

Definition suggestions : list jsstring :=
  [ units "x" ++ [sup2] ++ units " + 5x + 6 = 0";
    units "2x" ++ [sup2] ++ units " - 3x + 1 = 0";
    units "x" ++ [sup2] ++ units " - 4 = 0";
    units "3x + 6 = 0" ].

Definition parseEquation (equation : jsstring) : parsed :=
  (* Remove espaços e converte para minúsculo *)
  let eq := toLowerCase (stripWhiteSpace equation) in
  match firstMatch quadratic eq with
  | Some m =>
      let a := num_or (parseCoeff (m !! 1%nat)) one in
      let b := if negb (falsy (m !! 2%nat)) then parseCoeff (m !! 2%nat) else zero in
      let c := if negb (falsy (m !! 3%nat)) then parseCoeff (m !! 3%nat)
               else parseCoeff (m !! 2%nat) in
      Quadratic a b c (formatQuadraticEquation a b c)
  | None =>
      match firstMatch linear eq with
      | Some m =>
          let a := num_or (parseCoeff (m !! 1%nat)) one in
          let b := num_or (parseCoeff (m !! 2%nat)) zero in
          Linear a b (formatLinearEquation a b)
      | None => Unrecognised "Formato não reconhecido" suggestions
      end
  end.

End Equations.


(** ** Numbers, arrays of numbers and responses *)

Module Route.
#[local] Open Scope float_scope.

(** The 400 responses of the routes, by their [error] field, and the 500
    response of a [catch] block. *)
Inductive error :=
| InvalidData            (* 'Dados inválidos': a validation chain failed *)
| TwoEquationsNeeded     (* 'Duas equações são necessárias' *)
| SingularSystem         (* 'Sistema indeterminado ou impossível' *)
| ValuesRequired         (* 'Array de valores é obrigatório', 'Array de dados é obrigatório' *)
| NotAllNumbers          (* 'Todos os valores devem ser números válidos' *)
| InvalidMethod          (* 'Método de normalização inválido' *)
| DatasetsRequired       (* 'Datasets são obrigatórios' *)
| TwoVariablesNeeded     (* 'Pelo menos duas variáveis são necessárias' *)
| UnequalLengths         (* 'Todas as variáveis devem ter o mesmo número de observações' *)
| InternalError.         (* status 500, 'Erro interno' *)

Inductive response (A : Type) :=
| Ok (body : A)
| Err (e : error).
Arguments Ok {A} body.
Arguments Err {A} e.

#[global] Instance response_ret : MRet response := @Ok.
#[global] Instance response_bind : MBind response := λ A B f m,
  match m with
  | Ok body => f body
  | Err e => Err e
  end.

(** A call that may throw inside the [try] block of a route: the [catch]
    block answers with status 500. *)
Definition orThrow {A} (call : option A) : response A :=
  match call with
  | Some v => Ok v
  | None => Err InternalError
  end.

(** A value read as a number: [undefined] becomes [NaN]. *)
Definition toNumber (v : option float) : float := default nan v.

(** The length of an array, as a number. *)
Definition numOfNat (n : nat) : float := of_uint63 (Uint63.of_Z (Z.of_nat n)).

(** [Array.prototype.sort(comparefn)]: a stable insertion sort.  An
    element moves in front of the ones the comparator puts after it; a
    comparator result that is not positive ([NaN] included) leaves the
    order of the two as it is. *)
Fixpoint insertSorted (comparefn : float → float → float)
    (x : float) (sorted : list float) : list float :=
  match sorted with
  | [] => [x]
  | y :: rest =>
      if 0 <? comparefn y x then x :: y :: rest
      else y :: insertSorted comparefn x rest
  end.

Definition sort (comparefn : float → float → float) (l : list float) : list float :=
  foldl (fun sorted x => insertSorted comparefn x sorted) [] l.

(** [(a, b) => a - b] *)
Definition ascending (a b : float) : float := a - b.

(** [body(field).isNumeric()] of express-validator on a field that holds a
    JSON number.  The validator writes the number with [String] and tests
    the text against [/^[+-]?([0-9]*[.])?[0-9]+$/].  [String] writes a
    number without an exponent exactly when it is 0 or its magnitude is at
    least 1e-6 and below 1e21; it writes ["1e-7"], ["1e+21"], ["Infinity"]
    and the like otherwise, which the pattern refuses, as it refuses the
    empty text the validator makes of [NaN]. *)
Definition isNumeric (x : float) : bool :=
  (x =? 0) || ((1e-6 <=? PrimFloat.abs x) && (PrimFloat.abs x <? 1e21)).

End Route.

(** ** The equation routes: solving *)

Module Solver.
Import Route.
#[local] Open Scope float_scope.

(** The coefficients are JSON numbers.  A route answers 400 when its
    validation chain reports an error: a coefficient that fails
    [isNumeric], or a leading coefficient refused by the [custom] check
    [value === 0].  The response fields that only render text ([equation],
    [steps], [timestamp]) are left out. *)

Definition validateQuadratic (a b c : float) : bool :=
  isNumeric a && negb (a =? 0) && isNumeric b && isNumeric c.


Record verified := {
  x : float;
  verification : float;
  isValid : bool
}.

Definition verifySolutions (a b c : float) (solutions : list float) : list verified :=
  map (fun x =>
         let result := a * x * x + b * x + c in
         {| x := x;
            verification := if PrimFloat.abs result <? 1e-10 then 0 else result;
            isValid := PrimFloat.abs result <? 1e-6 |})
      solutions.

Inductive kind := two_real | one_real | complex.

Inductive roots :=
| RealRoots (xs : list float)
| ComplexRoots (zs : list (float * float)).   (* { real, imag } *)

Record quadraticBody := {
  discriminant : float;
  solutions : roots;
  type : kind;
  quadratic_verification : option (list verified)   (* null for complex roots *)
}.

Definition solveQuadratic (a b c : float) : response quadraticBody :=
  if negb (validateQuadratic a b c) then Err InvalidData
  else
    (* Calcular discriminante *)
    let discriminant := b * b - 4 * a * c in
    if 0 <? discriminant then
      (* Duas soluções reais *)
      let x1 := (- b + PrimFloat.sqrt discriminant) / (2 * a) in
      let x2 := (- b - PrimFloat.sqrt discriminant) / (2 * a) in
      let solutions := sort ascending [x1; x2] in
      Ok {| discriminant := discriminant;
            solutions := RealRoots solutions;
            type := two_real;
            quadratic_verification := Some (verifySolutions a b c solutions) |}
    else if discriminant =? 0 then
      (* Uma solução real *)
      let x := - b / (2 * a) in
      Ok {| discriminant := discriminant;
            solutions := RealRoots [x];
            type := one_real;
            quadratic_verification := Some (verifySolutions a b c [x]) |}
    else
      (* Soluções complexas *)
      let realPart := - b / (2 * a) in
      let imagPart := PrimFloat.sqrt (- discriminant) / (2 * a) in
      Ok {| discriminant := discriminant;
            solutions := ComplexRoots [(realPart, imagPart); (realPart, - imagPart)];
            type := complex;
            quadratic_verification := None |}.



Record systemBody := {
  solution_x : float;
  solution_y : float;
  determinant : float;
  verification_eq1 : float;
  verification_eq2 : float
}.

(** An equation [{a, b, c}] of the body, [None] when the field is missing. *)
Definition solveSystem2x2 (eq1 eq2 : option (float * float * float))
    : response systemBody :=
  match eq1, eq2 with
  | Some (a1, b1, c1), Some (a2, b2, c2) =>
      (* Método de Cramer *)
      let det := a1 * b2 - a2 * b1 in
      if PrimFloat.abs det <? 1e-10 then Err SingularSystem
      else
        let x := (c1 * b2 - c2 * b1) / det in
        let y := (a1 * c2 - a2 * c1) / det in
        Ok {| solution_x := x;
              solution_y := y;
              determinant := det;
              verification_eq1 := a1 * x + b1 * y;
              verification_eq2 := a2 * x + b2 * y |}
  | _, _ => Err TwoEquationsNeeded
  end.

End Solver.

(** ** What the routes import *)

Module Host.

(** [Math.pow] is implementation-approximated in ECMAScript: the routes are
    modelled for any such function. *)
Class JsMath := {
  Math_pow : float → float → float
}.

(** A call [f(...values)] passes every element of the array as an argument
    of its own.  An engine takes only so many arguments in a call (its
    stack bounds them) and throws a [RangeError] beyond: the handlers are
    modelled for any such bound. *)
Class Engine := {
  argumentsFit : nat → bool
}.

(** The functions the machine-learning routes take from the
    [simple-statistics] package, which is a dependency and not part of the
    repository.  Each throws on the empty array ([None]) and returns a
    number otherwise; nothing else about them is assumed. *)
Class SimpleStatistics := {
  mean : list float → option float;
  standardDeviation : list float → option float;
  variance : list float → option float;
  median : list float → option float;
  mode : list float → option float;
  min : list float → option float;
  max : list float → option float;
  mean_throws l : mean l = None ↔ l = [];
  standardDeviation_throws l : standardDeviation l = None ↔ l = [];
  variance_throws l : variance l = None ↔ l = [];
  median_throws l : median l = None ↔ l = [];
  mode_throws l : mode l = None ↔ l = [];
  min_throws l : min l = None ↔ l = [];
  max_throws l : max l = None ↔ l = []
}.

End Host.

(** ** The statistics routes *)

Module Ml.
Import Route Host.
#[local] Open Scope float_scope.

(** An element of a JSON array. *)
Inductive value :=
| JNumber (x : float)
| JString (s : string)
| JBool (b : bool)
| JNull
| JArray
| JObject.

(** [typeof v === 'number' && !isNaN(v)] *)
Definition validNumber (v : value) : bool :=
  match v with
  | JNumber x => negb (is_nan x)
  | _ => false
  end.

(** The numbers of an array whose elements all passed the check. *)
Definition numbers (values : list value) : list float :=
  omap (fun v => match v with JNumber x => Some x | _ => None end) values.

(** The two checks every statistics route starts with; [None] stands for a
    body whose field is not an array. *)
Definition checkValues (values : option (list value)) : response (list float) :=
  match values with
  | None | Some [] => Err ValuesRequired
  | Some values =>
      (* Verificar se todos são números *)
      let numericValues := List.filter validNumber values in
      if bool_decide (length numericValues ≠ length values)
      then Err NotAllNumbers
      else Ok (numbers numericValues)
  end.

(** *** [calculateQuartiles] and [detectOutliers] *)

Record quartiles := {
  q1 : option float;
  q2 : option float;
  q3 : option float
}.

(** [Math.floor(n * p)] for the length [n] of an array and [p] one of
    0.25, 0.5 and 0.75, written [num / den]: these products are exact in
    binary64 (an array has fewer than 2^32 elements), so the floor is the
    integer quotient. *)
Definition floorTimes (n : nat) (num den : nat) : nat := (n * num / den)%nat.

Definition calculateQuartiles (sortedArray : list float) : quartiles :=
  let n := length sortedArray in
  let q1Index := floorTimes n 1 4 in
  let q2Index := floorTimes n 1 2 in
  let q3Index := floorTimes n 3 4 in
  {| q1 := sortedArray !! q1Index;
     q2 := sortedArray !! q2Index;   (* mediana *)
     q3 := sortedArray !! q3Index |}.

Definition detectOutliers (sortedArray : list float) : list float :=
  let quartiles := calculateQuartiles sortedArray in
  let iqr := toNumber (q3 quartiles) - toNumber (q1 quartiles) in
  let lowerBound := toNumber (q1 quartiles) - 1.5 * iqr in
  let upperBound := toNumber (q3 quartiles) + 1.5 * iqr in
  List.filter (fun value => (value <? lowerBound) || (upperBound <? value)) sortedArray.

(** *** [POST /api/ml/stats/descriptive] *)

Section describe.
Context `{!JsMath, !SimpleStatistics}.

Definition calculateSkewness (data : list float) (meanVal stdVal : float) : float :=
  let n := numOfNat (length data) in
  let sum := foldl (fun acc value => acc + Math_pow ((value - meanVal) / stdVal) 3) 0 data in
  (n / ((n - 1) * (n - 2))) * sum.

Definition calculateKurtosis (data : list float) (meanVal stdVal : float) : float :=
  let n := numOfNat (length data) in
  let sum := foldl (fun acc value => acc + Math_pow ((value - meanVal) / stdVal) 4) 0 data in
  ((n * (n + 1)) / ((n - 1) * (n - 2) * (n - 3))) * sum
  - (3 * Math_pow (n - 1) 2) / ((n - 2) * (n - 3)).

Record statistics := {
  stat_count : nat;
  stat_mean : float;
  stat_median : float;
  stat_mode : float;
  stat_min : float;
  stat_max : float;
  stat_range : float;
  stat_variance : float;
  stat_standardDeviation : float;
  stat_quartiles : quartiles;
  stat_outliers : list float
}.

Record describeBody := {
  stats : statistics;
  skewness : float;
  kurtosis : float
}.

Definition describe (values : option (list value)) : response describeBody :=
  numericValues ← checkValues values;
  let sortedValues := sort ascending numericValues in
  (* Calcular estatísticas *)
  meanVal ← orThrow (mean numericValues);
  medianVal ← orThrow (median numericValues);
  modeVal ← orThrow (mode numericValues);
  minVal ← orThrow (min numericValues);
  maxVal ← orThrow (max numericValues);
  varianceVal ← orThrow (variance numericValues);
  stdVal ← orThrow (standardDeviation numericValues);
  let stats :=
    {| stat_count := length numericValues;
       stat_mean := meanVal;
       stat_median := medianVal;
       stat_mode := modeVal;
       stat_min := minVal;
       stat_max := maxVal;
       stat_range := maxVal - minVal;
       stat_variance := varianceVal;
       stat_standardDeviation := stdVal;
       stat_quartiles := calculateQuartiles sortedValues;
       stat_outliers := detectOutliers sortedValues |} in
  Ok {| stats := stats;
        skewness := calculateSkewness numericValues meanVal stdVal;
        kurtosis := calculateKurtosis numericValues meanVal stdVal |}.

End describe.

(** *** [POST /api/ml/normalize] *)

Section normalize.
Context `{!SimpleStatistics}.

Inductive parameters :=
| ZScore (mean std : float)
| MinMax (min max range : float)
| Robust (median : float) (q1 q3 : option float) (iqr : float).

Record summary := {
  sum_mean : float;
  sum_std : float;
  sum_min : float;
  sum_max : float
}.

Record normalizeBody := {
  normalized_data : list float;
  method_used : string;
  parameters_used : parameters;
  original : summary;
  normalized : summary
}.

Definition summarize (data : list float) : response summary :=
  meanVal ← orThrow (mean data);
  stdVal ← orThrow (standardDeviation data);
  minVal ← orThrow (min data);
  maxVal ← orThrow (max data);
  Ok {| sum_mean := meanVal; sum_std := stdVal; sum_min := minVal; sum_max := maxVal |}.

(** The [switch (method)]: the normalized data with the parameters used,
    or the 400 response of the [default] case. *)
Definition rescale (method : string) (numericData : list float)
    : response (list float * parameters) :=
  if bool_decide (method = "zscore") then
    meanVal ← orThrow (mean numericData);
    stdVal ← orThrow (standardDeviation numericData);
    Ok (map (fun x => (x - meanVal) / stdVal) numericData, ZScore meanVal stdVal)
  else if bool_decide (method = "minmax") then
    minVal ← orThrow (min numericData);
    maxVal ← orThrow (max numericData);
    let range := maxVal - minVal in
    Ok (map (fun x => (x - minVal) / range) numericData, MinMax minVal maxVal range)
  else if bool_decide (method = "robust") then
    medianVal ← orThrow (median numericData);
    let sortedData := sort ascending numericData in
    let q1 := q1 (calculateQuartiles sortedData) in
    let q3 := q3 (calculateQuartiles sortedData) in
    let iqr := toNumber q3 - toNumber q1 in
    Ok (map (fun x => (x - medianVal) / iqr) numericData, Robust medianVal q1 q3 iqr)
  else Err InvalidMethod.

(** [method] is [None] when the body has no such field: it defaults to
    ['zscore']. *)
Definition normalize (data : option (list value)) (method : option string)
    : response normalizeBody :=
  let method := default "zscore" method in
  numericData ← checkValues data;
  '(normalizedData, parameters) ← rescale method numericData;
  original ← summarize numericData;
  normalized ← summarize normalizedData;
  Ok {| normalized_data := normalizedData;
        method_used := method;
        parameters_used := parameters;
        original := original;
        normalized := normalized |}.

End normalize.

(** *** [POST /api/ml/correlation] *)

Section correlation.
Context `{!JsMath, !SimpleStatistics}.

(** [array.reduce((sum, xi, i) => ..., 0)] gives the callback the index. *)
Definition indexed {A} (l : list A) : list (nat * A) := imap pair l.

Definition calculateCorrelation (x y : list float) : response float :=
  meanX ← orThrow (mean x);
  meanY ← orThrow (mean y);
  let numerator :=
    foldl (fun sum '(i, xi) => sum + (xi - meanX) * (toNumber (y !! i) - meanY))
          0 (indexed x) in
  let denomX := foldl (fun sum xi => sum + Math_pow (xi - meanX) 2) 0 x in
  let denomY := foldl (fun sum yi => sum + Math_pow (yi - meanY) 2) 0 y in
  Ok (numerator / PrimFloat.sqrt (denomX * denomY)).

Definition tDistribution (t df : float) : float :=
  (* Aproximação da distribuição t de Student *)
  0.5. (* Simplificado para este exemplo *)

(** An object created by [{}], by its own properties: what [res.json]
    writes and [Object.keys] lists.

    One name is special.  [__proto__] is an accessor of [Object.prototype]:
    the assignment [object['__proto__'] = v] calls its setter, which makes
    [v] the prototype of [object] when [v] is an object and does nothing
    otherwise.  Either way [object] gets no property.  (In the body of a
    request the name is an ordinary one: [JSON.parse] defines it as an own
    property, so [Object.keys(datasets)] can list it.) *)
Definition proto : string := "__proto__".

(** [object[name] = v] *)
Definition assign {A} (object : gmap string A) (name : string) (v : A)
    : gmap string A :=
  if bool_decide (name = proto) then object else <[name := v]> object.

Abbreviation matrix := (gmap string (gmap string float)).

(** [m[var1][var2] = v], after the route has run [m[var1] = {}].  For
    [var1] other than [__proto__] the row is the property [var1] of [m].
    For [__proto__] it is the object the route has just made the prototype
    of [m]: the entry goes there, and [m] keeps its properties.  The route
    never reads that object, and it is no part of the response. *)
Definition setEntry (m : matrix) (var1 var2 : string) (v : float) : matrix :=
  if bool_decide (var1 = proto) then m
  else <[var1 := assign (default ∅ (m !! var1)) var2 v]> m.

(** [datasets[v]], for the object [datasets] given by its properties in
    the order of [Object.keys]. *)
Fixpoint lookupKey (datasets : list (string * list float)) (v : string)
    : option (list float) :=
  match datasets with
  | [] => None
  | (k, d) :: rest => if bool_decide (k = v) then Some d else lookupKey rest v
  end.

(** Reading [.length] of a missing property throws. *)
Definition property (datasets : list (string * list float)) (v : string)
    : response (list float) :=
  orThrow (lookupKey datasets v).

(** The body of [for (let j ...)], from [j] on: the two objects after it. *)
Fixpoint columns (datasets : list (string * list float)) (i : nat) (var1 : string)
    (rest : list (nat * string)) (st : matrix * matrix) : response (matrix * matrix) :=
  match rest with
  | [] => Ok st
  | (j, var2) :: rest =>
      let '(correlationMatrix, pValues) := st in
      if (i =? j)%nat then
        columns datasets i var1 rest
          (setEntry correlationMatrix var1 var2 1.0, setEntry pValues var1 var2 0.0)
      else
        d1 ← property datasets var1;
        d2 ← property datasets var2;
        corr ← calculateCorrelation d1 d2;
        (* Calcular p-value aproximado *)
        let n := numOfNat (length d1) in
        let t := corr * PrimFloat.sqrt ((n - 2) / (1 - corr * corr)) in
        columns datasets i var1 rest
          (setEntry correlationMatrix var1 var2 corr,
           setEntry pValues var1 var2 (2 * (1 - tDistribution (PrimFloat.abs t) (n - 2))))
  end.

(** The body of [for (let i ...)], from [i] on. *)
Fixpoint rows (datasets : list (string * list float)) (variables : list string)
    (rest : list (nat * string)) (st : matrix * matrix) : response (matrix * matrix) :=
  match rest with
  | [] => Ok st
  | (i, var1) :: rest =>
      let '(correlationMatrix, pValues) := st in
      st ← columns datasets i var1 (indexed variables)
             (assign correlationMatrix var1 ∅, assign pValues var1 ∅);
      rows datasets variables rest st
  end.

Inductive strength := fraca | moderada | forte.
Inductive direction := positiva | negativa.

Record interpretation := {
  int_correlation : option float;
  int_strength : strength;
  int_direction : direction
}.

(** The pairs [(i, j)] with [i < j], in the order of the two loops. *)
Fixpoint pairs {A} (l : list A) : list (A * A) :=
  match l with
  | [] => []
  | x :: l' => map (pair x) l' ++ pairs l'
  end.

(** [Object.keys(matrix)] for the matrix the route has built: the
    variables that became properties, in the order of their creation.
    ([Object.keys] lists the names that are array indices first, in
    ascending order, and so does the list of variables, which comes from
    [Object.keys] too.) *)
Definition keys (variables : list string) : list string :=
  List.filter (fun v => negb (bool_decide (v = proto))) variables.

(** [interpretCorrelations]: one entry per pair of keys of the matrix,
    assigned under the name [var1_var2]; [variables] stands for
    [Object.keys(matrix)]. *)
Definition interpretCorrelations (variables : list string) (m : matrix)
    : gmap string interpretation :=
  foldl (fun interpretations '(var1, var2) =>
           let corr := m !! var1 ≫= (.!! var2) in
           let strength :=
             if PrimFloat.abs (toNumber corr) <? 0.3 then fraca
             else if PrimFloat.abs (toNumber corr) <? 0.7 then moderada
             else forte in
           let direction := if 0 <? toNumber corr then positiva else negativa in
           assign interpretations (var1 +:+ "_" +:+ var2)
             {| int_correlation := corr;
                int_strength := strength;
                int_direction := direction |})
        ∅ (pairs variables).

Record correlationBody := {
  correlation_matrix : matrix;
  p_values : matrix;
  method_name : string;
  variables : list string;
  sample_size : option nat;
  interpretations : gmap string interpretation
}.

(** [datasets] is [None] when the body has no such object; [method]
    defaults to ['pearson']. *)
Definition correlation (datasets : option (list (string * list float)))
    (method : option string) : response correlationBody :=
  match datasets with
  | None => Err DatasetsRequired
  | Some datasets =>
      let variables := datasets.*1 in
      if (length variables <? 2)%nat then Err TwoVariablesNeeded
      else
        (* Verificar se todos os arrays têm o mesmo tamanho *)
        let lengths := map (fun v => length (default [] (lookupKey datasets v))) variables in
        if negb (forallb (fun l => bool_decide (Some l = lengths !! 0%nat)) lengths)
        then Err UnequalLengths
        else
          (* Calcular matriz de correlação *)
          '(correlationMatrix, pValues) ← rows datasets variables (indexed variables) (∅, ∅);
          Ok {| correlation_matrix := correlationMatrix;
                p_values := pValues;
                method_name := default "pearson" method;
                variables := variables;
                sample_size := lengths !! 0%nat;
                interpretations :=
                  interpretCorrelations (keys variables) correlationMatrix |}
  end.

End correlation.

End Ml.

(** ** [POST /api/stats] of [server.js] *)

Module Server.
Import Route Ml.
#[local] Open Scope float_scope.

Definition isNegativeZero (x : float) : bool :=
  match classify x with NZero => true | _ => false end.

(** [Math.min] and [Math.max] of their arguments: [NaN] if an argument is
    [NaN], and [-0] is below [+0]. *)
Definition Math_min (values : list float) : float :=
  foldl (fun lowest x =>
           if is_nan x || is_nan lowest then nan
           else if (x <? lowest) || ((x =? lowest) && isNegativeZero x) then x
           else lowest)
        infinity values.

Definition Math_max (values : list float) : float :=
  foldl (fun highest x =>
           if is_nan x || is_nan highest then nan
           else if (highest <? x) || ((x =? highest) && isNegativeZero highest) then x
           else highest)
        neg_infinity values.

Record statistics := {
  count : nat;
  sum : float;
  mean : float;
  median : float;
  min : float;
  max : float;
  range : float;
  variance : float;
  standardDeviation : float
}.

Section stats.
Context `{!Host.JsMath, !Host.Engine}.

(** [f(...values)] inside the [try] block: beyond the arguments a call
    can take, the call throws and the handler answers 500. *)
Definition spread {A} (f : list float → A) (values : list float) : response A :=
  if Host.argumentsFit (length values) then Ok (f values) else Err InternalError.

Definition stats (values : option (list value)) : response statistics :=
  numericValues ← checkValues values;
  (* Calcular estatísticas básicas *)
  let sortedValues := sort ascending numericValues in
  let n := length numericValues in
  let sum := foldl (fun acc val => acc + val) 0 numericValues in
  let mean := sum / numOfNat n in
  let median :=
    if (n mod 2 =? 0)%nat
    then (toNumber (sortedValues !! (n / 2 - 1)%nat) + toNumber (sortedValues !! (n / 2)%nat)) / 2
    else toNumber (sortedValues !! (n / 2)%nat) in
  (* Variância e desvio padrão *)
  let variance :=
    foldl (fun acc val => acc + Host.Math_pow (val - mean) 2) 0 numericValues / numOfNat n in
  let standardDeviation := PrimFloat.sqrt variance in
  min ← spread Math_min numericValues;
  max ← spread Math_max numericValues;
  rangeMax ← spread Math_max numericValues;
  rangeMin ← spread Math_min numericValues;
  Ok {| count := n;
        sum := sum;
        mean := mean;
        median := median;
        min := min;
        max := max;
        range := rangeMax - rangeMin;
        variance := variance;
        standardDeviation := standardDeviation |}.

End stats.

End Server.

(** ** Helpers of the equation routes *)

Module Helpers.
Import Js Equations.

(** The system route writes the leading term of its equations with it. *)
Definition formatCoeff (coeff : num) : jsstring :=
  if num_eqb coeff one then []
  else if num_eqb coeff minus_one then units "-"
  else toString coeff.

End Helpers.

(** ** [POST /api/quadratic] of [server.js] *)

Module Api.
Import Route Solver Ml.
#[local] Open Scope float_scope.

(** The two 400 responses of the handler. *)
Inductive quadraticError :=
| NotNumbers      (* 'Coeficientes devem ser números' *)
| ZeroLeading.    (* 'Coeficiente "a" não pode ser zero' *)

Record quadraticBody := {
  discriminant : float;
  solutions : roots;
  type : kind
}.

(** A field of the body is [None] when it is missing: its [typeof] is
    ['undefined']. *)
Definition quadratic (a b c : option value) : quadraticError + quadraticBody :=
  match a, b, c with
  | Some (JNumber a), Some (JNumber b), Some (JNumber c) =>
      if a =? 0 then inl ZeroLeading
      else
        (* Calcular discriminante *)
        let discriminant := b * b - 4 * a * c in
        if 0 <? discriminant then
          (* Duas soluções reais *)
          let x1 := (- b + PrimFloat.sqrt discriminant) / (2 * a) in
          let x2 := (- b - PrimFloat.sqrt discriminant) / (2 * a) in
          inr {| discriminant := discriminant;
                 solutions := RealRoots (sort ascending [x1; x2]);
                 type := two_real |}
        else if discriminant =? 0 then
          (* Uma solução real *)
          let x := - b / (2 * a) in
          inr {| discriminant := discriminant;
                 solutions := RealRoots [x];
                 type := one_real |}
        else
          (* Soluções complexas *)
          let realPart := - b / (2 * a) in
          let imagPart := PrimFloat.sqrt (- discriminant) / (2 * a) in
          inr {| discriminant := discriminant;
                 solutions := ComplexRoots [(realPart, imagPart); (realPart, - imagPart)];
                 type := complex |}
  | _, _, _ => inl NotNumbers
  end.

End Api.

(** ** [POST /api/calculate] of [route/calculator.js] *)

Module Calculator.
Import Js.

Definition timesSign : N := 215%N.       (* U+00D7 *)
Definition divisionSign : N := 247%N.    (* U+00F7 *)
Definition rootSign : N := 8730%N.       (* U+221A *)

(** The character class of the pattern that [matches] checks, part by
    part: the digits, [+ - * / ( ) .], white space, the root sign,
    [^ ! %] and the letters (and the space) of the function names. *)
Definition inClass (c : N) : bool :=
  isDigit c
  || bool_decide (c ∈ units "+-*/().")
  || isWhiteSpace c
  || (c =? rootSign)%N
  || bool_decide (c ∈ units "^!%")
  || bool_decide (c ∈ units "sincostan log ln exp abs ceil floor round pi e ").

(** The pattern has the flag [i]: a letter matches in either case.  (The
    class holds no capital letter, and no character outside ASCII shares
    its case folding with one of the class.) *)
Definition allowed (c : N) : bool := inClass c || inClass (lowerUnit c).

(** The validation chain of the field [expression], for a string:
    [notEmpty], [isLength({ max: 200 })] and [matches] with the class
    above between [^] and [+$].  (The length that the validator counts is
    the number of code units less the surrogate pairs; a string of the
    class has none.) *)
Definition validateExpression (expression : jsstring) : bool :=
  negb (bool_decide (expression = []))
  && (length expression <=? 200)%nat
  && (negb (bool_decide (expression = [])) && forallb allowed expression).

(** [s.replace(/c/g, by)] for a character [c]. *)
Definition replaceAll (c : N) (by_ : jsstring) (s : jsstring) : jsstring :=
  flat_map (fun x => if (x =? c)%N then by_ else [x]) s.

(** Substituir operadores para Math.js *)
Definition processExpression (expression : jsstring) : jsstring :=
  toLowerCase
    (replaceAll rootSign (units "sqrt")
       (replaceAll divisionSign (units "/")
          (replaceAll timesSign (units "*") expression))).

(** The [mathjs] package, which is a dependency: [evaluate] returns a
    value of the package or throws ([None]); [isFinite] and [Number] read
    such a value as a number. *)
Class MathJs := {
  result : Type;
  evaluate : jsstring → option result;
  toNumber : result → float
}.

Inductive error :=
| InvalidData          (* 'Dados inválidos': the validation chain failed *)
| InvalidResult        (* 'Resultado inválido' *)
| CalculationError.    (* 'Erro no cálculo': [evaluate] threw *)

(** The fields [formatted], [type] and [timestamp] of the response are
    left out. *)
Record body := {
  body_result : float;
  body_expression : jsstring
}.

Definition calculate `{!MathJs} (expression : jsstring) : error + body :=
  if negb (validateExpression expression) then inl InvalidData
  else
    match evaluate (processExpression expression) with
    | None => inl CalculationError
    | Some result =>
        (* Verificar se o resultado é válido *)
        if negb (is_finite (toNumber result)) then inl InvalidResult
        else inr {| body_result := toNumber result; body_expression := expression |}
    end.

End Calculator.

(** ** [POST /api/ml/regression/linear] *)

Module Regression.
Import Route Host Ml.
#[local] Open Scope float_scope.

Inductive error :=
| InvalidData          (* 'Dados inválidos': the validation chain failed *)
| CannotRegress        (* 'Não é possível calcular regressão' *)
| InternalError.       (* status 500, 'Erro interno' *)

Record prediction := {
  x : float;
  y_actual : float;
  y_predicted : float;
  residual : float
}.

(** The fields that only render text ([equation], [timestamp]) are left
    out. *)
Record body := {
  slope : float;
  intercept : float;
  correlation : float;
  r_squared : float;
  mse : float;
  rmse : float;
  mae : float;
  predictions : list prediction;
  dataPoints : nat;
  meanX : float;
  meanY : float
}.

#[global] Instance answer_bind : MBind (sum error) := λ A B f m,
  match m with
  | inr v => f v
  | inl e => inl e
  end.

(** A call of the imported package, or of [calculateCorrelation], inside
    the [try] block. *)
Definition call {A} (r : option A) : error + A :=
  match r with
  | Some v => inr v
  | None => inl InternalError
  end.

Definition ofRoute {A} (r : response A) : error + A :=
  match r with
  | Ok v => inr v
  | Err _ => inl InternalError
  end.

Section regression.
Context `{!JsMath, !SimpleStatistics}.

(** [validateDataset]: an array of 2 to 1000 points whose [x] and [y] all
    pass [isNumeric]. *)
Definition validateDataset (data : list (float * float)) : bool :=
  (2 <=? length data)%nat && (length data <=? 1000)%nat
  && forallb (fun point => isNumeric point.1) data
  && forallb (fun point => isNumeric point.2) data.

(** The points are objects whose fields [x] and [y] hold JSON numbers.
    [data] is [None] when the field is not an array. *)
Definition linearRegression (data : option (list (float * float))) : error + body :=
  match data with
  | None => inl InvalidData
  | Some data =>
      if negb (validateDataset data) then inl InvalidData
      else
        (* Extrair arrays X e Y *)
        let xValues := map fst data in
        let yValues := map snd data in
        (* Calcular estatísticas básicas *)
        let n := length data in
        meanX ← call (mean xValues);
        meanY ← call (mean yValues);
        (* Calcular coeficientes da regressão linear *)
        let numerator :=
          foldl (fun sum point => sum + (point.1 - meanX) * (point.2 - meanY)) 0 data in
        let denominator :=
          foldl (fun sum point => sum + Math_pow (point.1 - meanX) 2) 0 data in
        if denominator =? 0 then inl CannotRegress
        else
          let slope := numerator / denominator in
          let intercept := meanY - slope * meanX in
          (* Calcular correlação *)
          correlation ← ofRoute (calculateCorrelation xValues yValues);
          let rSquared := correlation * correlation in
          (* Gerar predições *)
          let predictions :=
            map (fun point =>
                   {| x := point.1;
                      y_actual := point.2;
                      y_predicted := slope * point.1 + intercept;
                      residual := point.2 - (slope * point.1 + intercept) |})
                data in
          (* Calcular métricas de erro *)
          mse ← call (mean (map (fun p => residual p * residual p) predictions));
          let rmse := PrimFloat.sqrt mse in
          mae ← call (mean (map (fun p => PrimFloat.abs (residual p)) predictions));
          inr {| slope := slope;
                 intercept := intercept;
                 correlation := correlation;
                 r_squared := rSquared;
                 mse := mse;
                 rmse := rmse;
                 mae := mae;
                 predictions := predictions;
                 dataPoints := n;
                 meanX := meanX;
                 meanY := meanY |}
  end.

End regression.
End Regression.

(** ** Stand-ins for the imports, to run the routes on examples

    The theorems below hold for every implementation of the interfaces of
    [Host].  To evaluate a route on a concrete input one is needed: these
    stand-ins serve the examples only, and no theorem says anything about
    the package through them. *)

Module Reference.
Import Route.
#[local] Open Scope float_scope.

(** Exponents 2, 3 and 4, which are the ones the routes use, by repeated
    multiplication. *)
Definition pow (x y : float) : float :=
  if y =? 2 then x * x
  else if y =? 3 then x * x * x
  else if y =? 4 then x * x * x * x
  else nan.

Definition math : Host.JsMath := {| Host.Math_pow := pow |}.

(** A bound of 65535 arguments. *)
Definition engine : Host.Engine :=
  {| Host.argumentsFit := fun n => (N.of_nat n <=? 65535)%N |}.

Definition nonEmpty {A} (f : list float → A) (l : list float) : option A :=
  match l with
  | [] => None
  | _ => Some (f l)
  end.

Lemma nonEmpty_throws {A} (f : list float → A) l : nonEmpty f l = None ↔ l = [].
Proof. destruct l; simpl; split; congruence. Qed.

(** The sum with a running correction of the rounding errors, which is
    how the package adds. *)
Definition sum (l : list float) : float :=
  match l with
  | [] => 0
  | first :: rest =>
      let '(sum, correction) :=
        foldl (fun '(sum, correction) x =>
                 let transition := sum + x in
                 (transition,
                  if PrimFloat.abs x <=? PrimFloat.abs sum
                  then correction + (sum - transition + x)
                  else correction + (x - transition + sum)))
              (first, 0) rest in
      sum + correction
  end.
Definition mean (l : list float) : float := sum l / numOfNat (length l).
Definition variance (l : list float) : float :=
  let m := mean l in
  foldl (fun acc x => acc + (x - m) * (x - m)) 0 l / numOfNat (length l).
Definition standardDeviation (l : list float) : float :=
  match l with
  | [_] => 0
  | _ => PrimFloat.sqrt (variance l)
  end.
Definition median (l : list float) : float :=
  let sorted := sort ascending l in
  let n := length l in
  if (n mod 2 =? 0)%nat
  then (toNumber (sorted !! (n / 2 - 1)%nat) + toNumber (sorted !! (n / 2)%nat)) / 2
  else toNumber (sorted !! (n / 2)%nat).
Definition min (l : list float) : float :=
  foldl (fun lowest x => if x <? lowest then x else lowest) (toNumber (head l)) l.
Definition max (l : list float) : float :=
  foldl (fun highest x => if highest <? x then x else highest) (toNumber (head l)) l.

(** The value with the longest run in the sorted array, the first on a tie. *)
Fixpoint longestRun (l : list float) (current : float) (seen : nat)
    (best : float) (most : nat) : float :=
  match l with
  | [] => if (most <? seen)%nat then current else best
  | x :: l' =>
      if x =? current then longestRun l' current (S seen) best most
      else if (most <? seen)%nat then longestRun l' x 1 current seen
      else longestRun l' x 1 best most
  end.
Definition mode (l : list float) : float :=
  match sort ascending l with
  | [] => nan
  | x :: l' => longestRun l' x 1 x 0
  end.

Definition statistics : Host.SimpleStatistics := {|
  Host.mean := nonEmpty mean;
  Host.standardDeviation := nonEmpty standardDeviation;
  Host.variance := nonEmpty variance;
  Host.median := nonEmpty median;
  Host.mode := nonEmpty mode;
  Host.min := nonEmpty min;
  Host.max := nonEmpty max;
  Host.mean_throws := nonEmpty_throws mean;
  Host.standardDeviation_throws := nonEmpty_throws standardDeviation;
  Host.variance_throws := nonEmpty_throws variance;
  Host.median_throws := nonEmpty_throws median;
  Host.mode_throws := nonEmpty_throws mode;
  Host.min_throws := nonEmpty_throws min;
  Host.max_throws := nonEmpty_throws max
|}.

End Reference.

(** * Properties *)

(** ** The sign of a difference of two binary64 numbers *)

Module FloatFacts.
#[local] Open Scope Z_scope.

Lemma digits2_pos_bounds m :
  2 ^ (Zpos (digits2_pos m) - 1) <= Zpos m < 2 ^ Zpos (digits2_pos m).
Proof.
  induction m as [m IH|m IH|]; cbn [digits2_pos].
  - rewrite Pos2Z.inj_succ. replace (Z.succ (Zpos (digits2_pos m)) - 1) with (Z.succ (Zpos (digits2_pos m) - 1)) by lia.
    rewrite !Z.pow_succ_r by lia. lia.
  - rewrite Pos2Z.inj_succ. replace (Z.succ (Zpos (digits2_pos m)) - 1) with (Z.succ (Zpos (digits2_pos m) - 1)) by lia.
    rewrite !Z.pow_succ_r by lia. lia.
  - cbn. lia.
Qed.

Lemma shr_1_m r : 0 <= shr_m r -> shr_m (shr_1 r) = shr_m r / 2.
Proof.
  destruct r as [m rb sb]. cbn [shr_m]. intros Hm. unfold shr_1.
  destruct m as [|[p|p|]|p]; cbn [shr_m]; try lia.
  all: first [ reflexivity
             | apply (Z.div_unique _ 2 _ 1); [lia|rewrite Pos2Z.inj_xI; lia]
             | apply (Z.div_unique _ 2 _ 0); [lia|rewrite Pos2Z.inj_xO; lia] ].
Qed.

Lemma iter_shr_1_m p : forall r, 0 <= shr_m r ->
  shr_m (SpecFloat.iter_pos shr_1 p r) = shr_m r / 2 ^ Zpos p.
Proof.
  induction p as [p IH|p IH|]; intros r Hr; cbn [SpecFloat.iter_pos].
  - assert (H1 : 0 <= shr_m (shr_1 r)) by (rewrite shr_1_m by done; apply Z.div_pos; lia).
    assert (H2 : 0 <= shr_m (SpecFloat.iter_pos shr_1 p (shr_1 r)))
      by (rewrite IH by done; apply Z.div_pos; lia).
    rewrite IH, IH, shr_1_m by done.
    rewrite !Z.div_div by lia. f_equal.
    rewrite Pos2Z.inj_xI. rewrite <- Z.pow_add_r, <- (Z.pow_1_r 2) at 1 by lia.
    rewrite <- Z.pow_add_r by lia. f_equal. lia.
  - assert (H2 : 0 <= shr_m (SpecFloat.iter_pos shr_1 p r))
      by (rewrite IH by done; apply Z.div_pos; lia).
    rewrite IH, IH by done. rewrite !Z.div_div by lia. f_equal.
    rewrite Pos2Z.inj_xO, <- Z.pow_add_r by lia. f_equal. lia.
  - rewrite shr_1_m by done. reflexivity.
Qed.

Definition emin64 : Z := SpecFloat.emin prec emax.

Lemma fexp_ge_emin k : emin64 <= fexp prec emax k.
Proof. unfold fexp, emin64. lia. Qed.

(** Shifting to the exponent of the format keeps a positive mantissa positive,
    as long as the exponent is not below the least one. *)
Lemma shr_fexp_positive z e l :
  0 < z -> emin64 <= e ->
  0 < shr_m (fst (shr_fexp prec emax z e l)) /\ emin64 <= snd (shr_fexp prec emax z e l).
Proof.
  intros Hz He. unfold shr_fexp, shr.
  destruct z as [|m|m]; [lia| |lia]. cbn [Zdigits2].
  pose proof (digits2_pos_bounds m) as Hd.
  set (d := Zpos (digits2_pos m)) in *.
  assert (Hn : fexp prec emax (d + e) - e = Z.max (d - prec) (emin64 - e))
    by (unfold fexp, emin64; lia).
  rewrite Hn.
  destruct (Z.max (d - prec) (emin64 - e)) as [|p|p] eqn:Hmax; cbn [fst snd].
  - split; [|lia]. by destruct l as [|[]].
  - split; [|lia].
    rewrite iter_shr_1_m by (destruct l as [|[]]; cbn; lia).
    assert (Hm : shr_m (shr_record_of_loc (Zpos m) l) = Zpos m) by (by destruct l as [|[]]).
    rewrite Hm. apply Z.div_str_pos. split; [lia|].
    apply Z.le_trans with (2 ^ (d - 1)); [|lia].
    apply Z.pow_le_mono_r; [lia|]. unfold prec in *. lia.
  - split; [|lia]. by destruct l as [|[]].
Qed.

Lemma round_nearest_even_positive m l : 0 < m -> 0 < round_nearest_even m l.
Proof.
  intros Hm. unfold round_nearest_even. destruct l as [|[]]; try lia.
  destruct (Z.even m); lia.
Qed.

Lemma binary_round_aux_positive mx ex lx :
  0 < mx -> emin64 <= ex ->
  SFltb (S754_zero false) (binary_round_aux prec emax false mx ex lx) = true.
Proof.
  intros Hm He. unfold binary_round_aux.
  destruct (shr_fexp_positive mx ex lx Hm He) as [H1 H1e].
  destruct (shr_fexp prec emax mx ex lx) as [mrs' e']. cbn [fst snd] in *.
  pose proof (round_nearest_even_positive (shr_m mrs') (loc_of_shr_record mrs') H1) as H2.
  destruct (shr_fexp_positive _ e' loc_Exact H2 H1e) as [H3 _].
  destruct (shr_fexp prec emax _ e' loc_Exact) as [mrs'' e'']. cbn [fst snd] in *.
  destruct (shr_m mrs''); [lia| |lia].
  destruct (Z.leb e'' (emax - prec)); reflexivity.
Qed.

Lemma shl_align_exponent mx ex ex' :
  emin64 <= ex -> emin64 <= ex' -> emin64 <= snd (shl_align mx ex ex').
Proof.
  intros. unfold shl_align. destruct (ex' - ex); cbn [snd]; lia.
Qed.

Lemma binary_normalize_sign m e :
  emin64 <= e ->
  SFltb (S754_zero false) (binary_normalize prec emax m e false) = (0 <? m).
Proof.
  intros He. destruct m as [|m|m]; cbn [binary_normalize].
  - reflexivity.
  - unfold binary_round.
    pose proof (shl_align_exponent m e (fexp prec emax (Zpos (digits2_pos m) + e)) He
                  (fexp_ge_emin _)) as Hez.
    destruct (shl_align _ _ _) as [mz ez]. cbn [snd] in Hez.
    rewrite binary_round_aux_positive by (done || lia). reflexivity.
  - unfold binary_round. destruct (shl_align _ _ _) as [mz ez].
    unfold binary_round_aux.
    destruct (shr_fexp prec emax (Zpos mz) ez loc_Exact) as [mrs' e'].
    destruct (shr_fexp prec emax _ e' loc_Exact) as [mrs'' e''].
    destruct (shr_m mrs''); [reflexivity| |reflexivity].
    destruct (Z.leb e'' (emax - prec)); reflexivity.
Qed.

Lemma shl_align_value mx ex ez :
  ez <= ex -> Zpos (fst (shl_align mx ex ez)) = Zpos mx * 2 ^ (ex - ez).
Proof.
  intros Hle. unfold shl_align.
  destruct (ez - ex) as [|d|d] eqn:Hd; cbn [fst]; try lia.
  - replace (ex - ez) with 0 by lia. lia.
  - replace (ex - ez) with (Zpos d) by lia.
    change (Pos.iter xO mx d) with (shift_pos d mx).
    rewrite shift_pos_correct. change (Zpower_pos 2 d) with (2 ^ Zpos d). lia.
Qed.

Lemma bounded_canonical m e :
  bounded prec emax m e = true ->
  emin64 <= e /\ Zpos (digits2_pos m) <= prec /\ (emin64 < e -> Zpos (digits2_pos m) = prec).
Proof.
  unfold bounded, canonical_mantissa, fexp, emin64.
  intros [H%Z.eqb_eq _]%andb_true_iff. lia.
Qed.

(** The value of the float with the larger exponent is the larger one. *)
Lemma larger_exponent mx ex my ey :
  bounded prec emax mx ex = true -> bounded prec emax my ey = true ->
  ex < ey -> Zpos mx < Zpos my * 2 ^ (ey - ex).
Proof.
  intros (Hex & Hdx & _)%bounded_canonical (Hey & _ & Hdy)%bounded_canonical Hlt.
  pose proof (digits2_pos_bounds mx) as Hmx. pose proof (digits2_pos_bounds my) as Hmy.
  rewrite Hdy in Hmy by lia.
  assert (Hp : 2 ^ 1 <= 2 ^ (ey - ex)) by (apply Z.pow_le_mono_r; lia).
  assert (Hq : 2 ^ Zpos (digits2_pos mx) <= 2 ^ prec) by (apply Z.pow_le_mono_r; lia).
  assert (Hr : 2 ^ prec = 2 * 2 ^ (prec - 1)) by reflexivity.
  nia.
Qed.

Lemma aligned_compare sx mx ex sy my ey :
  bounded prec emax mx ex = true -> bounded prec emax my ey = true ->
  (0 <? cond_Zopp sx (Zpos (fst (shl_align mx ex (Z.min ex ey))))
        - cond_Zopp sy (Zpos (fst (shl_align my ey (Z.min ex ey)))))
  = SFltb (S754_finite sy my ey) (S754_finite sx mx ex).
Proof.
  intros Hx Hy.
  rewrite !shl_align_value by lia.
  unfold SFltb, SFcompare.
  destruct (Z.compare_spec ey ex) as [->|Hlt|Hlt].
  - rewrite Z.min_id, Z.sub_diag, !Z.mul_1_r.
    rewrite Pos.compare_cont_spec. cbn [Pos.switch_Eq].
    destruct (Pos.compare_spec my mx) as [->|H|H];
      destruct sx, sy; cbn [cond_Zopp CompOpp];
      first [apply Z.ltb_lt; lia | apply Z.ltb_ge; lia].
  - pose proof (larger_exponent my ey mx ex Hy Hx Hlt) as Hv.
    rewrite Z.min_r, Z.sub_diag, Z.mul_1_r by lia.
    destruct sx, sy; cbn [cond_Zopp];
      first [apply Z.ltb_lt; lia | apply Z.ltb_ge; lia].
  - pose proof (larger_exponent mx ex my ey Hx Hy Hlt) as Hv.
    rewrite Z.min_l, Z.sub_diag, Z.mul_1_r by lia.
    destruct sx, sy; cbn [cond_Zopp];
      first [apply Z.ltb_lt; lia | apply Z.ltb_ge; lia].
Qed.

(** The sign of a difference tells the order of the two numbers. *)
Lemma SF64sub_sign X Y :
  valid_binary X = true -> valid_binary Y = true ->
  SFltb (S754_zero false) (SF64sub X Y) = SFltb Y X.
Proof.
  intros HX HY.
  destruct X as [sx|sx| |sx mx ex], Y as [sy|sy| |sy my ey];
    try (destruct sx; try destruct sy; reflexivity);
    try (destruct sy; reflexivity);
    try reflexivity.
  cbn [valid_binary] in HX, HY.
  unfold SF64sub, SFsub.
  rewrite binary_normalize_sign.
  - by apply aligned_compare.
  - apply bounded_canonical in HX as [? _], HY as [? _]. lia.
Qed.

(** [x - y] is positive exactly when [y < x]: a difference does not round to
    zero, and never changes sign. *)
Lemma sub_sign (x y : float) : (0 <? x - y)%float = (y <? x)%float.
Proof.
  rewrite !ltb_spec, sub_spec. apply SF64sub_sign; apply Prim2SF_valid.
Qed.

End FloatFacts.

(** ** The solvers *)

Module SolverFacts.
Import Route Solver.
#[local] Open Scope float_scope.


Lemma validateQuadratic_passes (a b c : float) :
  isNumeric a = true → (a =? 0) = false → isNumeric b = true → isNumeric c = true →
  validateQuadratic a b c = true.
Proof. unfold validateQuadratic. by intros -> -> -> ->. Qed.




(** C5: for D = a1·b2 − a2·b1, solveSystem2x2 fails with SingularSystem
    whenever |D| < 1e-10 and returns no solution then; otherwise it returns
    x = (c1·b2 − c2·b1)/D and y = (a1·c2 − a2·c1)/D with the determinant D. *)
Theorem solveSystem2x2_cramer (a1 b1 c1 a2 b2 c2 : float) :
  let D := a1 * b2 - a2 * b1 in
  ((PrimFloat.abs D <? 1e-10) = true →
     solveSystem2x2 (Some (a1, b1, c1)) (Some (a2, b2, c2)) = Err SingularSystem) ∧
  ((PrimFloat.abs D <? 1e-10) = false →
     ∃ body, solveSystem2x2 (Some (a1, b1, c1)) (Some (a2, b2, c2)) = Ok body ∧
       solution_x body = (c1 * b2 - c2 * b1) / D ∧
       solution_y body = (a1 * c2 - a2 * c1) / D ∧
       determinant body = D).
Proof.
  intros D. unfold solveSystem2x2. fold D.
  split; intros HD; rewrite HD; [reflexivity|].
  eexists. split; [reflexivity|]. cbn. auto.
Qed.

Lemma solveSystem2x2_cramer_witness :
  solveSystem2x2 (Some (1, 2, 3)) (Some (2, 4, 7)) = Err SingularSystem ∧
  ∃ body, solveSystem2x2 (Some (2, 3, 7)) (Some (1, -1, 1)) = Ok body ∧
    solution_x body = 2 ∧ solution_y body = 1 ∧ determinant body = -5.
Proof.
  split.
  - exact (proj1 (solveSystem2x2_cramer 1 2 3 2 4 7) eq_refl).
  - destruct (proj2 (solveSystem2x2_cramer 2 3 7 1 (-1) 1) eq_refl)
      as (body & Hbody & Hx & Hy & HD).
    exists body. rewrite Hx, Hy, HD. repeat split; try reflexivity. exact Hbody.
Defined.

(** *** The order of the two real roots *)

(** A rounded result carries the sign it was given. *)
Lemma binary_round_aux_negative mx ex lx :
  SFltb (S754_zero false) (binary_round_aux prec emax true mx ex lx) = false.
Proof.
  unfold binary_round_aux.
  destruct (shr_fexp prec emax mx ex lx) as [mrs' e'].
  destruct (shr_fexp prec emax _ e' loc_Exact) as [mrs'' e''].
  destruct (shr_m mrs''); [reflexivity| |reflexivity].
  destruct (Z.leb e'' (emax - prec)); reflexivity.
Qed.

Lemma binary_normalize_positive m e :
  SFltb (S754_zero false) (binary_normalize prec emax m e false) = true → (0 < m)%Z.
Proof.
  destruct m as [|m|m]; cbn [binary_normalize]; [discriminate|lia|].
  unfold binary_round. destruct (shl_align _ _ _) as [mz ez].
  rewrite binary_round_aux_negative. discriminate.
Qed.

Lemma binary_normalize_negative m e :
  (m < 0)%Z → SFltb (S754_zero false) (binary_normalize prec emax m e false) = false.
Proof.
  destruct m as [|m|m]; [lia|lia|]. intros _. cbn [binary_normalize].
  unfold binary_round. destruct (shl_align _ _ _) as [mz ez].
  apply binary_round_aux_negative.
Qed.

Lemma SF64sub_positive_antisym X Y :
  SFltb (S754_zero false) (SF64sub X Y) = true →
  SFltb (S754_zero false) (SF64sub Y X) = false.
Proof.
  destruct X as [sx|sx| |sx mx ex], Y as [sy|sy| |sy my ey];
    try (destruct sx; try destruct sy; cbn; congruence);
    try (destruct sy; cbn; congruence);
    try (cbn; congruence).
  unfold SF64sub, SFsub. rewrite (Z.min_comm ey ex).
  intros H%binary_normalize_positive.
  apply binary_normalize_negative. lia.
Qed.

(** When [x - y] is positive, [y - x] is not. *)
Lemma sub_positive_antisym (x y : float) :
  (0 <? x - y) = true → (0 <? y - x) = false.
Proof.
  rewrite !ltb_spec, !sub_spec. apply SF64sub_positive_antisym.
Qed.

(** The residual the verification array reports for a root. *)
Definition residual (a b c x : float) : float := a * x * x + b * x + c.

Definition checks (a b c x : float) (v : verified) : Prop :=
  Solver.x v = x ∧
  verification v = (if PrimFloat.abs (residual a b c x) <? 1e-10 then 0 else residual a b c x) ∧
  isValid v = (PrimFloat.abs (residual a b c x) <? 1e-6).

(** C4, as the code has it: for coefficients that pass the isNumeric check
    of the validation chain, with a ≠ 0 and Δ = b² − 4ac > 0,
    solveQuadratic returns exactly the two numbers (−b ± √Δ)/2a in
    ascending order (the second is never smaller than the first), with one
    verification entry per root: the residual a·x² + b·x + c, reported as
    exactly 0 when its magnitude is below 1e-10, and the flag isValid,
    which tells whether the magnitude is below 1e-6.  That the residual is
    small is what isValid reports, not something the route guarantees. *)
Theorem solveQuadratic_two_real_roots (a b c : float) :
  isNumeric a = true → isNumeric b = true → isNumeric c = true →
  (a =? 0) = false →
  (0 <? b * b - 4 * a * c) = true →
  let Δ := b * b - 4 * a * c in
  let x1 := (- b + PrimFloat.sqrt Δ) / (2 * a) in
  let x2 := (- b - PrimFloat.sqrt Δ) / (2 * a) in
  ∃ lo hi v_lo v_hi,
    solveQuadratic a b c =
      Ok {| discriminant := Δ;
            solutions := RealRoots [lo; hi];
            type := two_real;
            quadratic_verification := Some [v_lo; v_hi] |} ∧
    ((lo = x1 ∧ hi = x2) ∨ (lo = x2 ∧ hi = x1)) ∧
    (hi <? lo) = false ∧
    checks a b c lo v_lo ∧ checks a b c hi v_hi ∧
    (isValid v_lo = true → (PrimFloat.abs (residual a b c lo) <? 1e-6) = true) ∧
    (isValid v_hi = true → (PrimFloat.abs (residual a b c hi) <? 1e-6) = true).
Proof.
  intros Hna Hnb Hnc Ha HΔ Δ x1 x2. unfold solveQuadratic.
  rewrite (validateQuadratic_passes _ _ _ Hna Ha Hnb Hnc). cbn [negb]. cbv zeta. rewrite HΔ.
  unfold sort. cbn [foldl insertSorted]. unfold ascending.
  change (b * b - 4 * a * c) with Δ.
  change ((- b + PrimFloat.sqrt Δ) / (2 * a)) with x1.
  change ((- b - PrimFloat.sqrt Δ) / (2 * a)) with x2.
  destruct (0 <? x1 - x2) eqn:Hswap.
  - exists x2, x1. do 2 eexists. split; [reflexivity|].
    split; [by right|].
    split; [rewrite <- FloatFacts.sub_sign; by apply sub_positive_antisym|].
    unfold checks. cbn. by repeat split.
  - exists x1, x2. do 2 eexists. split; [reflexivity|].
    split; [by left|].
    split; [by rewrite <- FloatFacts.sub_sign|].
    unfold checks. cbn. by repeat split.
Qed.

Lemma solveQuadratic_two_real_roots_witness :
  ∃ v2 v3,
    solveQuadratic 1 (-5) 6 =
      Ok {| discriminant := 1;
            solutions := RealRoots [2; 3];
            type := two_real;
            quadratic_verification := Some [v2; v3] |} ∧
    checks 1 (-5) 6 2 v2 ∧ checks 1 (-5) 6 3 v3.
Proof.
  destruct (solveQuadratic_two_real_roots 1 (-5) 6 eq_refl eq_refl eq_refl eq_refl eq_refl)
    as (lo & hi & v_lo & v_hi & Hbody & _ & _ & Hlo & Hhi & _).
  exists v_lo, v_hi.
  assert (Hroots : lo = 2 ∧ hi = 3).
  { revert Hbody. vm_compute. intros [= -> -> _ _]. done. }
  destruct Hroots as [-> ->]. done.
Defined.

(** C4 fails as stated: x² + 100000000·x + 1 = 0 has a = 1 and Δ > 0, and
    neither returned root satisfies the equation: the residuals are 1 and
    0.25…, and the route itself flags both roots as not valid. *)
Lemma solveQuadratic_roots_not_verified :
  (1 =? 0) = false ∧
  (0 <? 100000000 * 100000000 - 4 * 1 * 1) = true ∧
  ∃ body v_lo v_hi,
    solveQuadratic 1 100000000 1 = Ok body ∧
    solutions body = RealRoots [-100000000; -7.4505805969238281e-09] ∧
    quadratic_verification body = Some [v_lo; v_hi] ∧
    verification v_lo = 1 ∧ isValid v_lo = false ∧
    verification v_hi = 0.25494194030761719 ∧ isValid v_hi = false.
Proof.
  split; [reflexivity|]. split; [reflexivity|].
  do 3 eexists. split; [vm_compute; reflexivity|].
  cbn. repeat split; reflexivity.
Qed.

(** For coefficients that pass the validation chain, a discriminant of
    exactly 0 yields exactly one root, −b/(2a), with its verification
    entry. *)
Theorem solveQuadratic_one_real_root (a b c : float) :
  isNumeric a = true → isNumeric b = true → isNumeric c = true →
  (a =? 0) = false →
  (0 <? b * b - 4 * a * c) = false →
  (b * b - 4 * a * c =? 0) = true →
  ∃ v, solveQuadratic a b c =
         Ok {| discriminant := b * b - 4 * a * c;
               solutions := RealRoots [- b / (2 * a)];
               type := one_real;
               quadratic_verification := Some [v] |} ∧
       checks a b c (- b / (2 * a)) v.
Proof.
  intros Hna Hnb Hnc Ha Hpos Hzero. unfold solveQuadratic.
  rewrite (validateQuadratic_passes _ _ _ Hna Ha Hnb Hnc). cbn [negb]. cbv zeta.
  rewrite Hpos, Hzero.
  eexists. split; [reflexivity|]. by unfold checks.
Qed.

Lemma solveQuadratic_one_real_root_witness :
  ∃ v, solveQuadratic 1 (-4) 4 =
         Ok {| discriminant := 0;
               solutions := RealRoots [2];
               type := one_real;
               quadratic_verification := Some [v] |} ∧
       verification v = 0 ∧ isValid v = true.
Proof.
  destruct (solveQuadratic_one_real_root 1 (-4) 4 eq_refl eq_refl eq_refl eq_refl eq_refl eq_refl)
    as (v & Hbody & Hx & Hv & Hvalid).
  exists v. split; [exact Hbody|]. rewrite Hv, Hvalid. split; reflexivity.
Defined.

(** For coefficients that pass the validation chain, a discriminant that is
    neither positive nor zero yields a pair of complex roots with the same
    real part −b/(2a) and opposite imaginary parts ±√(−Δ)/(2a), and no
    verification. *)
Theorem solveQuadratic_complex_pair (a b c : float) :
  isNumeric a = true → isNumeric b = true → isNumeric c = true →
  (a =? 0) = false →
  (0 <? b * b - 4 * a * c) = false →
  (b * b - 4 * a * c =? 0) = false →
  let imag := PrimFloat.sqrt (- (b * b - 4 * a * c)) / (2 * a) in
  solveQuadratic a b c =
    Ok {| discriminant := b * b - 4 * a * c;
          solutions := ComplexRoots [(- b / (2 * a), imag); (- b / (2 * a), - imag)];
          type := complex;
          quadratic_verification := None |}.
Proof.
  intros Hna Hnb Hnc Ha Hpos Hzero. unfold solveQuadratic.
  rewrite (validateQuadratic_passes _ _ _ Hna Ha Hnb Hnc). cbn [negb]. cbv zeta.
  by rewrite Hpos, Hzero.
Qed.

Lemma solveQuadratic_complex_pair_witness :
  solveQuadratic 1 2 5 =
    Ok {| discriminant := -16;
          solutions := ComplexRoots [(-1, 2); (-1, -2)];
          type := complex;
          quadratic_verification := None |}.
Proof.
  exact (solveQuadratic_complex_pair 1 2 5 eq_refl eq_refl eq_refl eq_refl eq_refl eq_refl).
Defined.

End SolverFacts.

(** ** Quartiles and outliers *)

Module QuartileFacts.
Import Route Ml.
#[local] Open Scope float_scope.

Lemma floorTimes_lt (n num den : nat) :
  (0 < n)%nat → (num < den)%nat → (floorTimes n num den < n)%nat.
Proof.
  intros Hn Hlt. unfold floorTimes.
  apply Nat.Div0.div_lt_upper_bound. nia.
Qed.

(** C7: for a non-empty sorted array of length n the quartiles are the
    elements at the indices floor(n·0.25), floor(n·0.5) and floor(n·0.75),
    with no interpolation, and the outliers are exactly the elements
    outside [q1 − 1.5·IQR, q3 + 1.5·IQR], where IQR = q3 − q1. *)
Theorem quartiles_index_based (sortedArray : list float) :
  sortedArray ≠ [] →
  let n := length sortedArray in
  ∃ q1 q2 q3,
    sortedArray !! (n / 4)%nat = Some q1 ∧
    sortedArray !! (n / 2)%nat = Some q2 ∧
    sortedArray !! (3 * n / 4)%nat = Some q3 ∧
    calculateQuartiles sortedArray = {| Ml.q1 := Some q1; Ml.q2 := Some q2; Ml.q3 := Some q3 |} ∧
    let iqr := q3 - q1 in
    detectOutliers sortedArray =
      List.filter (fun value => (value <? q1 - 1.5 * iqr) || (q3 + 1.5 * iqr <? value))
                  sortedArray ∧
    ∀ value, value ∈ detectOutliers sortedArray ↔
      value ∈ sortedArray ∧
      ((value <? q1 - 1.5 * iqr) = true ∨ (q3 + 1.5 * iqr <? value) = true).
Proof.
  intros Hne. cbv zeta. set (n := length sortedArray).
  assert (Hn : (0 < n)%nat) by (subst n; destruct sortedArray; [done|cbn; lia]).
  destruct (lookup_lt_is_Some_2 sortedArray (floorTimes n 1 4)) as [v1 H1];
    [by apply floorTimes_lt; lia|].
  destruct (lookup_lt_is_Some_2 sortedArray (floorTimes n 1 2)) as [v2 H2];
    [by apply floorTimes_lt; lia|].
  destruct (lookup_lt_is_Some_2 sortedArray (floorTimes n 3 4)) as [v3 H3];
    [by apply floorTimes_lt; lia|].
  exists v1, v2, v3.
  assert (E1 : floorTimes n 1 4 = (n / 4)%nat) by (unfold floorTimes; f_equal; lia).
  assert (E2 : floorTimes n 1 2 = (n / 2)%nat) by (unfold floorTimes; f_equal; lia).
  assert (E3 : floorTimes n 3 4 = (3 * n / 4)%nat) by (unfold floorTimes; f_equal; lia).
  rewrite <- E1, <- E2, <- E3.
  assert (Hq : calculateQuartiles sortedArray
               = {| Ml.q1 := Some v1; Ml.q2 := Some v2; Ml.q3 := Some v3 |}).
  { unfold calculateQuartiles. fold n. by rewrite H1, H2, H3. }
  assert (Hout : detectOutliers sortedArray =
            List.filter (fun value => (value <? v1 - 1.5 * (v3 - v1))
                                      || (v3 + 1.5 * (v3 - v1) <? value)) sortedArray).
  { unfold detectOutliers. rewrite Hq. reflexivity. }
  split_and!; try done.
  intros value.
  rewrite Hout, list_elem_of_In, filter_In, <- list_elem_of_In, orb_true_iff. tauto.
Qed.

Lemma quartiles_index_based_witness :
  calculateQuartiles [1; 2; 3; 4; 5; 6; 7; 8; 9; 100]
    = {| q1 := Some 3; q2 := Some 6; q3 := Some 8 |} ∧
  detectOutliers [1; 2; 3; 4; 5; 6; 7; 8; 9; 100] = [100].
Proof.
  destruct (quartiles_index_based [1; 2; 3; 4; 5; 6; 7; 8; 9; 100] ltac:(discriminate))
    as (q1 & q2 & q3 & H1 & H2 & H3 & Hq & Hout & _).
  cbn in H1, H2, H3. injection H1 as <-. injection H2 as <-. injection H3 as <-.
  split; [exact Hq|]. rewrite Hout. reflexivity.
Defined.

End QuartileFacts.

(** ** Validation of a sample *)

Module SampleFacts.
Import Route Host Ml.
#[local] Open Scope float_scope.

Lemma validNumber_spec (v : value) :
  validNumber v = true ↔ ∃ x, v = JNumber x ∧ is_nan x = false.
Proof.
  destruct v; cbn; try (split; [discriminate|intros (? & [=] & _)]).
  rewrite negb_true_iff. split; [eauto|intros (? & [= <-] & ?); done].
Qed.

Lemma filter_length_all {A} (p : A → bool) (l : list A) :
  length (List.filter p l) = length l ↔ Forall (fun v => p v = true) l.
Proof.
  induction l as [|v l IH]; cbn; [by split; constructor|].
  pose proof (filter_length_le p l) as Hle.
  destruct (p v) eqn:Hv; cbn.
  - split.
    + intros [= Hlen]. constructor; [done|by apply IH].
    + intros [_ Hall]%Forall_cons. f_equal. by apply IH.
  - split; [lia|]. intros [Hv' _]%Forall_cons. congruence.
Qed.

Lemma filter_all {A} (p : A → bool) (l : list A) :
  Forall (fun v => p v = true) l → List.filter p l = l.
Proof.
  induction 1 as [|v l Hv _ IH]; cbn; [done|]. by rewrite Hv, IH.
Qed.

Lemma numbers_length (values : list value) :
  Forall (fun v => validNumber v = true) values →
  length (numbers values) = length values.
Proof.
  unfold numbers. induction 1 as [|v l Hv _ IH]; cbn; [done|].
  apply validNumber_spec in Hv as (x & -> & _). cbn. by rewrite IH.
Qed.

(** What the two checks at the head of a statistics route decide. *)
Lemma checkValues_accepts (values : list value) :
  values ≠ [] →
  Forall (fun v => validNumber v = true) values →
  checkValues (Some values) = Ok (numbers values) ∧ numbers values ≠ [].
Proof.
  intros Hne Hall. unfold checkValues. destruct values as [|v l]; [done|].
  rewrite (filter_all _ _ Hall).
  rewrite bool_decide_eq_false_2 by (intros H; by apply H).
  split; [done|]. intros Hnil.
  pose proof (numbers_length _ Hall) as Hlen. by rewrite Hnil in Hlen.
Qed.

Lemma checkValues_rejects (values : list value) :
  values ≠ [] →
  Exists (fun v => validNumber v = false) values →
  checkValues (Some values) = Err NotAllNumbers.
Proof.
  intros Hne Hex. unfold checkValues. destruct values as [|v l]; [done|].
  rewrite bool_decide_eq_true_2; [done|].
  intros Hlen%filter_length_all.
  apply Exists_exists in Hex as (w & Hw & Hbad).
  rewrite Forall_forall in Hlen. specialize (Hlen w Hw). congruence.
Qed.

Section library.
Context `{!SimpleStatistics}.

Lemma mean_returns l : l ≠ [] → ∃ v, mean l = Some v.
Proof. intros Hl. destruct (mean l) eqn:E; [eauto|]. by apply mean_throws in E. Qed.
Lemma standardDeviation_returns l : l ≠ [] → ∃ v, standardDeviation l = Some v.
Proof.
  intros Hl. destruct (standardDeviation l) eqn:E; [eauto|].
  by apply standardDeviation_throws in E.
Qed.
Lemma variance_returns l : l ≠ [] → ∃ v, variance l = Some v.
Proof. intros Hl. destruct (variance l) eqn:E; [eauto|]. by apply variance_throws in E. Qed.
Lemma median_returns l : l ≠ [] → ∃ v, median l = Some v.
Proof. intros Hl. destruct (median l) eqn:E; [eauto|]. by apply median_throws in E. Qed.
Lemma mode_returns l : l ≠ [] → ∃ v, mode l = Some v.
Proof. intros Hl. destruct (mode l) eqn:E; [eauto|]. by apply mode_throws in E. Qed.
Lemma min_returns l : l ≠ [] → ∃ v, min l = Some v.
Proof. intros Hl. destruct (min l) eqn:E; [eauto|]. by apply min_throws in E. Qed.
Lemma max_returns l : l ≠ [] → ∃ v, max l = Some v.
Proof. intros Hl. destruct (max l) eqn:E; [eauto|]. by apply max_throws in E. Qed.

Lemma summarize_returns l : l ≠ [] → ∃ s, summarize l = Ok s.
Proof.
  intros Hl. unfold summarize.
  destruct (mean_returns l Hl) as [m ->], (standardDeviation_returns l Hl) as [s ->],
    (min_returns l Hl) as [lo ->], (max_returns l Hl) as [hi ->].
  cbn. eauto.
Qed.
End library.

(** A sample that passes the check gets its statistics from the
    descriptive route, whatever the package returns for them. *)
Lemma describe_accepts `{!JsMath, !SimpleStatistics} (values : list value) :
  values ≠ [] →
  Forall (fun v => validNumber v = true) values →
  ∃ body, describe (Some values) = Ok body ∧
          stat_count (stats body) = length values.
Proof.
  intros Hne Hall. destruct (checkValues_accepts _ Hne Hall) as [Hcheck Hnum].
  pose proof (numbers_length _ Hall) as Hlen.
  unfold describe. rewrite Hcheck. cbn.
  destruct (mean_returns _ Hnum) as [? ->], (median_returns _ Hnum) as [? ->],
    (mode_returns _ Hnum) as [? ->], (min_returns _ Hnum) as [? ->],
    (max_returns _ Hnum) as [? ->], (variance_returns _ Hnum) as [? ->],
    (standardDeviation_returns _ Hnum) as [? ->].
  cbn. eexists. split; [reflexivity|]. cbn. done.
Qed.

(** [/api/stats] on a sample that passes the check: the statistics, or
    status 500 when the sample has more values than a call takes
    arguments. *)
Lemma stats_accepts `{!JsMath, !Engine} (values : list value) :
  values ≠ [] →
  Forall (fun v => validNumber v = true) values →
  if argumentsFit (length values)
  then ∃ st, Server.stats (Some values) = Ok st ∧
             Server.count st = length values ∧
             Server.sum st = foldl (fun acc val => acc + val) 0 (numbers values) ∧
             Server.mean st = Server.sum st / numOfNat (length values) ∧
             Server.max st = Server.Math_max (numbers values)
  else Server.stats (Some values) = Err InternalError.
Proof.
  intros Hne Hall. destruct (checkValues_accepts _ Hne Hall) as [Hcheck Hnum].
  pose proof (numbers_length _ Hall) as Hlen.
  unfold Server.stats, Server.spread. rewrite Hcheck. cbn [mbind response_bind]. cbv zeta.
  rewrite Hlen. destruct (argumentsFit (length values)); [|done].
  cbn [mbind response_bind]. eexists. split; [reflexivity|]. cbn. done.
Qed.

(** C3, as the code has it: describe rejects a non-empty sample, before
    any statistic is computed, exactly when some element is not of type
    number or is NaN; Infinity and -Infinity are numbers that are not NaN,
    so a sample that holds them passes the check and its statistics are
    computed.  Both the route of the machine-learning module and
    /api/stats do so; /api/stats answers 500 instead of the statistics
    when the sample is longer than a call of Math.min can spread. *)
Theorem describe_rejects_what_is_no_number `{!JsMath, !SimpleStatistics, !Engine}
    (values : list value) :
  values ≠ [] →
  (Exists (fun v => validNumber v = false) values →
     describe (Some values) = Err NotAllNumbers ∧
     Server.stats (Some values) = Err NotAllNumbers) ∧
  (Forall (fun v => validNumber v = true) values →
     (∃ body, describe (Some values) = Ok body ∧
              stat_count (stats body) = length values) ∧
     (if argumentsFit (length values)
      then ∃ st, Server.stats (Some values) = Ok st ∧ Server.count st = length values
      else Server.stats (Some values) = Err InternalError)) ∧
  (∀ v, validNumber v = true ↔ ∃ x, v = JNumber x ∧ is_nan x = false) ∧
  validNumber (JNumber infinity) = true ∧
  validNumber (JNumber neg_infinity) = true ∧
  validNumber (JNumber nan) = false.
Proof.
  intros Hne. split_and!; try done; [| |apply validNumber_spec].
  - intros Hex. unfold describe, Server.stats.
    rewrite (checkValues_rejects _ Hne Hex). done.
  - intros Hall. split; [by apply describe_accepts|].
    pose proof (stats_accepts values Hne Hall) as Hstats.
    destruct (argumentsFit (length values)); [|done].
    destruct Hstats as (st & Hst & Hcount & _). eauto.
Qed.

Lemma describe_rejects_what_is_no_number_witness :
  (@describe Reference.math Reference.statistics (Some [JNumber 1; JNull; JNumber 3])
     = Err NotAllNumbers ∧
   @Server.stats Reference.math Reference.engine (Some [JNumber 1; JNull; JNumber 3])
     = Err NotAllNumbers) ∧
  (∃ body, @describe Reference.math Reference.statistics (Some [JNumber 1; JNumber 3]) = Ok body) ∧
  (∃ st, @Server.stats Reference.math Reference.engine (Some [JNumber 1; JNumber 3]) = Ok st).
Proof.
  split.
  - apply (@describe_rejects_what_is_no_number Reference.math Reference.statistics
             Reference.engine [JNumber 1; JNull; JNumber 3]); [discriminate|].
    right. by left.
  - destruct (@describe_rejects_what_is_no_number Reference.math Reference.statistics
                Reference.engine [JNumber 1; JNumber 3]) as (_ & Hok & _); [discriminate|].
    destruct Hok as [(body & Hbody & _) (st & Hst & _)].
    + repeat constructor.
    + eauto.
Defined.

(** C3 fails as stated: the sample [Infinity, 1] is not rejected.  It
    passes the check of both routes; the descriptive route answers with
    its statistics whatever the package computes, and /api/stats, on an
    engine whose calls take two arguments, answers with the sum, the mean
    and the maximum Infinity. *)
Lemma describe_accepts_infinity :
  checkValues (Some [JNumber infinity; JNumber 1]) = Ok [infinity; 1] ∧
  (∀ (M : JsMath) (S : SimpleStatistics),
     ∃ body, describe (Some [JNumber infinity; JNumber 1]) = Ok body ∧
             stat_count (stats body) = 2%nat) ∧
  (∀ (M : JsMath) (E : Engine),
     argumentsFit 2 = true →
     ∃ st, Server.stats (Some [JNumber infinity; JNumber 1]) = Ok st ∧
           Server.count st = 2%nat ∧
           Server.sum st = infinity ∧
           Server.mean st = infinity ∧
           Server.max st = infinity).
Proof.
  split; [reflexivity|]. split.
  - intros M S. apply describe_accepts; [done|]. by repeat constructor.
  - intros M E Hfit.
    pose proof (stats_accepts [JNumber infinity; JNumber 1]) as Hstats.
    cbn [length] in Hstats. rewrite Hfit in Hstats.
    destruct Hstats as (st & Hst & Hcount & Hsum & Hmean & Hmax);
      [done|by repeat constructor|].
    exists st. split; [done|]. split; [done|].
    assert (Hsum' : Server.sum st = infinity) by (rewrite Hsum; reflexivity).
    split; [done|]. split; [rewrite Hmean, Hsum'; reflexivity|].
    rewrite Hmax. reflexivity.
Qed.

End SampleFacts.

(** ** Normalization *)

Module NormalizeFacts.
Import Route Host Ml SampleFacts.
#[local] Open Scope float_scope.

(** The centre and the scale a method uses, read from the parameters the
    route returns. *)
Definition centre (p : parameters) : float :=
  match p with
  | ZScore mean _ => mean
  | MinMax min _ _ => min
  | Robust median _ _ _ => median
  end.

Definition scale (p : parameters) : float :=
  match p with
  | ZScore _ std => std
  | MinMax _ _ range => range
  | Robust _ _ _ iqr => iqr
  end.

(** The parameters are the ones the method asks for. *)
Definition parametersOf `{!SimpleStatistics} (method : string) (xs : list float)
    (p : parameters) : Prop :=
  match p with
  | ZScore m s =>
      method = "zscore" ∧ mean xs = Some m ∧ standardDeviation xs = Some s
  | MinMax lo hi range =>
      method = "minmax" ∧ min xs = Some lo ∧ max xs = Some hi ∧ range = hi - lo
  | Robust med q1 q3 iqr =>
      method = "robust" ∧ median xs = Some med ∧
      q1 = Ml.q1 (calculateQuartiles (sort ascending xs)) ∧
      q3 = Ml.q3 (calculateQuartiles (sort ascending xs)) ∧
      iqr = toNumber q3 - toNumber q1
  end.

(** C2, as the code has it: normalize has no check of the scale.  For
    every non-empty sample of numbers other than NaN and each of the
    methods zscore, minmax and robust it returns the sample with every x
    replaced by (x − centre) / scale, whatever the scale is: when the
    standard deviation, max − min or the IQR is zero the division is
    carried out all the same.  It fails only on a sample that is empty or
    holds something that is not a number, and on an unknown method. *)
Theorem normalize_divides_by_any_scale `{!SimpleStatistics}
    (values : list value) (method : string) :
  values ≠ [] →
  Forall (fun v => validNumber v = true) values →
  method ∈ ["zscore"; "minmax"; "robust"] →
  ∃ body,
    normalize (Some values) (Some method) = Ok body ∧
    parametersOf method (numbers values) (parameters_used body) ∧
    normalized_data body =
      map (fun x => (x - centre (parameters_used body)) / scale (parameters_used body))
          (numbers values).
Proof.
  intros Hne Hall Hm.
  destruct (checkValues_accepts _ Hne Hall) as [Hcheck Hnum].
  unfold normalize. rewrite Hcheck. cbn [mbind response_bind default].
  set (xs := numbers values) in *.
  destruct (summarize_returns xs Hnum) as [orig Horig].
  assert (Hmap : ∀ f : float → float, ∃ norm, summarize (map f xs) = Ok norm).
  { intros f. apply summarize_returns. intros Hnil. apply Hnum. by destruct xs. }
  unfold rescale.
  repeat (apply elem_of_cons in Hm as [->|Hm]); [| | |by apply elem_of_nil in Hm].
  - rewrite bool_decide_eq_true_2 by done.
    destruct (mean_returns xs Hnum) as [m Hmean],
      (standardDeviation_returns xs Hnum) as [s Hstd].
    rewrite Hmean, Hstd. cbn [orThrow mbind response_bind]. rewrite Horig.
    destruct (Hmap (fun x => (x - m) / s)) as [norm ->].
    eexists. split; [reflexivity|]. cbn. done.
  - rewrite bool_decide_eq_false_2, bool_decide_eq_true_2 by done.
    destruct (min_returns xs Hnum) as [lo Hlo], (max_returns xs Hnum) as [hi Hhi].
    rewrite Hlo, Hhi. cbn [orThrow mbind response_bind]. rewrite Horig.
    destruct (Hmap (fun x => (x - lo) / (hi - lo))) as [norm ->].
    eexists. split; [reflexivity|]. cbn. done.
  - rewrite !bool_decide_eq_false_2, bool_decide_eq_true_2 by done.
    destruct (median_returns xs Hnum) as [med Hmed].
    rewrite Hmed. cbn [orThrow mbind response_bind]. rewrite Horig.
    match goal with |- context [summarize (map ?f xs)] =>
      destruct (Hmap f) as [norm ->] end.
    eexists. split; [reflexivity|]. cbn. done.
Qed.

Lemma normalize_divides_by_any_scale_witness :
  ∃ body,
    @normalize Reference.statistics (Some (map JNumber [1; 2; 3; 4; 5])) (Some "minmax")
      = Ok body ∧
    normalized_data body = [0; 0.25; 0.5; 0.75; 1].
Proof.
  destruct (@normalize_divides_by_any_scale Reference.statistics
              (map JNumber [1; 2; 3; 4; 5]) "minmax")
    as (body & Hbody & Hp & Hdata).
  - discriminate.
  - repeat constructor.
  - right. by left.
  - exists body. split; [exact Hbody|].
    rewrite Hdata. clear Hdata.
    destruct (parameters_used body) as [| lo hi range |]; cbn in Hp;
      [by destruct Hp|  |by destruct Hp].
    destruct Hp as (_ & [= <-] & [= <-] & ->). reflexivity.
Defined.

(** C2 fails as stated: with a constant sample the scale of each method
    is zero, and the route answers 200 with a sample of NaN for each
    of them; with an IQR of zero and one value off the median it returns
    Infinity. *)
Lemma normalize_divides_by_zero :
  (∃ body, @normalize Reference.statistics (Some [JNumber 5; JNumber 5]) (Some "zscore")
             = Ok body ∧
           parameters_used body = ZScore 5 0 ∧
           map is_nan (normalized_data body) = [true; true]) ∧
  (∃ body, @normalize Reference.statistics (Some [JNumber 5; JNumber 5]) (Some "minmax")
             = Ok body ∧
           parameters_used body = MinMax 5 5 0 ∧
           map is_nan (normalized_data body) = [true; true]) ∧
  (∃ body, @normalize Reference.statistics
             (Some [JNumber 1; JNumber 1; JNumber 1; JNumber 1; JNumber 7]) (Some "robust")
             = Ok body ∧
           parameters_used body = Robust 1 (Some 1) (Some 1) 0 ∧
           map is_nan (normalized_data body) = [true; true; true; true; false] ∧
           normalized_data body !! 4%nat = Some infinity).
Proof.
  split_and!; eexists; (split; [vm_compute; reflexivity|]); cbn; repeat split; reflexivity.
Qed.

End NormalizeFacts.

(** ** The correlation matrix *)

Module CorrelationFacts.
Import Route Host Ml SampleFacts.
#[local] Open Scope float_scope.

(** [m[a][b]] *)
Definition entry (m : gmap string (gmap string float)) (a b : string) : option float :=
  m !! a ≫= (.!! b).

Lemma entry_empty a b : entry ∅ a b = None.
Proof. unfold entry. by rewrite lookup_empty. Qed.

Lemma entry_setEntry m v1 v2 x a b :
  entry (setEntry m v1 v2 x) a b =
    if decide (a = v1 ∧ b = v2 ∧ v1 ≠ proto ∧ v2 ≠ proto) then Some x else entry m a b.
Proof.
  unfold entry, setEntry, assign.
  destruct (decide (v1 = proto)) as [->|H1].
  { rewrite bool_decide_eq_true_2 by done. by rewrite decide_False by tauto. }
  rewrite bool_decide_eq_false_2 by done.
  destruct (decide (a = v1)) as [->|Ha].
  - rewrite lookup_insert_eq. cbn.
    destruct (decide (v2 = proto)) as [->|H2].
    { rewrite bool_decide_eq_true_2 by done. rewrite decide_False by tauto.
      by destruct (m !! v1). }
    rewrite bool_decide_eq_false_2 by done.
    destruct (decide (b = v2)) as [->|Hb].
    + rewrite lookup_insert_eq. by rewrite decide_True.
    + rewrite lookup_insert_ne by done. rewrite decide_False by tauto.
      by destruct (m !! v1).
  - rewrite lookup_insert_ne by done. by rewrite decide_False by tauto.
Qed.

(** [m[v] = {}] and the entries of the other rows, of the new row, and
    of the name [__proto__], under which [m] has no row. *)
Lemma entry_fresh_row (m : gmap string (gmap string float)) v a b :
  a ≠ v → entry (assign m v ∅) a b = entry m a b.
Proof.
  intros Ha. unfold entry, assign. destruct (bool_decide _); [done|].
  by rewrite lookup_insert_ne.
Qed.

Lemma entry_new_row (m : gmap string (gmap string float)) v b :
  v ≠ proto → entry (assign m v ∅) v b = None.
Proof.
  intros Hv. unfold entry, assign. rewrite bool_decide_eq_false_2 by done.
  by rewrite lookup_insert_eq.
Qed.

Lemma entry_proto_row (m : gmap string (gmap string float)) v b :
  entry (assign m v ∅) proto b = entry m proto b.
Proof.
  destruct (decide (v = proto)) as [->|Hv].
  - unfold assign. by rewrite bool_decide_eq_true_2.
  - by apply entry_fresh_row.
Qed.

Lemma indexed_names {A} (l : list A) : (indexed l).*2 = l.
Proof.
  unfold indexed. rewrite fmap_imap.
  change (imap (λ n : nat, snd ∘ pair n) l) with (imap (const (@id A)) l).
  by rewrite imap_const, list_fmap_id.
Qed.

Lemma elem_of_indexed {A} (l : list A) i x : (i, x) ∈ indexed l ↔ l !! i = Some x.
Proof.
  unfold indexed. rewrite elem_of_lookup_imap. split.
  - by intros (j & y & [= -> ->] & H).
  - eauto.
Qed.

(** The p-value is a constant: the stand-in for the t distribution
    ignores its arguments. *)
Lemma pValue_constant t df : 2 * (1 - tDistribution t df) = 1.
Proof. reflexivity. Qed.

Section loops.
Context `{!JsMath, !SimpleStatistics}.

(** What the inner loop leaves in the objects: the entries of the row
    [var1] under the names it ran over, and nothing else touched. *)
Lemma columns_entries datasets i var1 rest cm pv cm' pv' :
  columns datasets i var1 rest (cm, pv) = Ok (cm', pv') →
  NoDup rest.*2 →
  (∀ a b, a ≠ var1 ∨ b ∉ rest.*2 ∨ var1 = proto ∨ b = proto →
     entry cm' a b = entry cm a b ∧ entry pv' a b = entry pv a b) ∧
  (∀ j var2, (j, var2) ∈ rest → var1 ≠ proto → var2 ≠ proto →
     (j = i → entry cm' var1 var2 = Some 1 ∧ entry pv' var1 var2 = Some 0) ∧
     (j ≠ i → entry pv' var1 var2 = Some 1)).
Proof.
  revert cm pv. induction rest as [|[j var2] rest IH]; intros cm pv Hrun Hnd.
  { injection Hrun as <- <-. split; [done|]. intros ? ? []%elem_of_nil. }
  cbn in Hnd. apply NoDup_cons in Hnd as [Hfresh Hnd].
  cbn [columns] in Hrun.
  assert (Hstep : ∃ x y,
             columns datasets i var1 rest (setEntry cm var1 var2 x, setEntry pv var1 var2 y)
               = Ok (cm', pv') ∧
             (j = i → x = 1 ∧ y = 0) ∧ (j ≠ i → y = 1)).
  { destruct (i =? j)%nat eqn:Hij.
    - apply Nat.eqb_eq in Hij as ->. exists 1, 0. split; [done|]. split; [done|]. done.
    - apply Nat.eqb_neq in Hij.
      destruct (property datasets var1) as [d1|]; [|done].
      destruct (property datasets var2) as [d2|]; [|done].
      cbn [mbind response_bind] in Hrun.
      destruct (calculateCorrelation d1 d2) as [corr|]; [|done].
      cbn [mbind response_bind] in Hrun. rewrite pValue_constant in Hrun.
      exists corr, 1. split; [done|]. split; [intros ->; done|done]. }
  clear Hrun. destruct Hstep as (x & y & Hrun & Hdiag & Hoff).
  destruct (IH _ _ Hrun Hnd) as [Hsame Hset]. split.
  - intros a b Hab.
    assert (Hab' : a ≠ var1 ∨ b ∉ rest.*2 ∨ var1 = proto ∨ b = proto).
    { destruct Hab as [?|[Hb|[?|?]]]; [by left| |by auto..]. right. left. cbn in Hb.
      by apply not_elem_of_cons in Hb as [_ ?]. }
    destruct (Hsame a b Hab') as [-> ->].
    assert (Hne : ¬ (a = var1 ∧ b = var2 ∧ var1 ≠ proto ∧ var2 ≠ proto)).
    { intros (-> & -> & H1 & H2). destruct Hab as [?|[Hb|[?|?]]]; [done| |done..].
      apply Hb. cbn. by left. }
    by rewrite !entry_setEntry, !decide_False by done.
  - intros j' var2' [[= -> ->]|Hin]%elem_of_cons Hp1 Hp2; [|by apply Hset].
    destruct (Hsame var1 var2 (or_intror (or_introl Hfresh))) as [-> ->].
    rewrite !entry_setEntry, !decide_True by done.
    split.
    + intros Hj. destruct (Hdiag Hj) as [-> ->]. done.
    + intros Hj. by rewrite (Hoff Hj).
Qed.

(** What the two loops leave in the objects. *)
Lemma rows_entries datasets variables rest cm pv cm' pv' :
  rows datasets variables rest (cm, pv) = Ok (cm', pv') →
  NoDup rest.*2 →
  NoDup variables →
  (∀ a b, a ∉ rest.*2 ∨ a = proto →
     entry cm' a b = entry cm a b ∧ entry pv' a b = entry pv a b) ∧
  (∀ i var1 j var2, (i, var1) ∈ rest → variables !! j = Some var2 →
     var1 ≠ proto → var2 ≠ proto →
     (j = i → entry cm' var1 var2 = Some 1 ∧ entry pv' var1 var2 = Some 0) ∧
     (j ≠ i → entry pv' var1 var2 = Some 1)) ∧
  (∀ i var1 b, (i, var1) ∈ rest → var1 ≠ proto → b = proto ∨ b ∉ variables →
     entry cm' var1 b = None ∧ entry pv' var1 b = None).
Proof.
  intros Hrun Hnd Hvars. revert cm pv Hrun.
  induction rest as [|[i var1] rest IH]; intros cm pv Hrun.
  { injection Hrun as <- <-. split_and!; [done|intros ? ? ? ? []%elem_of_nil|].
    intros ? ? ? []%elem_of_nil. }
  cbn in Hnd. apply NoDup_cons in Hnd as [Hfresh Hnd].
  cbn [rows] in Hrun.
  destruct (columns datasets i var1 (indexed variables) _) as [[cm1 pv1]|] eqn:Hcols;
    [|done].
  cbn [mbind response_bind] in Hrun.
  apply columns_entries in Hcols as [Hsame1 Hset1]; [|by rewrite indexed_names].
  destruct (IH Hnd _ _ Hrun) as (Hsame & Hset & Hnone). split_and!.
  - intros a b [Ha| ->].
    + cbn in Ha. apply not_elem_of_cons in Ha as [Ha1 Ha].
      destruct (Hsame a b (or_introl Ha)) as [-> ->].
      destruct (Hsame1 a b (or_introl Ha1)) as [-> ->].
      by rewrite !entry_fresh_row.
    + destruct (Hsame proto b (or_intror eq_refl)) as [-> ->].
      assert (Hrow : proto ≠ var1 ∨ b ∉ (indexed variables).*2 ∨ var1 = proto ∨ b = proto).
      { destruct (decide (var1 = proto)); [by auto|]. left. congruence. }
      destruct (Hsame1 proto b Hrow) as [-> ->].
      by rewrite !entry_proto_row.
  - intros i' var1' j var2 [[= -> ->]|Hin]%elem_of_cons Hj Hp1 Hp2; [|by eapply Hset].
    destruct (Hsame var1 var2 (or_introl Hfresh)) as [-> ->].
    apply Hset1; [by apply elem_of_indexed|done|done].
  - intros i' var1' b [[= -> ->]|Hin]%elem_of_cons Hp Hb; [|by eapply Hnone].
    destruct (Hsame var1 b (or_introl Hfresh)) as [-> ->].
    assert (Hcol : var1 ≠ var1 ∨ b ∉ (indexed variables).*2 ∨ var1 = proto ∨ b = proto).
    { rewrite indexed_names. destruct Hb; auto. }
    destruct (Hsame1 var1 b Hcol) as [-> ->].
    by rewrite !entry_new_row.
Qed.

Lemma lookupKey_elem (datasets : list (string * list float)) v :
  v ∈ datasets.*1 → ∃ d, lookupKey datasets v = Some d ∧ d ∈ datasets.*2.
Proof.
  induction datasets as [|[k d] datasets IH]; cbn; [by intros ?%elem_of_nil|].
  intros Hv. destruct (decide (k = v)) as [->|Hk].
  - rewrite bool_decide_eq_true_2 by done. exists d. split; [done|]. by left.
  - rewrite bool_decide_eq_false_2 by done.
    apply elem_of_cons in Hv as [->|Hv]; [done|].
    destruct (IH Hv) as (d' & -> & Hd'). exists d'. split; [done|]. by right.
Qed.

Lemma calculateCorrelation_returns x y :
  x ≠ [] → y ≠ [] → ∃ r, calculateCorrelation x y = Ok r.
Proof.
  intros Hx Hy. unfold calculateCorrelation.
  destruct (mean_returns x Hx) as [mx ->], (mean_returns y Hy) as [my ->].
  cbn [orThrow mbind response_bind]. eauto.
Qed.

(** With samples that are not empty nothing in the loops throws. *)
Lemma columns_returns datasets i var1 rest st :
  Forall (fun d => d ≠ []) datasets.*2 →
  var1 ∈ datasets.*1 →
  Forall (fun v => v ∈ datasets.*1) rest.*2 →
  ∃ st', columns datasets i var1 rest st = Ok st'.
Proof.
  intros Hne Hvar1 Hrest. revert st.
  induction rest as [|[j var2] rest IH]; intros [cm pv]; [by eexists|].
  cbn in Hrest. apply Forall_cons in Hrest as [Hvar2 Hrest].
  cbn [columns]. destruct (i =? j)%nat; [by apply IH|].
  destruct (lookupKey_elem _ _ Hvar1) as (d1 & Hd1 & Hin1).
  destruct (lookupKey_elem _ _ Hvar2) as (d2 & Hd2 & Hin2).
  unfold property. rewrite Hd1, Hd2. cbn [orThrow mbind response_bind].
  rewrite Forall_forall in Hne.
  destruct (calculateCorrelation_returns d1 d2) as [corr ->]; [by apply Hne..|].
  cbn [mbind response_bind]. by apply IH.
Qed.

Lemma rows_returns datasets variables rest st :
  Forall (fun d => d ≠ []) datasets.*2 →
  Forall (fun v => v ∈ datasets.*1) variables →
  Forall (fun v => v ∈ datasets.*1) rest.*2 →
  ∃ st', rows datasets variables rest st = Ok st'.
Proof.
  intros Hne Hvars Hrest. revert st.
  induction rest as [|[i var1] rest IH]; intros [cm pv]; [by eexists|].
  cbn in Hrest. apply Forall_cons in Hrest as [Hvar1 Hrest].
  cbn [rows].
  destruct (columns_returns datasets i var1 (indexed variables)
              (assign cm var1 ∅, assign pv var1 ∅)) as [st1 ->];
    [done|done|by rewrite indexed_names|].
  cbn [mbind response_bind]. by apply IH.
Qed.

(** A valid input: an object (its property names are distinct) of at
    least two samples, all of the length [n]. *)
Definition validInput (datasets : list (string * list float)) (n : nat) : Prop :=
  NoDup datasets.*1 ∧ (2 ≤ length datasets)%nat ∧
  Forall (fun d => length d = n) datasets.*2.

(** A valid input passes the checks of the route, which then runs the
    two loops. *)
Lemma correlation_runs datasets method n :
  validInput datasets n →
  correlation (Some datasets) method =
    '(correlationMatrix, pValues) ←
      rows datasets datasets.*1 (indexed datasets.*1) (∅, ∅);
    Ok {| correlation_matrix := correlationMatrix;
          p_values := pValues;
          method_name := default "pearson" method;
          variables := datasets.*1;
          sample_size := Some n;
          interpretations := interpretCorrelations (keys datasets.*1) correlationMatrix |}.
Proof.
  intros (Hnd & Hlen & Hall). unfold correlation.
  rewrite length_fmap.
  destruct (length datasets <? 2)%nat eqn:Hlt; [apply Nat.ltb_lt in Hlt; lia|].
  set (lengths := map _ datasets.*1).
  assert (Hlengths : Forall (fun l => l = n) lengths).
  { subst lengths. apply Forall_forall. intros l (v & -> & Hv)%list_elem_of_fmap.
    destruct (lookupKey_elem _ _ Hv) as (d & -> & Hd). cbn.
    rewrite Forall_forall in Hall. by apply Hall. }
  assert (Hfirst : lengths !! 0%nat = Some n).
  { subst lengths. destruct datasets as [|[k d] datasets]; [cbn in Hlen; lia|].
    cbn. rewrite bool_decide_eq_true_2 by done. cbn.
    cbn in Hall. apply Forall_cons in Hall as [Hd _]. by rewrite Hd. }
  rewrite Hfirst.
  assert (Hevery : forallb (fun l => bool_decide (Some l = Some n)) lengths = true).
  { apply forallb_forall. intros l Hl%list_elem_of_In.
    rewrite Forall_forall in Hlengths. rewrite (Hlengths l Hl).
    by apply bool_decide_eq_true_2. }
  rewrite Hevery. reflexivity.
Qed.

Lemma correlation_returns datasets method n :
  validInput datasets n → (0 < n)%nat →
  ∃ body, correlation (Some datasets) method = Ok body.
Proof.
  intros Hvalid Hn. rewrite (correlation_runs _ _ _ Hvalid).
  destruct Hvalid as (_ & _ & Hall).
  destruct (rows_returns datasets datasets.*1 (indexed datasets.*1) (∅, ∅))
    as [[cm pv] ->].
  - eapply Forall_impl; [exact Hall|]. cbn. intros d Hd ->. cbn in Hd. lia.
  - by apply Forall_forall.
  - rewrite indexed_names. by apply Forall_forall.
  - cbn. eauto.
Qed.

(** The entries of the two objects of a response. *)
Lemma correlation_entries datasets method n body :
  validInput datasets n →
  correlation (Some datasets) method = Ok body →
  ∀ i var1 j var2,
    datasets.*1 !! i = Some var1 → datasets.*1 !! j = Some var2 →
    var1 ≠ proto → var2 ≠ proto →
    (j = i → entry (correlation_matrix body) var1 var2 = Some 1 ∧
             entry (p_values body) var1 var2 = Some 0) ∧
    (j ≠ i → entry (p_values body) var1 var2 = Some 1).
Proof.
  intros Hvalid Hbody i var1 j var2 Hi Hj Hp1 Hp2.
  rewrite (correlation_runs _ _ _ Hvalid) in Hbody.
  destruct Hvalid as (Hnd & _ & _).
  destruct (rows _ _ _ _) as [[cm pv]|] eqn:Hrows; [|done].
  cbn in Hbody. injection Hbody as <-. cbn.
  apply rows_entries in Hrows as (_ & Hset & _); [|by rewrite indexed_names|done].
  eapply Hset; [|done..]. by apply elem_of_indexed.
Qed.

(** The two objects have no other entries: none outside the variables,
    and none under the name [__proto__]. *)
Lemma correlation_absent datasets method n body :
  validInput datasets n →
  correlation (Some datasets) method = Ok body →
  ∀ a b, a ∉ datasets.*1 ∨ b ∉ datasets.*1 ∨ a = proto ∨ b = proto →
    entry (correlation_matrix body) a b = None ∧ entry (p_values body) a b = None.
Proof.
  intros Hvalid Hbody a b Hab.
  rewrite (correlation_runs _ _ _ Hvalid) in Hbody.
  destruct Hvalid as (Hnd & _ & _).
  destruct (rows _ _ _ _) as [[cm pv]|] eqn:Hrows; [|done].
  cbn in Hbody. injection Hbody as <-. cbn.
  apply rows_entries in Hrows as (Hsame & _ & Hnone); [|by rewrite indexed_names|done].
  rewrite indexed_names in Hsame.
  destruct (decide (a = proto)) as [->|Hp].
  { destruct (Hsame proto b (or_intror eq_refl)) as [-> ->]. by rewrite !entry_empty. }
  destruct (decide (a ∈ datasets.*1)) as [[i Hi]%list_elem_of_lookup|Ha].
  - apply (Hnone i); [by apply elem_of_indexed|done|].
    destruct Hab as [Ha|[?|[?|?]]]; [|by right|done|by left].
    exfalso. apply Ha. by eapply list_elem_of_lookup_2.
  - destruct (Hsame a b (or_introl Ha)) as [-> ->]. by rewrite !entry_empty.
Qed.

(** C9: for every valid input (at least two variables, samples of equal
    length) every diagonal entry of the returned correlation matrix is
    exactly 1.0: it is assigned, not computed from the data.  Every
    variable has its diagonal entry, except one named [__proto__], for
    which the matrix has no entry at all.  (The route returns a matrix
    whenever the samples are not empty; with empty samples the mean throws
    and the route answers 500.) *)
Theorem correlation_diagonal_is_one datasets method n :
  validInput datasets n →
  ((0 < n)%nat → ∃ body, correlation (Some datasets) method = Ok body) ∧
  ∀ body, correlation (Some datasets) method = Ok body →
    (∀ v x, entry (correlation_matrix body) v v = Some x → x = 1) ∧
    (∀ v, v ∈ datasets.*1 → v ≠ proto → entry (correlation_matrix body) v v = Some 1).
Proof.
  intros Hvalid. split; [by apply correlation_returns|].
  intros body Hbody.
  assert (Hdiag : ∀ v, v ∈ datasets.*1 → v ≠ proto →
                    entry (correlation_matrix body) v v = Some 1).
  { intros v [i Hi]%list_elem_of_lookup Hp.
    by apply (correlation_entries _ _ _ _ Hvalid Hbody i v i v Hi Hi Hp Hp). }
  split; [|done]. intros v x Hx.
  destruct (decide (v ∈ datasets.*1)) as [Hv|Hv]; cycle 1.
  { destruct (correlation_absent _ _ _ _ Hvalid Hbody v v (or_introl Hv)); congruence. }
  destruct (decide (v = proto)) as [->|Hp].
  { destruct (correlation_absent _ _ _ _ Hvalid Hbody proto proto); [by auto|congruence]. }
  rewrite (Hdiag v Hv Hp) in Hx. by injection Hx.
Qed.

(** C10: for every valid input every off-diagonal p-value of the
    response is exactly 1.0 and every diagonal p-value is exactly 0.0,
    whatever the data and the t statistic: the t distribution the route
    uses is the constant 0.5.  Every pair of variables has its p-value,
    except the pairs with a variable named [__proto__], for which the
    object has no entry. *)
Theorem correlation_p_values_constant datasets method n :
  validInput datasets n →
  ((0 < n)%nat → ∃ body, correlation (Some datasets) method = Ok body) ∧
  ∀ body, correlation (Some datasets) method = Ok body →
    (∀ var1 var2 p, entry (p_values body) var1 var2 = Some p →
       p = if decide (var1 = var2) then 0 else 1) ∧
    (∀ var1 var2, var1 ∈ datasets.*1 → var2 ∈ datasets.*1 →
       var1 ≠ proto → var2 ≠ proto →
       entry (p_values body) var1 var2 = Some (if decide (var1 = var2) then 0 else 1)).
Proof.
  intros Hvalid. split; [by apply correlation_returns|].
  intros body Hbody.
  assert (Hp : ∀ var1 var2, var1 ∈ datasets.*1 → var2 ∈ datasets.*1 →
                 var1 ≠ proto → var2 ≠ proto →
                 entry (p_values body) var1 var2
                   = Some (if decide (var1 = var2) then 0 else 1)).
  { intros var1 var2 [i Hi]%list_elem_of_lookup [j Hj]%list_elem_of_lookup Hp1 Hp2.
    destruct (correlation_entries _ _ _ _ Hvalid Hbody i var1 j var2 Hi Hj Hp1 Hp2)
      as [Hdiag Hoff].
    destruct (decide (var1 = var2)) as [->|Hne].
    - destruct Hvalid as (Hnd & _ & _).
      pose proof (NoDup_lookup _ _ _ _ Hnd Hi Hj) as ->. by apply Hdiag.
    - apply Hoff. intros ->. congruence. }
  split; [|done]. intros var1 var2 p Hentry.
  destruct (decide (var1 ∈ datasets.*1 ∧ var2 ∈ datasets.*1 ∧ var1 ≠ proto ∧ var2 ≠ proto))
    as [(H1 & H2 & Hp1 & Hp2)|Hout].
  - rewrite (Hp var1 var2 H1 H2 Hp1 Hp2) in Hentry. by injection Hentry.
  - destruct (correlation_absent _ _ _ _ Hvalid Hbody var1 var2); [|congruence].
    destruct (decide (var1 ∈ datasets.*1)); [|by auto].
    destruct (decide (var2 ∈ datasets.*1)); [|by auto].
    destruct (decide (var1 = proto)); [by auto|].
    destruct (decide (var2 = proto)); [by auto|]. tauto.
Qed.

End loops.

(** The example of the route's documentation. *)
Definition heightWeight : list (string * list float) :=
  [("height", [170; 175; 180; 165; 185]); ("weight", [65; 70; 80; 60; 85])].

Lemma heightWeight_valid : validInput heightWeight 5.
Proof.
  split_and!.
  - cbn. apply NoDup_cons. split; [|apply NoDup_singleton].
    intros [=]%list_elem_of_singleton.
  - cbn. lia.
  - repeat constructor.
Defined.

Lemma correlation_diagonal_is_one_witness :
  ∃ body,
    @correlation Reference.math Reference.statistics (Some heightWeight) None = Ok body ∧
    entry (correlation_matrix body) "height" "height" = Some 1 ∧
    entry (correlation_matrix body) "weight" "weight" = Some 1.
Proof.
  destruct (@correlation_diagonal_is_one Reference.math Reference.statistics
              heightWeight None 5 heightWeight_valid) as [Hreturns Hdiag].
  destruct Hreturns as [body Hbody]; [lia|].
  exists body. split; [exact Hbody|].
  split; apply (Hdiag body Hbody); cbn; first [done|by left|right; by left].
Defined.

Lemma correlation_p_values_constant_witness :
  ∃ body,
    @correlation Reference.math Reference.statistics (Some heightWeight) None = Ok body ∧
    entry (p_values body) "height" "height" = Some 0 ∧
    entry (p_values body) "height" "weight" = Some 1 ∧
    entry (p_values body) "weight" "height" = Some 1.
Proof.
  destruct (@correlation_p_values_constant Reference.math Reference.statistics
              heightWeight None 5 heightWeight_valid) as [Hreturns Hp].
  destruct Hreturns as [body Hbody]; [lia|].
  exists body. split; [exact Hbody|].
  split_and!; apply (Hp body Hbody); cbn; first [done|by left|right; by left].
Defined.

(** A variable named [__proto__]: the response lists it among the
    variables, and has no row, no column, no p-value and no interpretation
    for it. *)
Definition protoSamples : list (string * list float) :=
  [("__proto__", [1; 2; 3]); ("a", [2; 4; 7])].

Example correlation_proto_variable :
  ∃ body,
    @correlation Reference.math Reference.statistics (Some protoSamples) None = Ok body ∧
    variables body = ["__proto__"; "a"] ∧
    correlation_matrix body = {[ "a" := {[ "a" := 1 ]} ]} ∧
    p_values body = {[ "a" := {[ "a" := 0 ]} ]} ∧
    interpretations body = ∅.
Proof.
  eexists. split; [vm_compute; reflexivity|]. split_and!; vm_compute; reflexivity.
Qed.

End CorrelationFacts.

(** ** The regular-expression engine *)

Module RegexFacts.
Import Js Regex.

(** What it means for a pattern to match a word, with the captures before
    and after: the declarative reading of a pattern. *)
Inductive matches : regex → jsstring → captures → captures → Prop :=
| matches_Chr c caps : matches (Chr c) [c] caps caps
| matches_Cls (p : N → bool) c caps : p c = true → matches (Cls p) [c] caps caps
| matches_Cat r1 r2 w1 w2 caps caps1 caps2 :
    matches r1 w1 caps caps1 → matches r2 w2 caps1 caps2 →
    matches (Cat r1 r2) (w1 ++ w2) caps caps2
| matches_Opt_skip r caps : matches (Opt r) [] caps caps
| matches_Opt_take r w caps caps1 :
    matches r w caps caps1 → matches (Opt r) w caps caps1
| matches_Star_stop r caps : matches (Star r) [] caps caps
| matches_Star_more r w1 w2 caps caps1 caps2 :
    matches r w1 caps caps1 → matches (Star r) w2 caps1 caps2 →
    matches (Star r) (w1 ++ w2) caps caps2
| matches_Plus r w1 w2 caps caps1 caps2 :
    matches r w1 caps caps1 → matches (Star r) w2 caps1 caps2 →
    matches (Plus r) (w1 ++ w2) caps caps2
| matches_Grp i r w caps caps1 :
    matches r w caps caps1 → matches (Grp i r) w caps (<[i := w]> caps1).

#[local] Hint Constructors matches : core.

(** An outcome of the engine is a match of a prefix of the input. *)
Definition sound (step : jsstring → captures → outcomes)
    (P : jsstring → captures → captures → Prop) : Prop :=
  ∀ s caps s' caps', In (s', caps') (step s caps) → ∃ w, s = w ++ s' ∧ P w caps caps'.

Lemma iterate_sound r fuel :
  sound (run r) (matches r) → sound (iterate (run r) fuel) (matches (Star r)).
Proof.
  intros Hstep. induction fuel as [|fuel IH]; intros s caps s' caps' Hin.
  - destruct Hin as [[= <- <-]|[]]. exists []. auto.
  - cbn [iterate] in Hin. apply in_app_or in Hin as [Hin|[[= <- <-]|[]]].
    + apply in_flat_map in Hin as ([s1 caps1] & Hin1 & Hin).
      destruct (length s1 <? length s)%nat; [|destruct Hin].
      apply Hstep in Hin1 as (w1 & -> & Hw1).
      apply IH in Hin as (w2 & -> & Hw2).
      exists (w1 ++ w2). rewrite <- app_assoc. eauto.
    + exists []. auto.
Qed.

Lemma run_sound r : sound (run r) (matches r).
Proof.
  induction r as [c|p|r1 IH1 r2 IH2|r IH|r IH|r IH|i r IH];
    intros s caps s' caps' Hin; cbn [run] in Hin.
  - destruct s as [|x s]; [destruct Hin|].
    destruct (N.eqb_spec x c) as [->|]; [|destruct Hin].
    destruct Hin as [[= <- <-]|[]]. exists [c]. auto.
  - destruct s as [|x s]; [destruct Hin|].
    destruct (p x) eqn:Hp; [|destruct Hin].
    destruct Hin as [[= <- <-]|[]]. exists [x]. auto.
  - apply in_flat_map in Hin as ([s1 caps1] & Hin1 & Hin).
    apply IH1 in Hin1 as (w1 & -> & Hw1). apply IH2 in Hin as (w2 & -> & Hw2).
    exists (w1 ++ w2). rewrite <- app_assoc. eauto.
  - apply in_app_or in Hin as [Hin|[[= <- <-]|[]]].
    + apply IH in Hin as (w & -> & Hw). eauto.
    + exists []. auto.
  - by apply (iterate_sound r _ IH) in Hin.
  - apply in_flat_map in Hin as ([s1 caps1] & Hin1 & Hin).
    apply IH in Hin1 as (w1 & -> & Hw1).
    apply (iterate_sound r _ IH) in Hin as (w2 & -> & Hw2).
    exists (w1 ++ w2). rewrite <- app_assoc. eauto.
  - apply in_map_iff in Hin as ([s1 caps1] & [= <- <-] & Hin).
    apply IH in Hin as (w & -> & Hw). exists w. split; [done|].
    rewrite length_app, Nat.add_sub, take_app_length. auto.
Qed.

(** A successful [exec] found a match somewhere in the input. *)
Lemma exec_sound r s caps :
  exec r s = Some caps → ∃ pre w post, s = pre ++ w ++ post ∧ matches r w ∅ caps.
Proof.
  induction s as [|x s IH]; cbn [exec].
  - destruct (run r [] ∅) as [|[s' caps'] more] eqn:Hrun; [done|].
    intros [= <-]. destruct (run_sound r [] ∅ s' caps') as (w & Hw & Hm).
    { rewrite Hrun. by left. }
    exists [], w, s'. eauto.
  - destruct (run r (x :: s) ∅) as [|[s' caps'] more] eqn:Hrun.
    + intros (pre & w & post & -> & Hm)%IH. exists (x :: pre), w, post. eauto.
    + intros [= <-]. destruct (run_sound r (x :: s) ∅ s' caps') as (w & Hw & Hm).
      { rewrite Hrun. by left. }
      exists [], w, s'. eauto.
Qed.

End RegexFacts.


(** ** Reading and writing integers *)

Module NumberFacts.
Import Js.

Lemma isDigit_range c : isDigit c = true ↔ (48 ≤ c ≤ 57)%N.
Proof.
  unfold isDigit, in_range. rewrite andb_true_iff, !N.leb_le. done.
Qed.

(** Decides the tests on one character, given bounds on it. *)
Ltac unit_tests :=
  unfold isWhiteSpace, isDigit, in_range, lowerUnit, digitValue, in_range;
  repeat (cbn [andb orb negb];
          match goal with
          | |- context [(?a =? ?b)%N] => destruct (N.eqb_spec a b); try lia
          | |- context [(?a <=? ?b)%N] => destruct (N.leb_spec a b); try lia
          | |- context [(?a <? ?b)%N] => destruct (N.ltb_spec a b); try lia
          end);
  try reflexivity.

Lemma digit_not_white c : isDigit c = true → isWhiteSpace c = false.
Proof. intros Hc%isDigit_range. unit_tests. Qed.

Lemma digit_lower c : isDigit c = true → lowerUnit c = c.
Proof. intros Hc%isDigit_range. unit_tests. Qed.

Lemma digit_value c : isDigit c = true → digitValue 10 c = Some (c - 48)%N.
Proof. intros Hc%isDigit_range. unit_tests. Qed.

(** The number a string of digits denotes, in positional notation. *)
Fixpoint decimal (ds : jsstring) : N :=
  match ds with
  | [] => 0
  | c :: ds' => (c - 48) * 10 ^ N.of_nat (length ds') + decimal ds'
  end.

Lemma readDigits_decimal ds acc :
  Forall (fun c => isDigit c = true) ds →
  readDigits 10 (Some acc) ds = Some (acc * 10 ^ N.of_nat (length ds) + decimal ds)%N.
Proof.
  intros Hds. revert acc. induction Hds as [|c ds Hc _ IH]; intros acc; cbn [readDigits].
  - cbn. f_equal. lia.
  - rewrite (digit_value c Hc). cbn [default]. rewrite IH. f_equal.
    cbn [decimal length]. rewrite Nat2N.inj_succ, N.pow_succ_r'. unfold id. ring.
Qed.

Lemma readDigits_all ds :
  ds ≠ [] → Forall (fun c => isDigit c = true) ds →
  readDigits 10 None ds = Some (decimal ds).
Proof.
  destruct ds as [|c ds]; [done|]. intros _ [Hc Hds]%Forall_cons.
  cbn [readDigits]. rewrite (digit_value c Hc). cbn [default].
  rewrite (readDigits_decimal ds _ Hds). cbn [decimal]. f_equal.
Qed.

(** The decimal digits [Number::toString] writes denote the number. *)
Lemma uint_units_digits d : Forall (fun c => isDigit c = true) (uint_units d).
Proof. induction d; cbn; constructor; auto. Qed.

Lemma uint_units_nonempty d : d ≠ Decimal.Nil → uint_units d ≠ [].
Proof. by destruct d. Qed.

Lemma decimal_uint_acc d (p : positive) :
  (N.pos p * 10 ^ N.of_nat (length (uint_units d)) + decimal (uint_units d))%N
  = N.pos (Pos.of_uint_acc d p).
Proof.
  revert p. induction d; intros p; cbn [uint_units decimal length Pos.of_uint_acc];
    [cbn; lia|..];
    rewrite <- IHd, Nat2N.inj_succ, N.pow_succ_r'; set (P := (10 ^ _)%N); lia.
Qed.

Lemma decimal_uint d : decimal (uint_units d) = N.of_uint d.
Proof.
  unfold N.of_uint.
  induction d; cbn [uint_units decimal length Pos.of_uint]; [done|..];
    try (rewrite <- decimal_uint_acc; lia).
  rewrite IHd. lia.
Qed.

Lemma digits_are_digits n : Forall (fun c => isDigit c = true) (digits n).
Proof. apply uint_units_digits. Qed.

Lemma digits_nonempty n : digits n ≠ [].
Proof.
  unfold digits. apply uint_units_nonempty. destruct n as [|p]; [done|].
  cbn. unfold Pos.to_uint. intros H.
  pose proof (DecimalPos.Unsigned.of_to p) as Hp. unfold Pos.to_uint in Hp.
  rewrite H in Hp. done.
Qed.

Lemma decimal_digits n : decimal (digits n) = n.
Proof. unfold digits. rewrite decimal_uint. apply DecimalN.Unsigned.of_to. Qed.

End NumberFacts.

(** ** The coefficient-extraction rule *)

Module ExtractionFacts.
Import Js Regex Equations RegexFacts NumberFacts.

Definition plus : N := 43%N.
Definition minus : N := 45%N.
Definition isSign (c : N) : bool := (c =? 43)%N || (c =? 45)%N.

(** The words of the capturing groups: an optional sign and digits. *)
Definition coefficientToken (t : jsstring) : Prop :=
  ∃ sg ds, t = sg ++ ds ∧ (sg = [] ∨ sg = [plus] ∨ sg = [minus]) ∧
           Forall (fun c => isDigit c = true) ds.

(** The rule, as the specification words it: a bare sign or an absent token
    is 1, a bare minus is −1, any other token is its integer value. *)
Definition integerValue (t : jsstring) : Z :=
  match t with
  | c :: ds =>
      if (c =? minus)%N then - Z.of_N (decimal ds)
      else if (c =? plus)%N then Z.of_N (decimal ds)
      else Z.of_N (decimal t)
  | [] => 0
  end.

Definition extractionRule (token : option jsstring) : Z :=
  match token with
  | None => 1
  | Some t =>
      if bool_decide (t = [] ∨ t = [plus]) then 1
      else if bool_decide (t = [minus]) then -1
      else integerValue t
  end.

Lemma parseInt_digits ds :
  ds ≠ [] → Forall (fun c => isDigit c = true) ds →
  parseInt ds = Int (Z.of_N (decimal ds)).
Proof.
  intros Hne Hds. pose proof (readDigits_all ds Hne Hds) as Hread.
  destruct ds as [|c ds]; [done|]. apply Forall_cons in Hds as [Hc Hds].
  pose proof (proj1 (isDigit_range c) Hc) as Hrange.
  unfold parseInt. cbn [skipWhiteSpace]. rewrite (digit_not_white c Hc). cbn [head tail].
  rewrite !bool_decide_eq_false_2 by (intros H; repeat destruct H as [H|H]; injection H; lia).
  assert (Hhex : match c :: ds with
                 | c0 :: c1 :: _ => (c0 =? 48)%N && ((c1 =? 120)%N || (c1 =? 88)%N)
                 | _ => false
                 end = false).
  { destruct ds as [|c1 ds]; [done|]. apply Forall_cons in Hds as [Hc1%isDigit_range _].
    apply andb_false_iff. right. apply orb_false_iff. split; apply N.eqb_neq; lia. }
  rewrite Hhex, Hread. f_equal. lia.
Qed.

Lemma parseInt_signed (sg : N) ds :
  isSign sg = true → ds ≠ [] → Forall (fun c => isDigit c = true) ds →
  parseInt (sg :: ds) = Int ((if (sg =? minus)%N then -1 else 1) * Z.of_N (decimal ds)).
Proof.
  intros Hsg Hne Hds. pose proof (readDigits_all ds Hne Hds) as Hread.
  assert (Hcases : sg = plus ∨ sg = minus).
  { unfold isSign in Hsg. apply orb_true_iff in Hsg as [?%N.eqb_eq|?%N.eqb_eq]; auto. }
  unfold parseInt.
  assert (Hskip : skipWhiteSpace (sg :: ds) = sg :: ds) by (destruct Hcases as [-> | ->]; done).
  rewrite Hskip. cbn [head tail].
  rewrite (bool_decide_eq_true_2 (Some sg = Some 45%N ∨ Some sg = Some 43%N))
    by (destruct Hcases as [-> | ->]; auto).
  assert (Hhex : match ds with
                 | c0 :: c1 :: _ => (c0 =? 48)%N && ((c1 =? 120)%N || (c1 =? 88)%N)
                 | _ => false
                 end = false).
  { destruct ds as [|c0 [|c1 ds]]; [done..|].
    apply Forall_cons in Hds as [_ [Hc1%isDigit_range _]%Forall_cons].
    apply andb_false_iff. right. apply orb_false_iff. split; apply N.eqb_neq; lia. }
  rewrite Hhex, Hread. destruct Hcases as [-> | ->]; done.
Qed.

(** [parseCoeff] computes the rule on every token a group can capture. *)
Lemma parseCoeff_rule t :
  coefficientToken t → parseCoeff (Some t) = Int (extractionRule (Some t)).
Proof.
  intros (sg & ds & -> & Hsg & Hds). unfold parseCoeff, extractionRule, jsstring.
  destruct ds as [|c ds].
  { destruct Hsg as [->|[->| ->]]; done. }
  pose proof (Hds' := Hds). apply Forall_cons in Hds' as [Hc%isDigit_range _].
  assert (Hfalsy : falsy (Some (sg ++ c :: ds)) = false).
  { destruct Hsg as [->|[->| ->]]; done. }
  rewrite Hfalsy. cbn [orb].
  rewrite !bool_decide_eq_false_2; cycle 1.
  { destruct Hsg as [->|[->| ->]]; cbn; try done. intros [=]. unfold minus in *. lia. }
  { destruct Hsg as [->|[->| ->]]; cbn; intros [[=]|[=]]. unfold plus in *. lia. }
  { destruct Hsg as [->|[->| ->]]; cbn; try done. intros [=]. unfold minus in *. lia. }
  { destruct Hsg as [->|[->| ->]]; cbn; try done. intros [=]. unfold plus in *. lia. }
  cbn [default from_option id]. unfold integerValue.
  destruct Hsg as [->|[->| ->]]; cbn [app].
  - rewrite parseInt_digits by done.
    rewrite !(proj2 (N.eqb_neq _ _)) by (unfold plus, minus; lia). done.
  - rewrite parseInt_signed by done. cbn. f_equal. lia.
  - rewrite parseInt_signed by done. cbn. f_equal.
Qed.

Lemma parseCoeff_absent : parseCoeff None = Int (extractionRule None).
Proof. reflexivity. Qed.

(** *** What a match of one of the five patterns captures *)

Lemma matches_Chr_inv c w caps caps' :
  matches (Chr c) w caps caps' → w = [c] ∧ caps' = caps.
Proof. by inversion 1. Qed.

Lemma matches_Cls_inv p w caps caps' :
  matches (Cls p) w caps caps' → caps' = caps ∧ ∃ c, w = [c] ∧ p c = true.
Proof. inversion 1; subst. eauto. Qed.

Lemma matches_Cat_inv r1 r2 w caps caps' :
  matches (Cat r1 r2) w caps caps' →
  ∃ w1 w2 caps1, w = w1 ++ w2 ∧ matches r1 w1 caps caps1 ∧ matches r2 w2 caps1 caps'.
Proof. inversion 1; subst. eauto 10. Qed.

Lemma matches_Grp_inv i r w caps caps' :
  matches (Grp i r) w caps caps' →
  ∃ caps1, caps' = <[i := w]> caps1 ∧ matches r w caps caps1.
Proof. inversion 1; subst. eauto. Qed.

Lemma matches_Opt_inv r w caps caps' :
  matches (Opt r) w caps caps' → (w = [] ∧ caps' = caps) ∨ matches r w caps caps'.
Proof. inversion 1; subst; auto. Qed.

Lemma matches_Star_Cls p w caps caps' :
  matches (Star (Cls p)) w caps caps' →
  caps' = caps ∧ Forall (fun c => p c = true) w.
Proof.
  intros H. remember (Star (Cls p)) as r eqn:Hr.
  induction H as [| | | | | |r w1 w2 caps caps1 caps2 H1 _ _ IH| |]; try discriminate.
  - done.
  - injection Hr as ->. apply matches_Cls_inv in H1 as (-> & c & -> & Hc).
    destruct (IH eq_refl) as [-> Hall]. split; [done|]. by constructor.
Qed.

Lemma matches_Plus_Cls p w caps caps' :
  matches (Plus (Cls p)) w caps caps' →
  caps' = caps ∧ w ≠ [] ∧ Forall (fun c => p c = true) w.
Proof.
  inversion 1 as [| | | | | | |r w1 w2 c0 c1 c2 H1 H2|]; subst.
  apply matches_Cls_inv in H1 as (-> & c & -> & Hc).
  apply matches_Star_Cls in H2 as (-> & Hall). split_and!; [done|done|by constructor].
Qed.

(** A sign and digits: the words of the second and the third group. *)
Definition signedToken (t : jsstring) : Prop :=
  ∃ sg ds, t = sg :: ds ∧ isSign sg = true ∧ Forall (fun c => isDigit c = true) ds.

Lemma signedToken_coefficientToken t : signedToken t → coefficientToken t.
Proof.
  intros (sg & ds & -> & Hsg & Hds). exists [sg], ds. split; [done|]. split; [|done].
  unfold isSign in Hsg. apply orb_true_iff in Hsg as [->%N.eqb_eq| ->%N.eqb_eq]; auto.
Qed.

Lemma signedToken_truthy t : signedToken t → falsy (Some t) = false.
Proof. by intros (sg & ds & -> & _). Qed.

Lemma matches_coeff1 w caps caps' :
  matches coeff1 w caps caps' → caps' = <[1%nat := w]> caps ∧ coefficientToken w.
Proof.
  intros (caps1 & -> & H)%matches_Grp_inv.
  apply matches_Cat_inv in H as (w1 & w2 & caps2 & -> & Hsign & Hdigits).
  apply matches_Star_Cls in Hdigits as [-> Hdigits].
  apply matches_Opt_inv in Hsign as [[-> ->]|Hsign].
  - split; [done|]. exists [], w2. auto.
  - apply matches_Cls_inv in Hsign as (-> & c & -> & Hc). split; [done|].
    exists [c], w2. split; [done|]. split; [|done].
    apply orb_true_iff in Hc as [->%N.eqb_eq| ->%N.eqb_eq]; auto.
Qed.

Lemma matches_coeff2 w caps caps' :
  matches coeff2 w caps caps' → caps' = <[2%nat := w]> caps ∧ signedToken w.
Proof.
  intros (caps1 & -> & H)%matches_Grp_inv.
  apply matches_Cat_inv in H as (w1 & w2 & caps2 & -> & Hsign & Hdigits).
  apply matches_Star_Cls in Hdigits as [-> Hdigits].
  apply matches_Cls_inv in Hsign as (-> & c & -> & Hc). split; [done|].
  by exists c, w2.
Qed.

Lemma matches_const i w caps caps' :
  matches (const i) w caps caps' → caps' = <[i := w]> caps ∧ signedToken w.
Proof.
  intros (caps1 & -> & H)%matches_Grp_inv.
  apply matches_Cat_inv in H as (w1 & w2 & caps2 & -> & Hsign & Hdigits).
  apply matches_Plus_Cls in Hdigits as (-> & _ & Hdigits).
  apply matches_Cls_inv in Hsign as (-> & c & -> & Hc). split; [done|].
  by exists c, w2.
Qed.

Lemma matches_uncaptured r w caps caps' :
  (∃ c, r = Chr c ∨ r = Opt (Chr c)) → matches r w caps caps' → caps' = caps.
Proof.
  intros [c [-> | ->]] H.
  - by apply matches_Chr_inv in H as [_ ->].
  - apply matches_Opt_inv in H as [[_ ->]|H]; [done|]. by apply matches_Chr_inv in H as [_ ->].
Qed.

(** Takes a match of a sequence apart, one part at a time. *)
Ltac split_match H :=
  repeat match type of H with
         | matches (Cat coeff1 _) _ _ _ =>
             let H1 := fresh "Hcoeff" in
             apply matches_Cat_inv in H as (? & ? & ? & -> & H1 & H);
             apply matches_coeff1 in H1 as [-> H1]
         | matches (Cat coeff2 _) _ _ _ =>
             let H1 := fresh "Hcoeff" in
             apply matches_Cat_inv in H as (? & ? & ? & -> & H1 & H);
             apply matches_coeff2 in H1 as [-> H1]
         | matches (Cat (const _) _) _ _ _ =>
             let H1 := fresh "Hconst" in
             apply matches_Cat_inv in H as (? & ? & ? & -> & H1 & H);
             apply matches_const in H1 as [-> H1]
         | matches (Cat _ _) _ _ _ =>
             let H1 := fresh "Hpart" in
             apply matches_Cat_inv in H as (? & ? & ? & -> & H1 & H);
             apply matches_uncaptured in H1 as ->; [|eexists; (by left) || (by right)]
         end;
  apply matches_uncaptured in H as ->; [|eexists; (by left) || (by right)].

(** A match of a quadratic pattern captured a token for the leading
    coefficient and a signed token in the second group; the third group is
    a signed token or did not take part. *)
Lemma quadratic_captures pattern w caps :
  pattern ∈ quadratic → matches pattern w ∅ caps →
  ∃ t1 t2, caps !! 1%nat = Some t1 ∧ coefficientToken t1 ∧
           caps !! 2%nat = Some t2 ∧ signedToken t2 ∧
           (caps !! 3%nat = None ∨ ∃ t3, caps !! 3%nat = Some t3 ∧ signedToken t3).
Proof.
  intros Hp H. unfold quadratic in Hp.
  repeat (apply elem_of_cons in Hp as [->|Hp]); [| | | |by apply elem_of_nil in Hp];
    split_match H;
    repeat match goal with |- ∃ _, _ => eexists end;
    (split_and!; [by simplify_map_eq|done|by simplify_map_eq|done|]);
    first [left; by simplify_map_eq | right; eexists; split; [by simplify_map_eq|done]].
Qed.

Lemma linear_captures pattern w caps :
  pattern ∈ linear → matches pattern w ∅ caps →
  ∃ t1 t2, caps !! 1%nat = Some t1 ∧ coefficientToken t1 ∧
           caps !! 2%nat = Some t2 ∧ signedToken t2.
Proof.
  intros Hp H. unfold linear in Hp.
  apply elem_of_cons in Hp as [->|Hp]; [|by apply elem_of_nil in Hp].
  split_match H. do 2 eexists. split_and!; [by simplify_map_eq|done|by simplify_map_eq|done].
Qed.

Lemma firstMatch_sound patterns eq m :
  firstMatch patterns eq = Some m →
  ∃ pattern w, pattern ∈ patterns ∧ matches pattern w ∅ m.
Proof.
  induction patterns as [|pattern patterns IH]; cbn [firstMatch]; [done|].
  destruct (exec pattern eq) as [m'|] eqn:Hexec.
  - intros [= <-]. apply exec_sound in Hexec as (pre & w & post & _ & Hm).
    exists pattern, w. split; [by left|done].
  - intros (p & w & Hp & Hm)%IH. exists p, w. split; [by right|done].
Qed.

(** [x || 1] for the leading coefficient. *)
Definition leading (z : Z) : Z := if z =? 0 then 1 else z.

Lemma num_or_one z : num_or (Int z) one = Int (leading z).
Proof. unfold num_or, leading. by destruct (z =? 0). Qed.

Lemma num_or_zero z : num_or (Int z) zero = Int z.
Proof. unfold num_or. by destruct (Z.eqb_spec z 0) as [->|]. Qed.

(** C8, as the code has it: when a pattern matches and the captured tokens
    have safe integers as values (magnitude at most 2^53 − 1, which a
    Number holds exactly), every coefficient is the
    extraction rule applied to a captured token (a bare sign or an absent
    token is 1, a bare minus is −1, any other token is its integer value),
    with one exception: a leading coefficient whose token has the value 0
    becomes 1 (the route writes [parseCoeff(match[1]) || 1]).  The leading
    coefficient comes from the first group, the second coefficient from the
    second group, the constant of a quadratic from the third group, or from
    the second when the pattern has no third. *)
Theorem parseEquation_extraction_rule (equation : jsstring) :
  (∀ m, firstMatch quadratic (toLowerCase (stripWhiteSpace equation)) = Some m →
     ∃ t1 t2,
       m !! 1%nat = Some t1 ∧ coefficientToken t1 ∧
       m !! 2%nat = Some t2 ∧ signedToken t2 ∧
       (safeInteger (extractionRule (Some t1)) →
        safeInteger (extractionRule (Some t2)) →
        safeInteger (extractionRule (Some (default t2 (m !! 3%nat)))) →
        ∃ formatted,
          parseEquation equation =
            Quadratic (Int (leading (extractionRule (Some t1))))
                      (Int (extractionRule (Some t2)))
                      (Int (extractionRule (Some (default t2 (m !! 3%nat)))))
                      formatted)) ∧
  (∀ m, firstMatch quadratic (toLowerCase (stripWhiteSpace equation)) = None →
        firstMatch linear (toLowerCase (stripWhiteSpace equation)) = Some m →
     ∃ t1 t2,
       m !! 1%nat = Some t1 ∧ coefficientToken t1 ∧
       m !! 2%nat = Some t2 ∧ signedToken t2 ∧
       (safeInteger (extractionRule (Some t1)) →
        safeInteger (extractionRule (Some t2)) →
        ∃ formatted,
          parseEquation equation =
            Linear (Int (leading (extractionRule (Some t1))))
                   (Int (extractionRule (Some t2)))
                   formatted)) ∧
  extractionRule None = 1 ∧
  extractionRule (Some []) = 1 ∧
  extractionRule (Some (units "+")) = 1 ∧
  extractionRule (Some (units "-")) = -1 ∧
  extractionRule (Some (units "0")) = 0 ∧
  extractionRule (Some (units "-3")) = -3.
Proof.
  split_and!; try reflexivity.
  - intros m Hm. unfold parseEquation. rewrite Hm.
    apply firstMatch_sound in Hm as (pattern & w & Hp & Hw).
    destruct (quadratic_captures _ _ _ Hp Hw) as (t1 & t2 & H1 & Ht1 & H2 & Ht2 & H3).
    exists t1, t2. split_and!; try done. intros _ _ _.
    rewrite H1, H2, (signedToken_truthy t2 Ht2). cbn [negb].
    rewrite (parseCoeff_rule t1 Ht1), num_or_one.
    rewrite (parseCoeff_rule t2 (signedToken_coefficientToken _ Ht2)).
    destruct H3 as [->|(t3 & -> & Ht3)].
    + eexists. reflexivity.
    + rewrite (signedToken_truthy t3 Ht3). cbn [negb default from_option id].
      rewrite (parseCoeff_rule t3 (signedToken_coefficientToken _ Ht3)).
      eexists. reflexivity.
  - intros m Hnone Hm. unfold parseEquation. rewrite Hnone, Hm.
    apply firstMatch_sound in Hm as (pattern & w & Hp & Hw).
    destruct (linear_captures _ _ _ Hp Hw) as (t1 & t2 & H1 & Ht1 & H2 & Ht2).
    exists t1, t2. split_and!; try done. intros _ _. eexists.
    rewrite H1, H2.
    rewrite (parseCoeff_rule t1 Ht1), num_or_one.
    rewrite (parseCoeff_rule t2 (signedToken_coefficientToken _ Ht2)), num_or_zero.
    reflexivity.
Qed.

Lemma parseEquation_extraction_rule_witness :
  ∃ formatted,
    parseEquation (units "-3x^2 + x - 12 = 0") = Quadratic (Int (-3)) (Int 1) (Int (-12)) formatted.
Proof.
  destruct (parseEquation_extraction_rule (units "-3x^2 + x - 12 = 0")) as [Hquadratic _].
  destruct (firstMatch quadratic (toLowerCase (stripWhiteSpace (units "-3x^2 + x - 12 = 0"))))
    as [m|] eqn:Hm; [|vm_compute in Hm; discriminate].
  destruct (Hquadratic m eq_refl) as (t1 & t2 & H1 & _ & H2 & _ & Hparsed).
  vm_compute in Hm. injection Hm as <-.
  vm_compute in H1. vm_compute in H2. injection H1 as <-. injection H2 as <-.
  destruct Hparsed as (formatted & Hparsed);
    [unfold safeInteger; vm_compute; discriminate..|].
  exists formatted. rewrite Hparsed. vm_compute. reflexivity.
Defined.

(** C8 fails as stated: in 0x² + 5x + 6 = 0 the token captured for the
    leading coefficient is 0, its integer value is 0, and the coefficient
    the route returns is 1. *)
Lemma leading_zero_is_not_extracted :
  ∃ m, firstMatch quadratic
         (toLowerCase (stripWhiteSpace (units "0x" ++ [sup2] ++ units " + 5x + 6 = 0"))) = Some m ∧
       m !! 1%nat = Some (units "0") ∧
       extractionRule (Some (units "0")) = 0 ∧
       parseEquation (units "0x" ++ [sup2] ++ units " + 5x + 6 = 0")
         = Quadratic (Int 1) (Int 5) (Int 6) (units "x" ++ [sup2] ++ units " + 5x + 6 = 0").
Proof.
  eexists. split; [vm_compute; reflexivity|]. split_and!; reflexivity.
Qed.

(** C1 fails on the code: x² − 4 = 0, which is one of the examples the
    route itself suggests, is the text of (1, 0, −4); parsing it gives
    (1, −4, −4), because the patterns without a linear term capture the
    constant in the second group and the route reads the second coefficient
    from that group. *)
Lemma parse_format_loses_missing_linear_term :
  formatQuadraticEquation (Int 1) (Int 0) (Int (-4)) = units "x" ++ [sup2] ++ units " - 4 = 0" ∧
  In (formatQuadraticEquation (Int 1) (Int 0) (Int (-4))) suggestions ∧
  parseEquation (formatQuadraticEquation (Int 1) (Int 0) (Int (-4)))
    = Quadratic (Int 1) (Int (-4)) (Int (-4)) (units "x" ++ [sup2] ++ units " - 4x - 4 = 0").
Proof.
  split; [reflexivity|]. split; [right; right; left; reflexivity|]. vm_compute. reflexivity.
Qed.

End ExtractionFacts.

(** ** Running the engine along its first choices *)

Module GreedyFacts.
Import Js Regex Equations RegexFacts NumberFacts ExtractionFacts.

(** The first outcome of a pattern: what the engine commits to when nothing
    after it fails. *)
Definition first (r : regex) (s : jsstring) (caps : captures) : option (jsstring * captures) :=
  head (run r s caps).

Lemma head_app_Some {A} (l1 l2 : list A) x : head l1 = Some x → head (l1 ++ l2) = Some x.
Proof. by destruct l1. Qed.

Lemma first_Cat r1 r2 s caps s1 caps1 o :
  first r1 s caps = Some (s1, caps1) → first r2 s1 caps1 = Some o →
  first (Cat r1 r2) s caps = Some o.
Proof.
  unfold first. cbn [run]. destruct (run r1 s caps) as [|[s1' caps1'] more]; [done|].
  intros [= -> ->] H2. cbn [flat_map]. by apply head_app_Some.
Qed.

Lemma first_Chr c s caps : first (Chr c) (c :: s) caps = Some (s, caps).
Proof. unfold first. cbn [run]. by rewrite N.eqb_refl. Qed.

Lemma first_Opt_Chr_skip c d s caps :
  d ≠ c → first (Opt (Chr c)) (d :: s) caps = Some (d :: s, caps).
Proof.
  intros Hd. unfold first. cbn [run]. by rewrite (proj2 (N.eqb_neq d c) Hd).
Qed.

Lemma first_Cls_take (p : N → bool) c s caps :
  p c = true → first (Cls p) (c :: s) caps = Some (s, caps).
Proof. intros Hp. unfold first. cbn [run]. by rewrite Hp. Qed.

Lemma first_Opt_Cls_take (p : N → bool) c s caps :
  p c = true → first (Opt (Cls p)) (c :: s) caps = Some (s, caps).
Proof. intros Hp. unfold first. cbn [run]. by rewrite Hp. Qed.

Lemma first_Opt_Cls_skip (p : N → bool) c s caps :
  p c = false → first (Opt (Cls p)) (c :: s) caps = Some (c :: s, caps).
Proof. intros Hp. unfold first. cbn [run]. by rewrite Hp. Qed.

(** What follows a run of digits is not a digit. *)
Definition stops (rest : jsstring) : Prop :=
  match rest with
  | [] => True
  | c :: _ => isDigit c = false
  end.

Lemma iterate_digits ds rest caps fuel :
  Forall (fun c => isDigit c = true) ds → stops rest → (length ds ≤ fuel)%nat →
  head (iterate (run digit) fuel (ds ++ rest) caps) = Some (rest, caps).
Proof.
  intros Hds Hrest. revert fuel. induction Hds as [|c ds Hc _ IH]; intros fuel Hfuel.
  - cbn [app]. destruct fuel as [|fuel]; [done|]. cbn [iterate].
    destruct rest as [|c rest]; [done|]. cbn in Hrest. cbn [run digit]. by rewrite Hrest.
  - destruct fuel as [|fuel]; [cbn in Hfuel; lia|]. cbn [iterate app run digit].
    rewrite Hc. cbn [flat_map].
    rewrite (proj2 (Nat.ltb_lt _ _)) by (cbn; lia).
    rewrite app_nil_r. apply head_app_Some, IH. cbn in Hfuel. lia.
Qed.

Lemma first_Star_digits ds rest caps :
  Forall (fun c => isDigit c = true) ds → stops rest →
  first (Star digit) (ds ++ rest) caps = Some (rest, caps).
Proof.
  intros Hds Hrest. unfold first. cbn [run].
  apply iterate_digits; [done..|]. rewrite length_app. lia.
Qed.

Lemma first_Plus_digits ds rest caps :
  ds ≠ [] → Forall (fun c => isDigit c = true) ds → stops rest →
  first (Plus digit) (ds ++ rest) caps = Some (rest, caps).
Proof.
  intros Hne Hds Hrest. destruct ds as [|c ds]; [done|].
  apply Forall_cons in Hds as [Hc Hds]. unfold first. cbn [run app digit].
  rewrite Hc. cbn [flat_map]. rewrite app_nil_r.
  apply iterate_digits; [done..|]. rewrite length_app. lia.
Qed.

Lemma first_Grp i r w s' caps caps' :
  first r (w ++ s') caps = Some (s', caps') →
  first (Grp i r) (w ++ s') caps = Some (s', <[i := w]> caps').
Proof.
  unfold first. cbn [run]. destruct (run r (w ++ s') caps) as [|[s1 caps1] more]; [done|].
  intros [= -> ->]. cbn [map head]. do 3 f_equal.
  by rewrite length_app, Nat.add_sub, take_app_length.
Qed.

(** A successful first outcome at the start of the input is the result of
    [exec]. *)
Lemma exec_first r s s' caps : first r s ∅ = Some (s', caps) → exec r s = Some caps.
Proof.
  unfold first. destruct s; cbn [exec];
    destruct (run r _ ∅) as [|[s1 caps1] more]; try done; by intros [= _ ->].
Qed.

(** *** The groups on the tokens they are meant for *)

Lemma sign_not_digit c : isSign c = true → isDigit c = false.
Proof.
  unfold isSign. intros [->%N.eqb_eq| ->%N.eqb_eq]%orb_true_iff; reflexivity.
Qed.

Lemma digit_not_sign c : isDigit c = true → isSign c = false.
Proof.
  intros Hc%isDigit_range. unfold isSign.
  apply orb_false_iff. split; apply N.eqb_neq; lia.
Qed.

(** The text of a leading coefficient: nothing or a minus, then digits. *)
Definition leadingToken (t : jsstring) : Prop :=
  ∃ sg ds, t = sg ++ ds ∧ (sg = [] ∨ sg = [minus]) ∧ Forall (fun c => isDigit c = true) ds.

Lemma first_coeff1 t rest caps :
  leadingToken t →
  first coeff1 (t ++ 120%N :: rest) caps = Some (120%N :: rest, <[1%nat := t]> caps).
Proof.
  intros (sg & ds & -> & Hsg & Hds). apply first_Grp.
  apply first_Cat with (s1 := ds ++ 120%N :: rest) (caps1 := caps).
  - destruct Hsg as [-> | ->]; cbn [app].
    + destruct ds as [|c ds]; cbn [app]; apply first_Opt_Cls_skip; [done|].
      apply Forall_cons in Hds as [Hc _]. by apply digit_not_sign in Hc.
    + by apply first_Opt_Cls_take.
  - by apply first_Star_digits.
Qed.

Lemma first_coeff2 sg ds rest caps :
  isSign sg = true → Forall (fun c => isDigit c = true) ds → stops rest →
  first coeff2 (sg :: ds ++ rest) caps = Some (rest, <[2%nat := sg :: ds]> caps).
Proof.
  intros Hsg Hds Hrest. apply (first_Grp 2 _ (sg :: ds) rest).
  apply first_Cat with (s1 := ds ++ rest) (caps1 := caps).
  - by apply first_Cls_take.
  - by apply first_Star_digits.
Qed.

Lemma first_const i sg ds rest caps :
  isSign sg = true → ds ≠ [] → Forall (fun c => isDigit c = true) ds → stops rest →
  first (const i) (sg :: ds ++ rest) caps = Some (rest, <[i := sg :: ds]> caps).
Proof.
  intros Hsg Hne Hds Hrest. apply (first_Grp i _ (sg :: ds) rest).
  apply first_Cat with (s1 := ds ++ rest) (caps1 := caps).
  - by apply first_Cls_take.
  - by apply first_Plus_digits.
Qed.

(** The pattern with [x²], a linear term and a constant, on the text of
    three coefficients. *)
Lemma exec_quadratic_sup2 t1 sb t2 sc t3 :
  leadingToken t1 →
  isSign sb = true → Forall (fun c => isDigit c = true) t2 →
  isSign sc = true → t3 ≠ [] → Forall (fun c => isDigit c = true) t3 →
  ∃ pattern, quadratic !! 1%nat = Some pattern ∧
    exec pattern (t1 ++ 120%N :: sup2 :: sb :: t2 ++ 120%N :: sc :: t3 ++ units "=0")
      = Some (<[3%nat := sc :: t3]> (<[2%nat := sb :: t2]> (<[1%nat := t1]> ∅))).
Proof.
  intros Ht1 Hsb Ht2 Hsc Hne Ht3. eexists. split; [reflexivity|].
  eapply exec_first.
  eapply first_Cat; [by apply first_coeff1|].
  eapply first_Cat; [by apply first_Opt_Chr_skip|].
  eapply first_Cat; [apply first_Chr|].
  eapply first_Cat; [apply first_Chr|].
  eapply first_Cat; [by apply first_coeff2|].
  eapply first_Cat; [by apply first_Opt_Chr_skip|].
  eapply first_Cat; [apply first_Chr|].
  eapply first_Cat; [by apply first_const|].
  eapply first_Cat; [apply first_Chr|].
  apply first_Chr.
Qed.

(** The linear pattern, on the text of two coefficients. *)
Lemma exec_linear t1 sb t2 :
  leadingToken t1 →
  isSign sb = true → t2 ≠ [] → Forall (fun c => isDigit c = true) t2 →
  ∃ pattern, linear !! 0%nat = Some pattern ∧
    exec pattern (t1 ++ 120%N :: sb :: t2 ++ units "=0")
      = Some (<[2%nat := sb :: t2]> (<[1%nat := t1]> ∅)).
Proof.
  intros Ht1 Hsb Hne Ht2. eexists. split; [reflexivity|].
  eapply exec_first.
  eapply first_Cat; [by apply first_coeff1|].
  eapply first_Cat; [by apply first_Opt_Chr_skip|].
  eapply first_Cat; [apply first_Chr|].
  eapply first_Cat; [by apply first_const|].
  eapply first_Cat; [apply first_Chr|].
  apply first_Chr.
Qed.

(** *** Where a quadratic pattern cannot match *)

(** Some [x] of the text is followed by one of the characters [ds]. *)
Fixpoint xThen (ds : list N) (s : jsstring) : bool :=
  match s with
  | c :: s' =>
      ((c =? 120)%N && match s' with
                       | e :: _ => bool_decide (e ∈ ds)
                       | [] => false
                       end)
      || xThen ds s'
  | [] => false
  end.

Lemma xThen_intro ds pre d post :
  d ∈ ds → xThen ds (pre ++ 120%N :: d :: post) = true.
Proof.
  intros Hd. induction pre as [|c pre IH]; cbn [app xThen].
  - by rewrite N.eqb_refl, bool_decide_eq_true_2.
  - rewrite IH. apply orb_true_r.
Qed.

Lemma xThen_elim ds s :
  xThen ds s = true → ∃ pre d post, s = pre ++ 120%N :: d :: post ∧ d ∈ ds.
Proof.
  induction s as [|c s IH]; cbn [xThen]; [done|].
  intros [[Hc%N.eqb_eq Hd]%andb_true_iff|H]%orb_true_iff.
  - destruct s as [|e s]; [done|]. apply bool_decide_eq_true_1 in Hd.
    exists [], e, s. by subst.
  - destruct (IH H) as (pre & d & post & -> & Hd). by exists (c :: pre), d, post.
Qed.

Lemma xThen_inside ds pre w post :
  xThen ds w = true → xThen ds (pre ++ w ++ post) = true.
Proof.
  intros (pre' & d & post' & -> & Hd)%xThen_elim.
  replace (pre ++ (pre' ++ 120%N :: d :: post') ++ post)
    with ((pre ++ pre') ++ 120%N :: d :: (post' ++ post)).
  - by apply xThen_intro.
  - by rewrite <- !app_assoc.
Qed.

Lemma xThen_token ds t rest :
  Forall (fun c => c ≠ 120%N) t → xThen ds (t ++ rest) = xThen ds rest.
Proof.
  induction 1 as [|c t Hc _ IH]; cbn [app xThen]; [done|].
  by rewrite (proj2 (N.eqb_neq c 120) Hc), IH.
Qed.

Lemma digits_no_x t :
  Forall (fun c => isDigit c = true) t → Forall (fun c => c ≠ 120%N) t.
Proof. intros H. eapply Forall_impl; [exact H|]. intros c Hc%isDigit_range. lia. Qed.

Lemma leadingToken_no_x t : leadingToken t → Forall (fun c => c ≠ 120%N) t.
Proof.
  intros (sg & ds & -> & Hsg & Hds). apply Forall_app. split; [|by apply digits_no_x].
  destruct Hsg as [-> | ->]; repeat constructor. done.
Qed.

(** A pattern whose every match has an [x] followed by one of [ds] finds
    nothing in a text that has no such [x]. *)
Lemma exec_nothing ds r s :
  (∀ w caps, matches r w ∅ caps → xThen ds w = true) →
  xThen ds s = false → exec r s = None.
Proof.
  intros Hneeds Hs. destruct (exec r s) as [caps|] eqn:Hexec; [|done].
  apply exec_sound in Hexec as (pre & w & post & -> & Hw).
  apply Hneeds in Hw. by rewrite (xThen_inside ds pre w post Hw) in Hs.
Qed.

(** Every quadratic pattern starts with a coefficient, an optional [*] and
    an [x]. *)
Lemma matches_up_to_x rest w caps caps' :
  matches (Cat coeff1 (Cat (Opt (chr "*")) (Cat (chr "x") rest))) w caps caps' →
  ∃ pre wr caps1 caps2, w = pre ++ 120%N :: wr ∧ matches rest wr caps1 caps2.
Proof.
  intros (w1 & wa & c1 & -> & _ & H)%matches_Cat_inv.
  apply matches_Cat_inv in H as (w2 & wb & c2 & -> & _ & H).
  apply matches_Cat_inv in H as (w3 & wr & c3 & -> & Hx & H).
  apply matches_Chr_inv in Hx as [-> ->].
  exists (w1 ++ w2), wr, c2, caps'. split; [|done]. by rewrite <- app_assoc.
Qed.

Lemma quadratic_needs_x2 pattern w caps :
  pattern ∈ quadratic → matches pattern w ∅ caps →
  xThen [94%N; 50%N; sup2] w = true.
Proof.
  intros Hp H. unfold quadratic in Hp.
  repeat (apply elem_of_cons in Hp as [->|Hp]); [| | | |by apply elem_of_nil in Hp];
    apply matches_up_to_x in H as (pre & wr & c1 & c2 & -> & H);
    apply matches_Cat_inv in H as (w1 & w2 & c3 & -> & H1 & H2).
  - apply matches_Cat_inv in H2 as (w3 & w4 & c4 & -> & [-> _]%matches_Chr_inv & _).
    apply matches_Opt_inv in H1 as [[-> _]|[-> _]%matches_Chr_inv];
      apply xThen_intro; set_solver.
  - apply matches_Chr_inv in H1 as [-> _]. apply xThen_intro; set_solver.
  - apply matches_Cat_inv in H2 as (w3 & w4 & c4 & -> & [-> _]%matches_Chr_inv & _).
    apply matches_Opt_inv in H1 as [[-> _]|[-> _]%matches_Chr_inv];
      apply xThen_intro; set_solver.
  - apply matches_Chr_inv in H1 as [-> _]. apply xThen_intro; set_solver.
Qed.

Lemma caret_pattern_needs pattern w caps :
  quadratic !! 0%nat = Some pattern → matches pattern w ∅ caps →
  xThen [94%N; 50%N] w = true.
Proof.
  intros [= <-] H.
  apply matches_up_to_x in H as (pre & wr & c1 & c2 & -> & H).
  apply matches_Cat_inv in H as (w1 & w2 & c3 & -> & H1 & H2).
  apply matches_Cat_inv in H2 as (w3 & w4 & c4 & -> & [-> _]%matches_Chr_inv & _).
  apply matches_Opt_inv in H1 as [[-> _]|[-> _]%matches_Chr_inv];
    apply xThen_intro; set_solver.
Qed.

End GreedyFacts.

(** ** Formatting, then parsing *)

Module RoundTripFacts.
Import Js Regex Equations RegexFacts NumberFacts ExtractionFacts GreedyFacts.

(** The pieces of a formatted equation. *)
Definition leadText (a : Z) : jsstring :=
  if a =? 1 then [] else if a =? -1 then [minus] else toString (Int a).
Definition signOf (z : Z) : N := if 0 <? z then plus else minus.
Definition magText (b : Z) : jsstring :=
  if Z.abs b =? 1 then [] else digits (Z.abs_N b).

Lemma toString_nonneg z : 0 ≤ z → toString (Int z) = digits (Z.abs_N z).
Proof. intros Hz. unfold toString. by rewrite (proj2 (Z.ltb_ge z 0) Hz). Qed.

Lemma toString_neg z : z < 0 → toString (Int z) = minus :: digits (Z.abs_N z).
Proof. intros Hz. unfold toString. by rewrite (proj2 (Z.ltb_lt z 0) Hz). Qed.

Lemma toString_abs z : toString (Math_abs (Int z)) = digits (Z.abs_N z).
Proof.
  cbn [Math_abs]. rewrite toString_nonneg by lia. f_equal. lia.
Qed.

(** The term of the second coefficient, and the constant term. *)
Lemma linear_term b (equation : jsstring) :
  b ≠ 0 →
  (if num_gtb (Int b) zero
   then equation ++ units " + " ++ (if num_eqb (Int b) one then [] else toString (Int b))
          ++ units "x"
   else if num_ltb (Int b) zero
   then equation ++ units " - "
          ++ (if num_eqb (Int b) minus_one then [] else toString (Math_abs (Int b)))
          ++ units "x"
   else equation)
  = equation ++ [32%N; signOf b; 32%N] ++ magText b ++ [120%N].
Proof.
  intros Hb. unfold num_gtb, num_ltb, num_eqb, zero, one, minus_one, signOf, magText.
  destruct (Z.ltb_spec 0 b) as [Hpos|Hneg].
  - destruct (Z.eqb_spec b 1) as [->|Hb1]; [done|].
    rewrite (proj2 (Z.eqb_neq (Z.abs b) 1)) by lia.
    by rewrite toString_nonneg by lia.
  - rewrite (proj2 (Z.ltb_lt b 0)) by lia.
    destruct (Z.eqb_spec b (-1)) as [->|Hb1]; [done|].
    rewrite (proj2 (Z.eqb_neq (Z.abs b) 1)) by lia.
    by rewrite toString_abs.
Qed.

Lemma constant_term c (equation : jsstring) :
  c ≠ 0 →
  (if num_gtb (Int c) zero then equation ++ units " + " ++ toString (Int c)
   else if num_ltb (Int c) zero then equation ++ units " - " ++ toString (Math_abs (Int c))
   else equation)
  = equation ++ [32%N; signOf c; 32%N] ++ digits (Z.abs_N c).
Proof.
  intros Hc. unfold num_gtb, num_ltb, zero, signOf.
  destruct (Z.ltb_spec 0 c) as [Hpos|Hneg].
  - by rewrite toString_nonneg by lia.
  - rewrite (proj2 (Z.ltb_lt c 0)) by lia. by rewrite toString_abs.
Qed.

Lemma leading_term_quadratic a :
  (if num_eqb (Int a) one then [] ++ units "x" ++ [sup2]
   else if num_eqb (Int a) minus_one then [] ++ units "-x" ++ [sup2]
   else [] ++ toString (Int a) ++ units "x" ++ [sup2])
  = leadText a ++ [120%N; sup2].
Proof.
  unfold num_eqb, one, minus_one, leadText.
  destruct (a =? 1); [done|]. by destruct (a =? -1).
Qed.

Lemma leading_term_linear a :
  (if num_eqb (Int a) one then [] ++ units "x"
   else if num_eqb (Int a) minus_one then [] ++ units "-x"
   else [] ++ toString (Int a) ++ units "x")
  = leadText a ++ [120%N].
Proof.
  unfold num_eqb, one, minus_one, leadText.
  destruct (a =? 1); [done|]. by destruct (a =? -1).
Qed.

Lemma formatQuadraticEquation_shape a b c :
  b ≠ 0 → c ≠ 0 →
  formatQuadraticEquation (Int a) (Int b) (Int c)
  = leadText a ++ [120%N; sup2] ++ [32%N; signOf b; 32%N] ++ magText b ++ [120%N]
      ++ [32%N; signOf c; 32%N] ++ digits (Z.abs_N c) ++ units " = 0".
Proof.
  intros Hb Hc. unfold formatQuadraticEquation. cbv zeta.
  rewrite (leading_term_quadratic a).
  rewrite (linear_term b _ Hb), (constant_term c _ Hc).
  by rewrite <- !app_assoc.
Qed.

Lemma formatLinearEquation_shape a b :
  b ≠ 0 →
  formatLinearEquation (Int a) (Int b)
  = leadText a ++ [120%N] ++ [32%N; signOf b; 32%N] ++ digits (Z.abs_N b) ++ units " = 0".
Proof.
  intros Hb. unfold formatLinearEquation. cbv zeta.
  rewrite (leading_term_linear a), (constant_term b _ Hb).
  by rewrite <- !app_assoc.
Qed.

(** What [parseEquation] does to the text before matching. *)
Definition normalized (s : jsstring) : jsstring := toLowerCase (stripWhiteSpace s).

Lemma normalized_app s1 s2 : normalized (s1 ++ s2) = normalized s1 ++ normalized s2.
Proof. unfold normalized, toLowerCase, stripWhiteSpace. by rewrite List.filter_app, map_app. Qed.

Lemma normalized_digits t :
  Forall (fun c => isDigit c = true) t → normalized t = t.
Proof.
  unfold normalized, toLowerCase, stripWhiteSpace.
  induction 1 as [|c t Hc _ IH]; cbn [List.filter map]; [done|].
  rewrite (digit_not_white c Hc). cbn [negb map]. by rewrite (digit_lower c Hc), IH.
Qed.

Lemma leadText_token a : leadingToken (leadText a).
Proof.
  unfold leadText. destruct (a =? 1); [by exists [], []; auto|].
  destruct (a =? -1); [by exists [minus], []; auto|].
  destruct (Z.lt_ge_cases a 0) as [Hneg|Hpos].
  - rewrite toString_neg by done. exists [minus], (digits (Z.abs_N a)).
    split; [done|]. split; [by right|apply digits_are_digits].
  - rewrite toString_nonneg by done. exists [], (digits (Z.abs_N a)).
    split; [done|]. split; [by left|apply digits_are_digits].
Qed.

Lemma normalized_leading t : leadingToken t → normalized t = t.
Proof.
  intros (sg & ds & -> & Hsg & Hds). rewrite normalized_app, (normalized_digits ds Hds).
  by destruct Hsg as [-> | ->].
Qed.

Lemma magText_digits b : Forall (fun c => isDigit c = true) (magText b).
Proof. unfold magText. destruct (Z.abs b =? 1); [constructor|apply digits_are_digits]. Qed.

Lemma signOf_sign z : isSign (signOf z) = true.
Proof. unfold signOf. by destruct (0 <? z). Qed.

Lemma normalized_quadratic a b c :
  b ≠ 0 → c ≠ 0 →
  normalized (formatQuadraticEquation (Int a) (Int b) (Int c))
  = leadText a ++ 120%N :: sup2 :: signOf b :: magText b
      ++ 120%N :: signOf c :: digits (Z.abs_N c) ++ units "=0".
Proof.
  intros Hb Hc. rewrite (formatQuadraticEquation_shape a b c Hb Hc).
  rewrite !normalized_app, (normalized_leading _ (leadText_token a)),
    (normalized_digits _ (magText_digits b)), (normalized_digits _ (digits_are_digits _)).
  unfold signOf. by destruct (0 <? b), (0 <? c).
Qed.

Lemma normalized_linear a b :
  b ≠ 0 →
  normalized (formatLinearEquation (Int a) (Int b))
  = leadText a ++ 120%N :: signOf b :: digits (Z.abs_N b) ++ units "=0".
Proof.
  intros Hb. rewrite (formatLinearEquation_shape a b Hb).
  rewrite !normalized_app, (normalized_leading _ (leadText_token a)),
    (normalized_digits _ (digits_are_digits _)).
  unfold signOf. by destruct (0 <? b).
Qed.

(** *** The rule on the text of a coefficient *)

Lemma rule_digits ds :
  ds ≠ [] → Forall (fun c => isDigit c = true) ds →
  extractionRule (Some ds) = Z.of_N (decimal ds).
Proof.
  intros Hne Hds. destruct ds as [|c ds]; [done|].
  pose proof (Hds' := Hds). apply Forall_cons in Hds' as [Hc%isDigit_range _].
  unfold extractionRule, integerValue, plus, minus.
  rewrite !bool_decide_eq_false_2; [|intros [=]; lia|intros [[=]|[=]]; lia].
  by rewrite !(proj2 (N.eqb_neq c _)) by lia.
Qed.

Lemma rule_signed sg ds :
  isSign sg = true → ds ≠ [] → Forall (fun c => isDigit c = true) ds →
  extractionRule (Some (sg :: ds)) = (if (sg =? minus)%N then -1 else 1) * Z.of_N (decimal ds).
Proof.
  intros Hsg Hne Hds. destruct ds as [|c ds]; [done|].
  unfold extractionRule, integerValue.
  rewrite !bool_decide_eq_false_2; [|intros [=]|intros [[=]|[=]]].
  unfold isSign in Hsg. apply orb_true_iff in Hsg as [->%N.eqb_eq| ->%N.eqb_eq]; cbn; lia.
Qed.

Lemma rule_leadText a : a ≠ 0 → extractionRule (Some (leadText a)) = a.
Proof.
  intros Ha. unfold leadText.
  destruct (Z.eqb_spec a 1) as [->|H1]; [done|].
  destruct (Z.eqb_spec a (-1)) as [->|H2]; [done|].
  destruct (Z.lt_ge_cases a 0) as [Hneg|Hpos].
  - rewrite toString_neg by done.
    rewrite rule_signed; [|done|apply digits_nonempty|apply digits_are_digits].
    rewrite decimal_digits. cbn. lia.
  - rewrite toString_nonneg by done.
    rewrite rule_digits; [|apply digits_nonempty|apply digits_are_digits].
    rewrite decimal_digits. lia.
Qed.

Lemma rule_constant c : c ≠ 0 → extractionRule (Some (signOf c :: digits (Z.abs_N c))) = c.
Proof.
  intros Hc. rewrite rule_signed;
    [|apply signOf_sign|apply digits_nonempty|apply digits_are_digits].
  rewrite decimal_digits. unfold signOf.
  destruct (Z.ltb_spec 0 c); cbn; lia.
Qed.

Lemma rule_term b : b ≠ 0 → extractionRule (Some (signOf b :: magText b)) = b.
Proof.
  intros Hb. unfold magText. destruct (Z.eqb_spec (Z.abs b) 1) as [H1|H1].
  - unfold signOf. destruct (Z.ltb_spec 0 b); [change (1 = b)|change (-1 = b)]; lia.
  - by apply rule_constant.
Qed.

Lemma signed_token sg ds :
  isSign sg = true → Forall (fun c => isDigit c = true) ds → coefficientToken (sg :: ds).
Proof. intros Hsg Hds. apply signedToken_coefficientToken. by exists sg, ds. Qed.

Lemma leading_coefficientToken t : leadingToken t → coefficientToken t.
Proof. intros (sg & ds & -> & Hsg & Hds). exists sg, ds. split_and!; [done| |done]. tauto. Qed.

(** *** No quadratic pattern where no [x] is followed by [^], [2] or [²] *)

Lemma xThen_x ds e rest :
  xThen ds (120%N :: e :: rest) = bool_decide (e ∈ ds) || xThen ds (e :: rest).
Proof. reflexivity. Qed.

Lemma xThen_other ds c rest : c ≠ 120%N → xThen ds (c :: rest) = xThen ds rest.
Proof. intros Hc. cbn [xThen]. by rewrite (proj2 (N.eqb_neq c 120) Hc). Qed.

Lemma signOf_no_x z : signOf z ≠ 120%N.
Proof. unfold signOf. by destruct (0 <? z). Qed.

Lemma signOf_not_in z : bool_decide (signOf z ∈ [94%N; 50%N; sup2]) = false.
Proof. unfold signOf. by destruct (0 <? z). Qed.

Lemma signOf_not_caret z : bool_decide (signOf z ∈ [94%N; 50%N]) = false.
Proof. unfold signOf. by destruct (0 <? z). Qed.

Lemma quadratic_text_no_caret a b c :
  xThen [94%N; 50%N]
    (leadText a ++ 120%N :: sup2 :: signOf b :: magText b
       ++ 120%N :: signOf c :: digits (Z.abs_N c) ++ units "=0") = false.
Proof.
  rewrite (xThen_token _ _ _ (leadingToken_no_x _ (leadText_token a))).
  rewrite xThen_x, xThen_other, (xThen_other _ _ _ (signOf_no_x b)) by done.
  rewrite (xThen_token _ _ _ (digits_no_x _ (magText_digits b))).
  rewrite xThen_x, signOf_not_caret, (xThen_other _ _ _ (signOf_no_x c)).
  rewrite (xThen_token _ _ _ (digits_no_x _ (digits_are_digits _))).
  reflexivity.
Qed.

Lemma linear_text_no_x2 a b :
  xThen [94%N; 50%N; sup2]
    (leadText a ++ 120%N :: signOf b :: digits (Z.abs_N b) ++ units "=0") = false.
Proof.
  rewrite (xThen_token _ _ _ (leadingToken_no_x _ (leadText_token a))).
  rewrite xThen_x, signOf_not_in, (xThen_other _ _ _ (signOf_no_x b)).
  rewrite (xThen_token _ _ _ (digits_no_x _ (digits_are_digits _))).
  reflexivity.
Qed.

Lemma firstMatch_nothing patterns s :
  (∀ pattern, pattern ∈ patterns → exec pattern s = None) → firstMatch patterns s = None.
Proof.
  induction patterns as [|pattern patterns IH]; intros H; cbn [firstMatch]; [done|].
  rewrite (H pattern) by (by left). apply IH. intros p Hp. apply H. by right.
Qed.

Lemma firstMatch_second pattern1 pattern2 patterns s m :
  exec pattern1 s = None → exec pattern2 s = Some m →
  firstMatch (pattern1 :: pattern2 :: patterns) s = Some m.
Proof. intros H1 H2. cbn [firstMatch]. by rewrite H1, H2. Qed.

(** Round trip of a quadratic: for integers a, b and c, none of them zero,
    parsing the text that formatQuadraticEquation writes gives back a, b
    and c (and the same text as the formatted equation). *)
Theorem quadratic_round_trip (a b c : Z) :
  safeInteger a → safeInteger b → safeInteger c →
  a ≠ 0 → b ≠ 0 → c ≠ 0 →
  parseEquation (formatQuadraticEquation (Int a) (Int b) (Int c))
  = Quadratic (Int a) (Int b) (Int c) (formatQuadraticEquation (Int a) (Int b) (Int c)).
Proof.
  intros _ _ _ Ha Hb Hc. unfold parseEquation.
  change (toLowerCase (stripWhiteSpace ?s)) with (normalized s).
  rewrite (normalized_quadratic a b c Hb Hc).
  destruct (exec_quadratic_sup2 (leadText a) (signOf b) (magText b) (signOf c)
              (digits (Z.abs_N c)))
    as (pattern2 & [= <-] & Hexec2);
    [apply leadText_token|apply signOf_sign|apply magText_digits|apply signOf_sign
    |apply digits_nonempty|apply digits_are_digits|].
  unfold quadratic. erewrite firstMatch_second; [|
    apply (exec_nothing [94%N; 50%N]);
      [intros w caps; by apply caret_pattern_needs|apply quadratic_text_no_caret]
    |exact Hexec2].
  rewrite lookup_insert_ne, lookup_insert_ne, lookup_insert_eq by done.
  rewrite lookup_insert_ne, lookup_insert_eq by done.
  rewrite lookup_insert_eq. cbn [falsy negb].
  rewrite (parseCoeff_rule _ (leading_coefficientToken _ (leadText_token a))).
  rewrite (parseCoeff_rule _ (signed_token _ _ (signOf_sign b) (magText_digits b))).
  rewrite (parseCoeff_rule _ (signed_token _ _ (signOf_sign c) (digits_are_digits _))).
  pose proof (rule_leadText a Ha) as Ra. pose proof (rule_term b Hb) as Rb.
  pose proof (rule_constant c Hc) as Rc. unfold jsstring in *.
  rewrite Ra, Rb, Rc, num_or_one.
  unfold leading. by rewrite (proj2 (Z.eqb_neq a 0) Ha).
Qed.

Lemma quadratic_round_trip_witness :
  parseEquation (units "x" ++ [sup2] ++ units " - 5x + 6 = 0")
  = Quadratic (Int 1) (Int (-5)) (Int 6) (units "x" ++ [sup2] ++ units " - 5x + 6 = 0").
Proof.
  apply (quadratic_round_trip 1 (-5) 6); unfold safeInteger; lia.
Defined.

(** Round trip of a linear equation: for integers a and b, neither of them
    zero, parsing the text that formatLinearEquation writes gives back a
    and b. *)
Theorem linear_round_trip (a b : Z) :
  safeInteger a → safeInteger b →
  a ≠ 0 → b ≠ 0 →
  parseEquation (formatLinearEquation (Int a) (Int b))
  = Linear (Int a) (Int b) (formatLinearEquation (Int a) (Int b)).
Proof.
  intros _ _ Ha Hb. unfold parseEquation.
  change (toLowerCase (stripWhiteSpace ?s)) with (normalized s).
  rewrite (normalized_linear a b Hb).
  rewrite firstMatch_nothing; cycle 1.
  { intros pattern Hp. apply (exec_nothing [94%N; 50%N; sup2]).
    - intros w caps. by apply quadratic_needs_x2.
    - apply linear_text_no_x2. }
  destruct (exec_linear (leadText a) (signOf b) (digits (Z.abs_N b)))
    as (pattern & [= <-] & Hexec);
    [apply leadText_token|apply signOf_sign|apply digits_nonempty|apply digits_are_digits|].
  unfold linear. cbn [firstMatch]. rewrite Hexec.
  rewrite lookup_insert_ne, lookup_insert_eq by done.
  rewrite lookup_insert_eq.
  rewrite (parseCoeff_rule _ (leading_coefficientToken _ (leadText_token a))).
  rewrite (parseCoeff_rule _ (signed_token _ _ (signOf_sign b) (digits_are_digits _))).
  pose proof (rule_leadText a Ha) as Ra. pose proof (rule_constant b Hb) as Rb.
  unfold jsstring in *.
  rewrite Ra, Rb, num_or_one, num_or_zero.
  unfold leading. by rewrite (proj2 (Z.eqb_neq a 0) Ha).
Qed.

Lemma linear_round_trip_witness :
  parseEquation (units "3x + 6 = 0") = Linear (Int 3) (Int 6) (units "3x + 6 = 0").
Proof.
  apply (linear_round_trip 3 6); unfold safeInteger; lia.
Defined.

End RoundTripFacts.

(** ** The order of the binary64 numbers *)

Module OrderFacts.
#[local] Open Scope Z_scope.

(** The place of a number on the line: its class (infinities outermost,
    the two zeros together in the middle), then exponent and mantissa,
    both counted downwards for the negative numbers. *)
Definition rank (f : spec_float) : Z * Z * Z :=
  match f with
  | S754_nan | S754_zero _ => (0, 0, 0)
  | S754_infinity s => (if s then -2 else 2, 0, 0)
  | S754_finite s m e => if s then (-1, - e, - Zpos m) else (1, e, Zpos m)
  end.

Definition lexCompare (p q : Z * Z * Z) : comparison :=
  let '(a, b, c) := p in
  let '(a', b', c') := q in
  match a ?= a' with
  | Eq => match b ?= b' with Eq => c ?= c' | r => r end
  | r => r
  end.

Lemma SFcompare_rank x y :
  x ≠ S754_nan → y ≠ S754_nan →
  SFcompare x y = Some (lexCompare (rank x) (rank y)).
Proof.
  intros Hx Hy.
  destruct x as [[]|[]| |[] mx ex], y as [[]|[]| |[] my ey]; try done.
  unfold SFcompare, rank, lexCompare.
  change (Pos.compare_cont Eq mx my) with (Zpos mx ?= Zpos my).
  change (-1 ?= -1) with Eq. cbv iota. f_equal.
  destruct (Z.compare_spec ex ey), (Z.compare_spec (- ex) (- ey)); try lia; try done.
Qed.

Lemma lexCompare_Lt p q r :
  lexCompare p q = Lt → lexCompare q r ≠ Gt → lexCompare p r = Lt.
Proof.
  destruct p as [[a b] c], q as [[a' b'] c'], r as [[a'' b''] c'']. unfold lexCompare.
  destruct (Z.compare_spec a a'), (Z.compare_spec a' a''), (Z.compare_spec a a'');
    try done; try lia;
  destruct (Z.compare_spec b b'), (Z.compare_spec b' b''), (Z.compare_spec b b'');
    try done; try lia;
  destruct (Z.compare_spec c c'), (Z.compare_spec c' c''), (Z.compare_spec c c'');
    try done; lia.
Qed.

Lemma lexCompare_le p q r :
  lexCompare p q ≠ Gt → lexCompare q r ≠ Gt → lexCompare p r ≠ Gt.
Proof.
  destruct p as [[a b] c], q as [[a' b'] c'], r as [[a'' b''] c'']. unfold lexCompare.
  destruct (Z.compare_spec a a'), (Z.compare_spec a' a''), (Z.compare_spec a a'');
    try done; try lia;
  destruct (Z.compare_spec b b'), (Z.compare_spec b' b''), (Z.compare_spec b b'');
    try done; try lia;
  destruct (Z.compare_spec c c'), (Z.compare_spec c' c''), (Z.compare_spec c c'');
    try done; lia.
Qed.

Lemma lexCompare_antisym p q : lexCompare q p = CompOpp (lexCompare p q).
Proof.
  destruct p as [[a b] c], q as [[a' b'] c']. unfold lexCompare.
  rewrite (Z.compare_antisym a a'), (Z.compare_antisym b b'), (Z.compare_antisym c c').
  by destruct (a ?= a'), (b ?= b').
Qed.

Lemma lexCompare_refl p : lexCompare p p = Eq.
Proof. destruct p as [[a b] c]. unfold lexCompare. by rewrite !Z.compare_refl. Qed.

#[local] Open Scope float_scope.

Lemma is_nan_false (x : float) : is_nan x = false ↔ Prim2SF x ≠ S754_nan.
Proof.
  unfold is_nan. rewrite FloatAxioms.eqb_spec, negb_false_iff. unfold SFeqb.
  destruct (Prim2SF x) as [s|s| |s m e] eqn:E; try by split.
  all: rewrite SFcompare_rank, lexCompare_refl by done; by split.
Qed.

Lemma ltb_not_nan (x y : float) : (x <? y) = true → is_nan x = false ∧ is_nan y = false.
Proof.
  rewrite FloatAxioms.ltb_spec, !is_nan_false. unfold SFltb.
  by destruct (Prim2SF x) as [| | |], (Prim2SF y) as [| | |].
Qed.

Lemma leb_not_nan (x y : float) : (x <=? y) = true → is_nan x = false ∧ is_nan y = false.
Proof.
  rewrite FloatAxioms.leb_spec, !is_nan_false. unfold SFleb.
  by destruct (Prim2SF x) as [| | |], (Prim2SF y) as [| | |].
Qed.

Lemma ltb_rank (x y : float) :
  is_nan x = false → is_nan y = false →
  (x <? y) = bool_decide (lexCompare (rank (Prim2SF x)) (rank (Prim2SF y)) = Lt).
Proof.
  rewrite !is_nan_false. intros Hx Hy. rewrite FloatAxioms.ltb_spec. unfold SFltb.
  rewrite (SFcompare_rank _ _ Hx Hy). by destruct (lexCompare _ _).
Qed.

Lemma leb_rank (x y : float) :
  is_nan x = false → is_nan y = false →
  (x <=? y) = bool_decide (lexCompare (rank (Prim2SF x)) (rank (Prim2SF y)) ≠ Gt).
Proof.
  rewrite !is_nan_false. intros Hx Hy. rewrite FloatAxioms.leb_spec. unfold SFleb.
  rewrite (SFcompare_rank _ _ Hx Hy). by destruct (lexCompare _ _).
Qed.

(** On the numbers other than NaN, [<=] is a total preorder and [<] its
    strict part. *)
Lemma leb_refl (x : float) : is_nan x = false → (x <=? x) = true.
Proof. intros Hx. rewrite leb_rank, lexCompare_refl by done. done. Qed.

Lemma leb_trans (x y z : float) :
  (x <=? y) = true → (y <=? z) = true → (x <=? z) = true.
Proof.
  intros Hxy Hyz.
  destruct (leb_not_nan _ _ Hxy) as [Hx Hy], (leb_not_nan _ _ Hyz) as [_ Hz].
  rewrite leb_rank in * by done.
  apply bool_decide_eq_true in Hxy, Hyz. apply bool_decide_eq_true.
  by eapply lexCompare_le.
Qed.

Lemma not_ltb_leb (x y : float) :
  is_nan x = false → is_nan y = false → (x <? y) = false → (y <=? x) = true.
Proof.
  intros Hx Hy. rewrite ltb_rank, leb_rank by done.
  rewrite bool_decide_eq_false, bool_decide_eq_true, (lexCompare_antisym (rank (Prim2SF x))).
  by destruct (lexCompare _ _).
Qed.

Lemma ltb_leb (x y : float) : (x <? y) = true → (x <=? y) = true.
Proof.
  intros Hxy. destruct (ltb_not_nan _ _ Hxy) as [Hx Hy].
  rewrite ltb_rank in Hxy by done. rewrite leb_rank by done.
  apply bool_decide_eq_true in Hxy. apply bool_decide_eq_true. by rewrite Hxy.
Qed.

Lemma leb_not_ltb (x y : float) : (x <=? y) = true → (y <? x) = false.
Proof.
  intros Hxy. destruct (leb_not_nan _ _ Hxy) as [Hx Hy].
  rewrite leb_rank in Hxy by done. rewrite ltb_rank by done.
  apply bool_decide_eq_true in Hxy. apply bool_decide_eq_false.
  rewrite lexCompare_antisym. by destruct (lexCompare _ _).
Qed.

Lemma ltb_leb_trans (x y z : float) :
  (x <? y) = true → (y <=? z) = true → (x <? z) = true.
Proof.
  intros Hxy Hyz.
  destruct (ltb_not_nan _ _ Hxy) as [Hx Hy], (leb_not_nan _ _ Hyz) as [_ Hz].
  rewrite ltb_rank in * by done. rewrite leb_rank in Hyz by done.
  apply bool_decide_eq_true in Hxy, Hyz. apply bool_decide_eq_true.
  by eapply lexCompare_Lt.
Qed.

Lemma eqb_leb (x y : float) : (x =? y) = true → (x <=? y) = true ∧ (y <=? x) = true.
Proof.
  rewrite FloatAxioms.eqb_spec, !FloatAxioms.leb_spec. unfold SFeqb, SFleb.
  destruct (Prim2SF x) as [[]|[]| |[] mx ex] eqn:Ex,
    (Prim2SF y) as [[]|[]| |[] my ey] eqn:Ey; try done.
  all: rewrite !SFcompare_rank by done;
    rewrite (lexCompare_antisym (rank (S754_finite _ mx ex)));
    by destruct (lexCompare _ _).
Qed.

(** Nothing but [Infinity] is as large as [Infinity], and nothing but
    [-Infinity] as small as [-Infinity]. *)
Lemma infinity_leb (x : float) : (infinity <=? x) = true → x = infinity.
Proof.
  rewrite FloatAxioms.leb_spec. intros H. apply Prim2SF_inj.
  change (Prim2SF infinity) with (S754_infinity false) in *.
  by destruct (Prim2SF x) as [[]|[]| |[] mx ex].
Qed.

Lemma leb_neg_infinity (x : float) : (x <=? neg_infinity) = true → x = neg_infinity.
Proof.
  rewrite FloatAxioms.leb_spec. intros H. apply Prim2SF_inj.
  change (Prim2SF neg_infinity) with (S754_infinity true) in *.
  by destruct (Prim2SF x) as [[]|[]| |[] mx ex].
Qed.

(** *** Numbers that are not finite *)

Lemma is_finite_spec (x : float) :
  is_finite x = match Prim2SF x with
                | S754_zero _ | S754_finite _ _ _ => true
                | _ => false
                end.
Proof.
  unfold is_finite, is_nan, is_infinity.
  rewrite !FloatAxioms.eqb_spec, abs_spec. unfold SFeqb.
  change (Prim2SF infinity) with (S754_infinity false).
  destruct (Prim2SF x) as [[]|[]| |[] mx ex]; try done.
  all: rewrite SFcompare_rank, lexCompare_refl by done; done.
Qed.

(** [NaN] and the infinities absorb: a product or a difference whose left
    operand is not finite is not finite. *)
Lemma mul_not_finite (x y : float) : is_finite x = false → is_finite (x * y) = false.
Proof.
  rewrite !is_finite_spec, mul_spec. unfold SF64mul, SFmul.
  by destruct (Prim2SF x) as [[]|[]| |[] mx ex], (Prim2SF y) as [[]|[]| |[] my ey].
Qed.

Lemma sub_not_finite (x y : float) : is_finite x = false → is_finite (x - y) = false.
Proof.
  rewrite !is_finite_spec, sub_spec. unfold SF64sub, SFsub.
  by destruct (Prim2SF x) as [[]|[]| |[] mx ex], (Prim2SF y) as [[]|[]| |[] my ey].
Qed.

End OrderFacts.

(** ** The sign of a negative difference *)

Module DifferenceFacts.
Import FloatFacts OrderFacts.
#[local] Open Scope Z_scope.

Lemma binary_round_aux_not_below_zero mx ex lx :
  SFltb (binary_round_aux prec emax false mx ex lx) (S754_zero false) = false.
Proof.
  unfold binary_round_aux.
  destruct (shr_fexp prec emax mx ex lx) as [mrs' e'].
  destruct (shr_fexp prec emax _ e' loc_Exact) as [mrs'' e''].
  destruct (shr_m mrs''); [reflexivity| |reflexivity].
  destruct (Z.leb e'' (emax - prec)); reflexivity.
Qed.

Lemma binary_normalize_below_zero m e :
  SFltb (binary_normalize prec emax m e false) (S754_zero false) = true → m < 0.
Proof.
  destruct m as [|m|m]; cbn [binary_normalize]; [discriminate| |lia].
  unfold binary_round. destruct (shl_align _ _ _) as [mz ez].
  rewrite binary_round_aux_not_below_zero. discriminate.
Qed.

Lemma SF64sub_below_zero X Y :
  valid_binary X = true → valid_binary Y = true →
  SFltb (SF64sub X Y) (S754_zero false) = true → SFltb X Y = true.
Proof.
  intros HX HY.
  destruct X as [sx|sx| |sx mx ex], Y as [sy|sy| |sy my ey];
    try (destruct sx; try destruct sy; cbn; congruence);
    try (destruct sy; cbn; congruence);
    try (cbn; congruence).
  cbn [valid_binary] in HX, HY.
  unfold SF64sub, SFsub. intros H%binary_normalize_below_zero.
  rewrite <- (aligned_compare sy my ey sx mx ex HY HX), (Z.min_comm ey ex).
  apply Z.ltb_lt. lia.
Qed.

#[local] Open Scope float_scope.

(** A difference is negative only when the first number is the smaller
    one. *)
Lemma sub_below_zero (x y : float) : (x - y <? 0) = true → (x <? y) = true.
Proof.
  rewrite !FloatAxioms.ltb_spec, sub_spec. apply SF64sub_below_zero; apply Prim2SF_valid.
Qed.

Lemma sub_not_negative (x y : float) : (y <=? x) = true → (x - y <? 0) = false.
Proof.
  intros Hle. destruct (x - y <? 0) eqn:Hneg; [|done].
  apply sub_below_zero in Hneg. by rewrite (leb_not_ltb _ _ Hle) in Hneg.
Qed.

End DifferenceFacts.

(** ** Sorting *)

Module SortFacts.
Import Route OrderFacts.
#[local] Open Scope float_scope.

(** No element is [NaN]. *)
Definition numeric (l : list float) : Prop := Forall (fun x => is_nan x = false) l.

(** Every element is at most the ones after it. *)
Definition nondecreasing (l : list float) : Prop :=
  ∀ i j a b, (i ≤ j)%nat → l !! i = Some a → l !! j = Some b → (a <=? b) = true.

Lemma insertSorted_perm comparefn x sorted :
  insertSorted comparefn x sorted ≡ₚ x :: sorted.
Proof.
  induction sorted as [|y rest IH]; cbn; [done|].
  destruct (0 <? comparefn y x); [done|]. rewrite IH. apply Permutation_swap.
Qed.

Lemma sort_from_perm comparefn acc l :
  foldl (fun sorted x => insertSorted comparefn x sorted) acc l ≡ₚ acc ++ l.
Proof.
  revert acc. induction l as [|x l IH]; intros acc; cbn.
  - by rewrite app_nil_r.
  - rewrite IH, insertSorted_perm. cbn. apply Permutation_middle.
Qed.

Lemma sort_perm comparefn l : sort comparefn l ≡ₚ l.
Proof. unfold sort. by rewrite sort_from_perm. Qed.

Lemma insertSorted_sorted x sorted :
  is_nan x = false → numeric sorted →
  StronglySorted (fun a b => (a <=? b) = true) sorted →
  StronglySorted (fun a b => (a <=? b) = true) (insertSorted ascending x sorted).
Proof.
  intros Hx Hnum Hsorted.
  induction Hsorted as [|y rest Hrest IH Hy]; cbn.
  { repeat constructor. }
  apply Forall_cons in Hnum as [Hy' Hnum].
  unfold ascending at 1. rewrite FloatFacts.sub_sign.
  destruct (x <? y) eqn:Hlt.
  - constructor; [by constructor|].
    constructor; [by apply ltb_leb|].
    eapply Forall_impl; [exact Hy|]. cbn. intros z Hz.
    eapply leb_trans; [|exact Hz]. by apply ltb_leb.
  - constructor; [by apply IH|].
    rewrite insertSorted_perm. constructor; [by apply not_ltb_leb|done].
Qed.

Lemma sort_from_sorted acc l :
  numeric acc → numeric l →
  StronglySorted (fun a b => (a <=? b) = true) acc →
  StronglySorted (fun a b => (a <=? b) = true)
    (foldl (fun sorted x => insertSorted ascending x sorted) acc l).
Proof.
  intros Hacc Hl. revert acc Hacc.
  induction Hl as [|x l Hx Hl IH]; intros acc Hacc Hsorted; cbn; [done|].
  apply IH.
  - unfold numeric. rewrite insertSorted_perm. by constructor.
  - by apply insertSorted_sorted.
Qed.

Lemma StronglySorted_nondecreasing l :
  numeric l → StronglySorted (fun a b => (a <=? b) = true) l → nondecreasing l.
Proof.
  intros Hnum Hsorted i j a b Hij Hi Hj.
  destruct (decide (i = j)) as [->|Hne].
  - rewrite Hi in Hj. injection Hj as <-. apply leb_refl.
    unfold numeric in Hnum. rewrite Forall_forall in Hnum.
    apply Hnum. by eapply list_elem_of_lookup_2.
  - revert i j Hij Hne Hi Hj.
    induction Hsorted as [|y rest Hrest IH Hy]; intros i j Hij Hne Hi Hj; [done|].
    apply Forall_cons in Hnum as [_ Hnum].
    destruct i as [|i], j as [|j]; try lia.
    + cbn in Hi, Hj. injection Hi as <-. rewrite Forall_forall in Hy.
      apply Hy. by eapply list_elem_of_lookup_2.
    + cbn in Hi, Hj. apply (IH Hnum i j); [lia|lia|done|done].
Qed.

Lemma sort_numeric comparefn l : numeric l → numeric (sort comparefn l).
Proof. unfold numeric. by rewrite sort_perm. Qed.

Lemma sort_nondecreasing l : numeric l → nondecreasing (sort ascending l).
Proof.
  intros Hnum. apply StronglySorted_nondecreasing; [by apply sort_numeric|].
  apply sort_from_sorted; [constructor|done|constructor].
Qed.

(** Sorting with the comparator [(a, b) => a - b], as every route does:
    the result holds the same numbers, and when none of them is NaN it is
    in nondecreasing order. *)
Theorem sort_ascending_sorts (l : list float) :
  sort ascending l ≡ₚ l ∧
  (numeric l → numeric (sort ascending l) ∧ nondecreasing (sort ascending l)).
Proof.
  split; [apply sort_perm|]. intros Hnum.
  split; [by apply sort_numeric|by apply sort_nondecreasing].
Qed.

Lemma sort_ascending_sorts_witness :
  sort ascending [3; infinity; -1; 0; neg_infinity; 3] = [neg_infinity; -1; 0; 3; 3; infinity] ∧
  nondecreasing (sort ascending [3; infinity; -1; 0; neg_infinity; 3]).
Proof.
  split; [reflexivity|].
  apply (sort_ascending_sorts [3; infinity; -1; 0; neg_infinity; 3]).
  repeat constructor.
Defined.

End SortFacts.

(** ** Order statistics of the statistics routes *)

Module StatisticsFacts.
Import Route Host Ml SampleFacts OrderFacts SortFacts DifferenceFacts.
#[local] Open Scope float_scope.

Lemma Ok_inj {A} (a b : A) : Ok a = Ok b → a = b.
Proof. by intros [= ->]. Qed.

Lemma numbers_numeric (values : list value) :
  Forall (fun v => validNumber v = true) values → numeric (numbers values).
Proof.
  unfold numbers, numeric. induction 1 as [|v l Hv _ IH]; cbn; [constructor|].
  apply validNumber_spec in Hv as (x & -> & Hx). cbn. by constructor.
Qed.

(** What a sample that passed the two checks is. *)
Lemma checkValues_Ok values numericValues :
  checkValues values = Ok numericValues →
  ∃ vs, values = Some vs ∧ vs ≠ [] ∧ numericValues = numbers vs ∧
        length numericValues = length vs ∧ numeric numericValues.
Proof.
  unfold checkValues. destruct values as [[|v l]|]; try done.
  destruct (bool_decide _) eqn:Hlen; [done|].
  apply bool_decide_eq_false in Hlen. apply dec_stable in Hlen.
  pose proof Hlen as Hall. apply filter_length_all in Hall.
  rewrite (filter_all _ _ Hall). intros [= <-].
  exists (v :: l). split_and!; try done.
  - by apply (numbers_length (v :: l)).
  - by apply (numbers_numeric (v :: l)).
Qed.

Lemma quartiles_ordered (sortedArray : list float) :
  sortedArray ≠ [] → nondecreasing sortedArray →
  ∃ a b c, calculateQuartiles sortedArray = {| q1 := Some a; q2 := Some b; q3 := Some c |} ∧
           (a <=? b) = true ∧ (b <=? c) = true.
Proof.
  intros Hne Hsorted. set (n := length sortedArray).
  assert (Hn : (0 < n)%nat) by (subst n; destruct sortedArray; [done|cbn; lia]).
  destruct (lookup_lt_is_Some_2 sortedArray (floorTimes n 1 4)) as [a H1];
    [by apply QuartileFacts.floorTimes_lt; lia|].
  destruct (lookup_lt_is_Some_2 sortedArray (floorTimes n 1 2)) as [b H2];
    [by apply QuartileFacts.floorTimes_lt; lia|].
  destruct (lookup_lt_is_Some_2 sortedArray (floorTimes n 3 4)) as [c H3];
    [by apply QuartileFacts.floorTimes_lt; lia|].
  exists a, b, c. split_and!.
  - unfold calculateQuartiles. fold n. by rewrite H1, H2, H3.
  - refine (Hsorted _ _ _ _ _ H1 H2). unfold floorTimes.
    pose proof (Nat.div_mod_eq (n * 1) 4). pose proof (Nat.mod_upper_bound (n * 1) 4).
    pose proof (Nat.div_mod_eq (n * 1) 2). pose proof (Nat.mod_upper_bound (n * 1) 2).
    lia.
  - refine (Hsorted _ _ _ _ _ H2 H3). unfold floorTimes.
    pose proof (Nat.div_mod_eq (n * 3) 4). pose proof (Nat.mod_upper_bound (n * 3) 4).
    pose proof (Nat.div_mod_eq (n * 1) 2). pose proof (Nat.mod_upper_bound (n * 1) 2).
    lia.
Qed.

Section describe.
Context `{!JsMath, !SimpleStatistics}.

(** What a response of the descriptive route is made of. *)
Lemma describe_Ok values body :
  describe values = Ok body →
  ∃ numericValues meanVal stdVal,
    checkValues values = Ok numericValues ∧
    stat_count (stats body) = length numericValues ∧
    stat_quartiles (stats body) = calculateQuartiles (sort ascending numericValues) ∧
    stat_outliers (stats body) = detectOutliers (sort ascending numericValues) ∧
    skewness body = calculateSkewness numericValues meanVal stdVal ∧
    kurtosis body = calculateKurtosis numericValues meanVal stdVal.
Proof.
  unfold describe. destruct (checkValues values) as [numericValues|]; [|done].
  cbn [mbind response_bind].
  destruct (mean numericValues) as [meanVal|]; [|done].
  destruct (median numericValues); [|done].
  destruct (mode numericValues); [|done].
  destruct (min numericValues); [|done].
  destruct (max numericValues); [|done].
  destruct (variance numericValues); [|done].
  destruct (standardDeviation numericValues) as [stdVal|]; [|done].
  cbn. intros [= <-]. exists numericValues, meanVal, stdVal. done.
Qed.

(** In every response of the descriptive route the three quartiles are
    numbers of the sample, in order: q1 <= q2 <= q3. *)
Theorem describe_quartiles_ordered values body :
  describe values = Ok body →
  ∃ a b c,
    stat_quartiles (stats body) = {| q1 := Some a; q2 := Some b; q3 := Some c |} ∧
    (a <=? b) = true ∧ (b <=? c) = true.
Proof.
  intros (numericValues & _ & _ & Hcheck & _ & -> & _)%describe_Ok.
  apply checkValues_Ok in Hcheck as (vs & _ & Hne & _ & Hlen & Hnum).
  apply quartiles_ordered.
  - intros Hnil. pose proof (sort_perm ascending numericValues) as Hperm.
    rewrite Hnil in Hperm. apply Permutation_nil_l in Hperm.
    rewrite <- Hperm in Hlen. destruct vs; [done|cbn in Hlen; lia].
  - by apply sort_nondecreasing.
Qed.

(** With fewer than three values the skewness, and with fewer than four
    the kurtosis, divides by zero: neither is ever a finite number. *)
Theorem describe_small_sample_moments (values : list value) body :
  describe (Some values) = Ok body →
  ((length values ≤ 2)%nat → is_finite (skewness body) = false) ∧
  ((length values ≤ 3)%nat → is_finite (kurtosis body) = false).
Proof.
  intros (numericValues & meanVal & stdVal & Hcheck & _ & _ & _ & -> & ->)%describe_Ok.
  apply checkValues_Ok in Hcheck as (vs & [= <-] & Hne & _ & Hlen & _).
  assert (Hn : (0 < length values)%nat) by (destruct values; [done|cbn; lia]).
  unfold calculateSkewness, calculateKurtosis. rewrite Hlen. split; intros Hsmall.
  - apply mul_not_finite.
    destruct (length values) as [|[|[|n]]]; [lia|reflexivity|reflexivity|lia].
  - apply sub_not_finite, mul_not_finite.
    destruct (length values) as [|[|[|[|n]]]]; [lia|reflexivity|reflexivity|reflexivity|lia].
Qed.

End describe.

Lemma describe_quartiles_ordered_witness :
  ∃ body,
    @describe Reference.math Reference.statistics
      (Some [JNumber 7; JNumber 1; JNumber 5; JNumber 3; JNumber 9]) = Ok body ∧
    ∃ a b c,
      stat_quartiles (stats body) = {| q1 := Some a; q2 := Some b; q3 := Some c |} ∧
      (a <=? b) = true ∧ (b <=? c) = true.
Proof.
  destruct (@describe Reference.math Reference.statistics
              (Some [JNumber 7; JNumber 1; JNumber 5; JNumber 3; JNumber 9]))
    as [body|] eqn:Hbody; [|vm_compute in Hbody; discriminate].
  exists body. split; [reflexivity|].
  exact (@describe_quartiles_ordered Reference.math Reference.statistics _ _ Hbody).
Defined.

Lemma describe_small_sample_moments_witness :
  ∃ body,
    @describe Reference.math Reference.statistics (Some [JNumber 1; JNumber 3]) = Ok body ∧
    is_finite (skewness body) = false ∧ is_finite (kurtosis body) = false.
Proof.
  destruct (@describe Reference.math Reference.statistics (Some [JNumber 1; JNumber 3]))
    as [body|] eqn:Hbody; [|vm_compute in Hbody; discriminate].
  exists body. split; [reflexivity|].
  destruct (@describe_small_sample_moments Reference.math Reference.statistics _ _ Hbody)
    as [Hskew Hkurt].
  split; [apply Hskew|apply Hkurt]; cbn; lia.
Defined.

(** *** The robust scale *)

Section robust.
Context `{!SimpleStatistics}.

(** The robust method divides by the distance between two quartiles of
    the sample, the first at most the third: the scale is never negative. *)
Theorem normalize_robust_scale (values : list value) body :
  normalize (Some values) (Some "robust") = Ok body →
  ∃ med a c,
    parameters_used body = Robust med (Some a) (Some c) (c - a) ∧
    (a <=? c) = true ∧ (c - a <? 0) = false.
Proof.
  unfold normalize. cbn [default from_option id].
  destruct (checkValues (Some values)) as [numericData|] eqn:Hcheck; [|done].
  cbn [mbind response_bind]. unfold rescale.
  rewrite !bool_decide_eq_false_2, bool_decide_eq_true_2 by done.
  destruct (median numericData) as [med|]; [|done].
  cbn [orThrow mbind response_bind].
  destruct (summarize numericData) as [orig|]; [|done].
  cbn [mbind response_bind].
  destruct (summarize _) as [norm|]; [|done].
  cbn [mbind response_bind]. intros <-%Ok_inj. cbn [parameters_used].
  apply checkValues_Ok in Hcheck as (vs & [= <-] & Hne & _ & Hlen & Hnum).
  destruct (quartiles_ordered (sort ascending numericData)) as (a & b & c & -> & Hab & Hbc).
  - intros Hnil. pose proof (sort_perm ascending numericData) as Hperm.
    rewrite Hnil in Hperm. apply Permutation_nil_l in Hperm.
    rewrite <- Hperm in Hlen. destruct values; [done|cbn in Hlen; lia].
  - by apply sort_nondecreasing.
  - exists med, a, c. cbn [q1 q3 toNumber default from_option id].
    assert (Hac : (a <=? c) = true) by by eapply leb_trans.
    split_and!; [done|done|by apply sub_not_negative].
Qed.

End robust.

Lemma normalize_robust_scale_witness :
  ∃ body,
    @normalize Reference.statistics
      (Some [JNumber 7; JNumber 1; JNumber 5; JNumber 3; JNumber 9]) (Some "robust") = Ok body ∧
    ∃ med a c,
      parameters_used body = Robust med (Some a) (Some c) (c - a) ∧
      (a <=? c) = true ∧ (c - a <? 0) = false.
Proof.
  destruct (@normalize Reference.statistics
              (Some [JNumber 7; JNumber 1; JNumber 5; JNumber 3; JNumber 9]) (Some "robust"))
    as [body|] eqn:Hbody; [|vm_compute in Hbody; discriminate].
  exists body. split; [reflexivity|].
  exact (@normalize_robust_scale Reference.statistics _ _ Hbody).
Defined.

(** *** [/api/stats] *)

Lemma Math_min_from (l : list float) (lowest : float) :
  numeric l → is_nan lowest = false →
  let r := foldl (fun lowest x =>
                    if is_nan x || is_nan lowest then nan
                    else if (x <? lowest) || ((x =? lowest) && Server.isNegativeZero x) then x
                    else lowest) lowest l in
  is_nan r = false ∧ (r = lowest ∨ r ∈ l) ∧ (r <=? lowest) = true ∧
  ∀ x, x ∈ l → (r <=? x) = true.
Proof.
  intros Hl. revert lowest. induction Hl as [|x l Hx Hl IH]; intros lowest Hlow; cbn.
  { split_and!; [done|by left|by apply leb_refl|by intros ? ?%elem_of_nil]. }
  rewrite Hx, Hlow. cbn [orb].
  set (lowest' := if (x <? lowest) || _ then x else lowest).
  assert (Hnext : is_nan lowest' = false ∧ (lowest' = lowest ∨ lowest' = x) ∧
                  (lowest' <=? lowest) = true ∧ (lowest' <=? x) = true).
  { subst lowest'. destruct (x <? lowest) eqn:Hlt; cbn [orb].
    - split_and!; [done|by right|by apply ltb_leb|by apply leb_refl].
    - destruct (x =? lowest) eqn:Heq; cbn [andb].
      + apply eqb_leb in Heq as [Hle Hge]. destruct (Server.isNegativeZero x).
        * split_and!; [done|by right|done|by apply leb_refl].
        * split_and!; [done|by left|by apply leb_refl|done].
      + split_and!; [done|by left|by apply leb_refl|by apply not_ltb_leb]. }
  destruct Hnext as (Hnan & Hwhich & Hle1 & Hle2).
  destruct (IH lowest' Hnan) as (Hr & Hin & Hrl & Hall). split_and!.
  - done.
  - destruct Hin as [->|Hin]; [|right; by right].
    destruct Hwhich as [->| ->]; [by left|right; by left].
  - by eapply leb_trans.
  - intros y [->|Hy]%elem_of_cons; [by eapply leb_trans|by apply Hall].
Qed.

Lemma Math_max_from (l : list float) (highest : float) :
  numeric l → is_nan highest = false →
  let r := foldl (fun highest x =>
                    if is_nan x || is_nan highest then nan
                    else if (highest <? x) || ((x =? highest) && Server.isNegativeZero highest) then x
                    else highest) highest l in
  is_nan r = false ∧ (r = highest ∨ r ∈ l) ∧ (highest <=? r) = true ∧
  ∀ x, x ∈ l → (x <=? r) = true.
Proof.
  intros Hl. revert highest. induction Hl as [|x l Hx Hl IH]; intros highest Hhigh; cbn.
  { split_and!; [done|by left|by apply leb_refl|by intros ? ?%elem_of_nil]. }
  rewrite Hx, Hhigh. cbn [orb].
  set (highest' := if (highest <? x) || _ then x else highest).
  assert (Hnext : is_nan highest' = false ∧ (highest' = highest ∨ highest' = x) ∧
                  (highest <=? highest') = true ∧ (x <=? highest') = true).
  { subst highest'. destruct (highest <? x) eqn:Hlt; cbn [orb].
    - split_and!; [done|by right|by apply ltb_leb|by apply leb_refl].
    - destruct (x =? highest) eqn:Heq; cbn [andb].
      + apply eqb_leb in Heq as [Hle Hge]. destruct (Server.isNegativeZero highest).
        * split_and!; [done|by right|done|by apply leb_refl].
        * split_and!; [done|by left|by apply leb_refl|done].
      + split_and!; [done|by left|by apply leb_refl|by apply not_ltb_leb]. }
  destruct Hnext as (Hnan & Hwhich & Hle1 & Hle2).
  destruct (IH highest' Hnan) as (Hr & Hin & Hrl & Hall). split_and!.
  - done.
  - destruct Hin as [->|Hin]; [|right; by right].
    destruct Hwhich as [->| ->]; [by left|right; by left].
  - by eapply leb_trans.
  - intros y [->|Hy]%elem_of_cons; [by eapply leb_trans|by apply Hall].
Qed.

(** The least and the greatest number of an array without NaN. *)
Lemma Math_min_least (l : list float) :
  l ≠ [] → numeric l →
  Server.Math_min l ∈ l ∧ ∀ x, x ∈ l → (Server.Math_min l <=? x) = true.
Proof.
  intros Hne Hl. destruct (Math_min_from l infinity Hl eq_refl) as (_ & Hin & _ & Hall).
  split; [|done]. destruct Hin as [Hinf|Hin]; [|done].
  destruct l as [|x l]; [done|].
  assert (Hx : x = infinity).
  { apply infinity_leb. unfold Server.Math_min in Hinf. rewrite <- Hinf. apply Hall. by left. }
  unfold Server.Math_min. rewrite Hinf, <- Hx. by left.
Qed.

Lemma Math_max_greatest (l : list float) :
  l ≠ [] → numeric l →
  Server.Math_max l ∈ l ∧ ∀ x, x ∈ l → (x <=? Server.Math_max l) = true.
Proof.
  intros Hne Hl. destruct (Math_max_from l neg_infinity Hl eq_refl) as (_ & Hin & _ & Hall).
  split; [|done]. destruct Hin as [Hinf|Hin]; [|done].
  destruct l as [|x l]; [done|].
  assert (Hx : x = neg_infinity).
  { apply leb_neg_infinity. unfold Server.Math_max in Hinf. rewrite <- Hinf. apply Hall. by left. }
  unfold Server.Math_max. rewrite Hinf, <- Hx. by left.
Qed.

Lemma elem_of_numbers (values : list value) (x : float) :
  x ∈ numbers values ↔ JNumber x ∈ values.
Proof.
  unfold numbers. rewrite list_elem_of_omap. split.
  - intros (v & Hv & Hx). destruct v; try done. by injection Hx as ->.
  - intros Hx. by exists (JNumber x).
Qed.

Section stats.
Context `{!JsMath, !Engine}.

(** In every response of [/api/stats], [min] and [max] are values of the
    array, and every value lies between them. *)
Theorem stats_min_max (values : list value) (st : Server.statistics) :
  Server.stats (Some values) = Ok st →
  JNumber (Server.min st) ∈ values ∧ JNumber (Server.max st) ∈ values ∧
  (∀ x, JNumber x ∈ values →
     (Server.min st <=? x) = true ∧ (x <=? Server.max st) = true) ∧
  Server.range st = Server.max st - Server.min st ∧
  (Server.range st <? 0) = false.
Proof.
  unfold Server.stats, Server.spread.
  destruct (checkValues (Some values)) as [numericValues|] eqn:Hcheck; [|done].
  cbn [mbind response_bind]. cbv zeta.
  destruct (argumentsFit (length numericValues)); [|done].
  cbn [mbind response_bind]. intros [= <-]. cbn.
  apply checkValues_Ok in Hcheck as (vs & [= <-] & Hne & Hnums & Hlen & Hnum).
  assert (Hne' : numericValues ≠ []).
  { intros ->. destruct values; [done|cbn in Hlen; lia]. }
  destruct (Math_min_least _ Hne' Hnum) as [Hmin Hleast].
  destruct (Math_max_greatest _ Hne' Hnum) as [Hmax Hgreatest].
  rewrite <- !elem_of_numbers, <- Hnums. split_and!; [done|done| |done|].
  - intros x Hx. rewrite <- elem_of_numbers, <- Hnums in Hx.
    split; [by apply Hleast|by apply Hgreatest].
  - apply sub_not_negative. eapply leb_trans; [by apply Hleast|by apply Hgreatest].
Qed.

(** The median of [/api/stats] is the median: with the values arranged
    in nondecreasing order it is the one in the middle when their number is
    odd, and half the sum of the two in the middle when it is even. *)
Theorem stats_median (values : list value) (st : Server.statistics) :
  Server.stats (Some values) = Ok st →
  ∃ sorted,
    sorted ≡ₚ numbers values ∧ nondecreasing sorted ∧
    let n := length values in
    if Nat.even n
    then ∃ lo hi, sorted !! (n / 2 - 1)%nat = Some lo ∧ sorted !! (n / 2)%nat = Some hi ∧
                  (lo <=? hi) = true ∧ Server.median st = (lo + hi) / 2
    else ∃ m, sorted !! (n / 2)%nat = Some m ∧ Server.median st = m ∧ JNumber m ∈ values.
Proof.
  unfold Server.stats, Server.spread.
  destruct (checkValues (Some values)) as [numericValues|] eqn:Hcheck; [|done].
  cbn [mbind response_bind]. cbv zeta.
  destruct (argumentsFit (length numericValues)); [|done].
  cbn [mbind response_bind]. intros <-%Ok_inj. cbn [Server.median].
  apply checkValues_Ok in Hcheck as (vs & [= <-] & Hne & Hnums & Hlen & Hnum).
  set (sorted := sort ascending numericValues).
  assert (Hperm : sorted ≡ₚ numericValues) by apply sort_perm.
  assert (Hsorted : nondecreasing sorted) by by apply sort_nondecreasing.
  assert (Hlength : length sorted = length values) by by rewrite Hperm.
  assert (Hn : (0 < length values)%nat) by (destruct values; [done|cbn; lia]).
  exists sorted. rewrite <- Hnums. split_and!; [done|done|].
  rewrite Hlen. set (n := length values) in *.
  pose proof (Nat.div_mod_eq n 2) as Hdiv.
  pose proof (Nat.mod_upper_bound n 2 ltac:(lia)) as Hmod.
  destruct (n mod 2 =? 0)%nat eqn:Heven.
  - apply Nat.eqb_eq in Heven.
    assert (He : Nat.even n = true) by (apply Nat.even_spec; exists (n / 2)%nat; lia).
    rewrite He.
    destruct (lookup_lt_is_Some_2 sorted (n / 2 - 1)) as [lo Hlo]; [lia|].
    destruct (lookup_lt_is_Some_2 sorted (n / 2)) as [hi Hhi]; [lia|].
    exists lo, hi. rewrite Hlo, Hhi. split_and!; try done.
    apply (Hsorted (n / 2 - 1)%nat (n / 2)%nat); [lia|done|done].
  - apply Nat.eqb_neq in Heven.
    assert (He : Nat.even n = false).
    { apply not_true_is_false. intros [k Hk]%Nat.even_spec. lia. }
    rewrite He.
    destruct (lookup_lt_is_Some_2 sorted (n / 2)) as [m Hm]; [lia|].
    exists m. rewrite Hm. split_and!; try done.
    rewrite <- elem_of_numbers, <- Hnums, <- Hperm. by eapply list_elem_of_lookup_2.
Qed.

End stats.

Lemma stats_min_max_witness :
  ∃ st, @Server.stats Reference.math Reference.engine (Some [JNumber 4; JNumber (-2); JNumber 9]) = Ok st ∧
        JNumber (Server.min st) ∈ [JNumber 4; JNumber (-2); JNumber 9] ∧
        JNumber (Server.max st) ∈ [JNumber 4; JNumber (-2); JNumber 9] ∧
        (∀ x, JNumber x ∈ [JNumber 4; JNumber (-2); JNumber 9] →
           (Server.min st <=? x) = true ∧ (x <=? Server.max st) = true) ∧
        Server.range st = Server.max st - Server.min st ∧
        (Server.range st <? 0) = false.
Proof.
  destruct (@Server.stats Reference.math Reference.engine (Some [JNumber 4; JNumber (-2); JNumber 9]))
    as [st|] eqn:Hst; [|vm_compute in Hst; discriminate].
  exists st. split; [reflexivity|].
  exact (@stats_min_max Reference.math Reference.engine _ _ Hst).
Defined.

Lemma stats_median_witness :
  ∃ st, @Server.stats Reference.math Reference.engine (Some [JNumber 4; JNumber (-2); JNumber 9]) = Ok st ∧
        ∃ m, Server.median st = m ∧ JNumber m ∈ [JNumber 4; JNumber (-2); JNumber 9].
Proof.
  destruct (@Server.stats Reference.math Reference.engine (Some [JNumber 4; JNumber (-2); JNumber 9]))
    as [st|] eqn:Hst; [|vm_compute in Hst; discriminate].
  exists st. split; [reflexivity|].
  destruct (@stats_median Reference.math Reference.engine _ _ Hst) as (sorted & _ & _ & m & _ & Hm & Hin).
  by exists m.
Defined.

End StatisticsFacts.

(** ** The correlation matrix, entry by entry *)

Module SymmetryFacts.
Import Route Host Ml SampleFacts CorrelationFacts.
#[local] Open Scope float_scope.

Lemma mul_comm (x y : float) : x * y = y * x.
Proof.
  apply Prim2SF_inj. rewrite !mul_spec. unfold SF64mul, SFmul.
  destruct (Prim2SF x) as [sx|sx| |sx mx ex], (Prim2SF y) as [sy|sy| |sy my ey];
    try done; try by rewrite xorb_comm.
  by rewrite xorb_comm, Pos.mul_comm, Z.add_comm.
Qed.

(** A sum over the elements of [x] that reads [y] by index is a sum over
    the pairs of the two arrays. *)
Lemma reduce_indexed (F : float → float → float) (Y : list float) (x y : list float)
    (h : nat → nat) (a : float) :
  length x = length y →
  (∀ i yi, y !! i = Some yi → Y !! h i = Some yi) →
  foldl (fun sum '(i, xi) => sum + F xi (toNumber (Y !! i))) a (imap (fun i => pair (h i)) x)
  = foldl (fun sum '(xi, yi) => sum + F xi yi) a (zip x y).
Proof.
  revert y h a. induction x as [|x0 x IH]; intros [|y0 y] h a Hlen Hy; try done.
  cbn. rewrite (Hy 0%nat y0 eq_refl). cbn.
  apply (IH y (h ∘ S)); [by injection Hlen|].
  intros i yi Hi. by apply (Hy (S i)).
Qed.

Lemma reduce_swap (F G : float → float → float) (x y : list float) (a : float) :
  (∀ u v, F u v = G v u) →
  foldl (fun sum '(xi, yi) => sum + F xi yi) a (zip x y)
  = foldl (fun sum '(yi, xi) => sum + G yi xi) a (zip y x).
Proof.
  intros HFG. revert y a. induction x as [|x0 x IH]; intros [|y0 y] a; try done.
  cbn. rewrite HFG. apply IH.
Qed.

Section symmetry.
Context `{!JsMath, !SimpleStatistics}.

(** Pearson's coefficient, as the route computes it, does not depend on
    the order of the two samples. *)
Lemma calculateCorrelation_comm (x y : list float) :
  length x = length y → calculateCorrelation x y = calculateCorrelation y x.
Proof.
  intros Hlen. unfold calculateCorrelation.
  destruct (mean x) as [meanX|], (mean y) as [meanY|]; try done.
  cbn [orThrow mbind response_bind]. f_equal. f_equal.
  - change (indexed x) with (imap (fun i => pair (id i)) x).
    change (indexed y) with (imap (fun i => pair (id i)) y).
    rewrite (reduce_indexed (fun xi yi => (xi - meanX) * (yi - meanY)) y x y id)
      by done.
    rewrite (reduce_indexed (fun yi xi => (yi - meanY) * (xi - meanX)) x y x id)
      by done.
    apply reduce_swap. intros u v. apply mul_comm.
  - by rewrite mul_comm.
Qed.

(** The entries the inner loop computes: off the diagonal, the coefficient
    of the two samples. *)
Lemma columns_correlations datasets i var1 rest cm pv cm' pv' :
  columns datasets i var1 rest (cm, pv) = Ok (cm', pv') →
  NoDup rest.*2 →
  ∀ j var2, (j, var2) ∈ rest → j ≠ i → var1 ≠ proto → var2 ≠ proto →
    ∃ d1 d2 corr,
      lookupKey datasets var1 = Some d1 ∧ lookupKey datasets var2 = Some d2 ∧
      calculateCorrelation d1 d2 = Ok corr ∧ entry cm' var1 var2 = Some corr.
Proof.
  revert cm pv. induction rest as [|[j0 v0] rest IH];
    intros cm pv Hrun Hnd j var2 Hin Hj Hp1 Hp2.
  { by apply elem_of_nil in Hin. }
  cbn in Hnd. apply NoDup_cons in Hnd as [Hfresh Hnd].
  cbn [columns] in Hrun.
  apply elem_of_cons in Hin as [[= -> ->]|Hin].
  - destruct (i =? j0)%nat eqn:Hij; [apply Nat.eqb_eq in Hij; congruence|].
    unfold property in Hrun.
    destruct (lookupKey datasets var1) as [d1|]; [|done].
    destruct (lookupKey datasets v0) as [d2|]; [|done].
    cbn [orThrow mbind response_bind] in Hrun.
    destruct (calculateCorrelation d1 d2) as [corr|] eqn:Hcorr; [|done].
    cbn [mbind response_bind] in Hrun.
    exists d1, d2, corr. split_and!; try done.
    apply columns_entries in Hrun as [Hsame _]; [|done].
    destruct (Hsame var1 v0 (or_intror (or_introl Hfresh))) as [-> _].
    by rewrite entry_setEntry, decide_True.
  - destruct (i =? j0)%nat; [by eapply IH|].
    destruct (property datasets var1) as [d1|]; [|done].
    destruct (property datasets v0) as [d2|]; [|done].
    cbn [mbind response_bind] in Hrun.
    destruct (calculateCorrelation d1 d2) as [corr|]; [|done].
    cbn [mbind response_bind] in Hrun. by eapply IH.
Qed.

Lemma rows_correlations datasets variables rest cm pv cm' pv' :
  rows datasets variables rest (cm, pv) = Ok (cm', pv') →
  NoDup rest.*2 →
  NoDup variables →
  ∀ i var1 j var2, (i, var1) ∈ rest → variables !! j = Some var2 → j ≠ i →
    var1 ≠ proto → var2 ≠ proto →
    ∃ d1 d2 corr,
      lookupKey datasets var1 = Some d1 ∧ lookupKey datasets var2 = Some d2 ∧
      calculateCorrelation d1 d2 = Ok corr ∧ entry cm' var1 var2 = Some corr.
Proof.
  intros Hrun Hnd Hvars. revert cm pv Hrun.
  induction rest as [|[i0 v0] rest IH];
    intros cm pv Hrun i var1 j var2 Hin Hj Hne Hp1 Hp2.
  { by apply elem_of_nil in Hin. }
  cbn in Hnd. apply NoDup_cons in Hnd as [Hfresh Hnd].
  cbn [rows] in Hrun.
  destruct (columns datasets i0 v0 (indexed variables) _) as [[cm1 pv1]|] eqn:Hcols;
    [|done].
  cbn [mbind response_bind] in Hrun.
  apply elem_of_cons in Hin as [[= -> ->]|Hin]; [|by eapply IH].
  destruct (columns_correlations _ _ _ _ _ _ _ _ Hcols) with (j := j) (var2 := var2)
    as (d1 & d2 & corr & H1 & H2 & Hcorr & Hentry);
    [by rewrite indexed_names|by apply elem_of_indexed|done..|].
  exists d1, d2, corr. split_and!; try done.
  apply rows_entries in Hrun as [Hsame _]; [|done|done].
  by destruct (Hsame v0 var2 (or_introl Hfresh)) as [-> _].
Qed.

(** The entries of the correlation matrix of a response: 1 on the
    diagonal, the coefficient of the two samples elsewhere. *)
Lemma correlation_matrix_entries datasets method n body :
  validInput datasets n →
  correlation (Some datasets) method = Ok body →
  ∀ var1 var2, var1 ∈ datasets.*1 → var2 ∈ datasets.*1 →
    var1 ≠ proto → var2 ≠ proto →
    ∃ r, entry (correlation_matrix body) var1 var2 = Some r ∧
         (var1 = var2 → r = 1) ∧
         (var1 ≠ var2 →
            ∃ d1 d2, lookupKey datasets var1 = Some d1 ∧ lookupKey datasets var2 = Some d2 ∧
                     length d1 = n ∧ length d2 = n ∧
                     calculateCorrelation d1 d2 = Ok r).
Proof.
  intros Hvalid Hbody var1 var2 [i Hi]%list_elem_of_lookup [j Hj]%list_elem_of_lookup
    Hp1 Hp2.
  pose proof Hvalid as (Hnd & _ & Hall).
  destruct (decide (i = j)) as [->|Hij].
  { rewrite Hi in Hj. injection Hj as <-. exists 1. split_and!; [|done|done].
    by destruct (correlation_entries _ _ _ _ Hvalid Hbody j var1 j var1 Hi Hi Hp1 Hp1)
      as [[-> _] _]. }
  assert (Hne : var1 ≠ var2).
  { intros ->. by pose proof (NoDup_lookup _ _ _ _ Hnd Hi Hj). }
  rewrite (correlation_runs _ _ _ Hvalid) in Hbody.
  destruct (rows _ _ _ _) as [[cm pv]|] eqn:Hrows; [|done].
  cbn in Hbody. injection Hbody as <-. cbn.
  pose proof (rows_correlations _ _ _ _ _ _ _ Hrows) as Hentries.
  rewrite indexed_names in Hentries. specialize (Hentries Hnd Hnd).
  destruct (Hentries i var1 j var2) as (d1 & d2 & corr & H1 & H2 & Hcorr & ->);
    [by apply elem_of_indexed|done..|].
  exists corr. split_and!; [done|done|]. intros _. exists d1, d2.
  rewrite Forall_forall in Hall.
  destruct (lookupKey_elem datasets var1) as (e1 & He1 & Hin1);
    [by eapply list_elem_of_lookup_2|].
  destruct (lookupKey_elem datasets var2) as (e2 & He2 & Hin2);
    [by eapply list_elem_of_lookup_2|].
  rewrite H1 in He1. injection He1 as <-. rewrite H2 in He2. injection He2 as <-.
  split_and!; try done; by apply Hall.
Qed.

(** The correlation matrix of a response is symmetric, and complete but
    for one name: the entry of [(var1, var2)] is the entry of
    [(var2, var1)], and every pair of variables has an entry, unless one of
    the two is named [__proto__]. *)
Theorem correlation_matrix_symmetric datasets method n body :
  validInput datasets n →
  correlation (Some datasets) method = Ok body →
  (∀ var1 var2,
     entry (correlation_matrix body) var1 var2 = entry (correlation_matrix body) var2 var1) ∧
  (∀ var1 var2, var1 ∈ datasets.*1 → var2 ∈ datasets.*1 →
     var1 ≠ proto → var2 ≠ proto →
     is_Some (entry (correlation_matrix body) var1 var2)).
Proof.
  intros Hvalid Hbody. split; cycle 1.
  { intros var1 var2 H1 H2 Hp1 Hp2.
    destruct (correlation_matrix_entries _ _ _ _ Hvalid Hbody var1 var2 H1 H2 Hp1 Hp2)
      as (r & -> & _). done. }
  intros var1 var2.
  destruct (decide (var1 ∈ datasets.*1 ∧ var2 ∈ datasets.*1 ∧ var1 ≠ proto ∧ var2 ≠ proto))
    as [(H1 & H2 & Hp1 & Hp2)|Hout].
  - destruct (correlation_matrix_entries _ _ _ _ Hvalid Hbody var1 var2 H1 H2 Hp1 Hp2)
      as (r & Hr & _ & Hoff).
    destruct (correlation_matrix_entries _ _ _ _ Hvalid Hbody var2 var1 H2 H1 Hp2 Hp1)
      as (r' & Hr' & _ & Hoff').
    destruct (decide (var1 = var2)) as [->|Hne]; [done|].
    rewrite Hr, Hr'. f_equal.
    destruct (Hoff Hne) as (d1 & d2 & Hd1 & Hd2 & Hl1 & Hl2 & Hcorr).
    destruct (Hoff' (not_eq_sym Hne)) as (d2' & d1' & Hd2' & Hd1' & _ & _ & Hcorr').
    rewrite Hd1 in Hd1'. injection Hd1' as <-. rewrite Hd2 in Hd2'. injection Hd2' as <-.
    rewrite calculateCorrelation_comm, Hcorr in Hcorr' by congruence.
    by injection Hcorr'.
  - assert (Hab : var1 ∉ datasets.*1 ∨ var2 ∉ datasets.*1 ∨ var1 = proto ∨ var2 = proto).
    { destruct (decide (var1 ∈ datasets.*1)); [|by auto].
      destruct (decide (var2 ∈ datasets.*1)); [|by auto].
      destruct (decide (var1 = proto)); [by auto|].
      destruct (decide (var2 = proto)); [by auto|]. tauto. }
    destruct (correlation_absent _ _ _ _ Hvalid Hbody var1 var2 Hab) as [-> _].
    destruct (correlation_absent _ _ _ _ Hvalid Hbody var2 var1) as [-> _]; [tauto|done].
Qed.

(** *** The interpretations *)

(** The key of a pair of variables in the object of interpretations. *)
Definition pairKey (p : string * string) : string := p.1 +:+ "_" +:+ p.2.

(** One turn of the inner loop of [interpretCorrelations]. *)
Definition interpret (m : gmap string (gmap string float))
    (interpretations : gmap string interpretation) (p : string * string)
    : gmap string interpretation :=
  let '(var1, var2) := p in
  let corr := m !! var1 ≫= (.!! var2) in
  let strength :=
    if PrimFloat.abs (toNumber corr) <? 0.3 then fraca
    else if PrimFloat.abs (toNumber corr) <? 0.7 then moderada
    else forte in
  let direction := if 0 <? toNumber corr then positiva else negativa in
  assign interpretations (var1 +:+ "_" +:+ var2)
    {| int_correlation := corr;
       int_strength := strength;
       int_direction := direction |}.

Lemma interpretCorrelations_interpret variables m :
  interpretCorrelations variables m = foldl (interpret m) ∅ (pairs variables).
Proof. reflexivity. Qed.

Lemma interpret_untouched (m : gmap string (gmap string float)) l
    (acc : gmap string interpretation) (key : string) :
  key ∉ map pairKey l ∨ key = proto →
  foldl (interpret m) acc l !! key = acc !! key.
Proof.
  revert acc. induction l as [|[a b] l IH]; intros acc Hkey; cbn [foldl]; [done|].
  rewrite IH; cycle 1.
  { destruct Hkey as [Hkey|?]; [|by right]. left. cbn [map] in Hkey.
    by apply not_elem_of_cons in Hkey as [_ ?]. }
  unfold interpret, assign. cbv zeta.
  destruct (bool_decide (a +:+ "_" +:+ b = proto)) eqn:Hp; [done|].
  apply bool_decide_eq_false in Hp. rewrite lookup_insert_ne; [done|].
  destruct Hkey as [Hkey| ->]; [|done]. cbn [map] in Hkey.
  by apply not_elem_of_cons in Hkey as [Hne _].
Qed.

Lemma interpret_lookup (m : gmap string (gmap string float)) l
    (acc : gmap string interpretation) var1 var2 :
  NoDup (map pairKey l) → (var1, var2) ∈ l → var1 +:+ "_" +:+ var2 ≠ proto →
  foldl (interpret m) acc l !! (var1 +:+ "_" +:+ var2)
  = Some {| int_correlation := entry m var1 var2;
            int_strength :=
              if PrimFloat.abs (toNumber (entry m var1 var2)) <? 0.3 then fraca
              else if PrimFloat.abs (toNumber (entry m var1 var2)) <? 0.7 then moderada
              else forte;
            int_direction :=
              if 0 <? toNumber (entry m var1 var2) then positiva else negativa |}.
Proof.
  revert acc. induction l as [|[a b] l IH]; intros acc Hnd Hin Hp.
  { by apply elem_of_nil in Hin. }
  cbn [map] in Hnd. apply NoDup_cons in Hnd as [Hfresh Hnd]. cbn [foldl].
  apply elem_of_cons in Hin as [[= -> ->]|Hin]; [|by apply IH].
  rewrite interpret_untouched by by left.
  unfold interpret, assign. cbv zeta.
  rewrite bool_decide_eq_false_2 by done. by rewrite lookup_insert_eq.
Qed.

Lemma elem_of_keys (variables : list string) v :
  v ∈ keys variables ↔ v ∈ variables ∧ v ≠ proto.
Proof.
  unfold keys. rewrite !list_elem_of_In, filter_In, negb_true_iff, bool_decide_eq_false.
  done.
Qed.

Lemma elem_of_pairs {A} (l : list A) x y : (x, y) ∈ pairs l → x ∈ l ∧ y ∈ l.
Proof.
  induction l as [|a l IH]; cbn [pairs]; [by intros ?%elem_of_nil|].
  intros [Hin|Hin]%elem_of_app.
  - apply list_elem_of_fmap in Hin as (b & [= -> ->] & Hb). split; [by left|by right].
  - destruct (IH Hin). split; by right.
Qed.

(** The interpretations of a response.  The pairs are those of the keys
    of the matrix, so a variable named [__proto__] is in none.  Every pair
    has an interpretation under the key [var1_var2], as long as no two
    pairs share a key and the key is not [__proto__] itself: it reports
    the entry of the matrix, calls it weak below 0.3 in magnitude,
    moderate below 0.7 and strong otherwise, and positive when it is above
    zero.  Under the name [__proto__] there is no interpretation. *)
Theorem correlation_interpretations datasets method n body :
  validInput datasets n →
  correlation (Some datasets) method = Ok body →
  NoDup (map pairKey (pairs (keys datasets.*1))) →
  (∀ var1 var2, (var1, var2) ∈ pairs (keys datasets.*1) →
     var1 +:+ "_" +:+ var2 ≠ proto →
     ∃ r, entry (correlation_matrix body) var1 var2 = Some r ∧
          interpretations body !! (var1 +:+ "_" +:+ var2)
          = Some {| int_correlation := Some r;
                    int_strength :=
                      if PrimFloat.abs r <? 0.3 then fraca
                      else if PrimFloat.abs r <? 0.7 then moderada
                      else forte;
                    int_direction := if 0 <? r then positiva else negativa |}) ∧
  interpretations body !! proto = None.
Proof.
  intros Hvalid Hbody Hkeys. split.
  - intros var1 var2 Hpair Hp.
    destruct (elem_of_pairs _ _ _ Hpair) as [[H1 Hp1]%elem_of_keys [H2 Hp2]%elem_of_keys].
    destruct (correlation_matrix_entries _ _ _ _ Hvalid Hbody var1 var2 H1 H2 Hp1 Hp2)
      as (r & Hr & _).
    exists r. split; [done|].
    rewrite (correlation_runs _ _ _ Hvalid) in Hbody.
    destruct (rows _ _ _ _) as [[cm pv]|]; [|done].
    cbn in Hbody. injection Hbody as <-. cbn in *.
    rewrite interpretCorrelations_interpret.
    rewrite (interpret_lookup cm _ ∅ var1 var2 Hkeys Hpair Hp).
    by rewrite Hr.
  - rewrite (correlation_runs _ _ _ Hvalid) in Hbody.
    destruct (rows _ _ _ _) as [[cm pv]|]; [|done].
    cbn in Hbody. injection Hbody as <-. cbn.
    rewrite interpretCorrelations_interpret.
    by rewrite interpret_untouched by by right.
Qed.

(** Samples that are all empty pass the checks of the route (they have
    equal lengths), and then the mean throws: the answer is the 500 of the
    [catch] block, not a 400. *)
Theorem correlation_empty_samples datasets method :
  validInput datasets 0 →
  correlation (Some datasets) method = Err InternalError.
Proof.
  intros Hvalid. rewrite (correlation_runs _ _ _ Hvalid).
  destruct Hvalid as (Hnd & Hlen & Hall).
  destruct datasets as [|[k1 d1] [|[k2 d2] datasets]]; [cbn in Hlen; lia..|].
  cbn in Hall. apply Forall_cons in Hall as [Hd1 [Hd2 _]%Forall_cons].
  apply nil_length_inv in Hd1 as ->. apply nil_length_inv in Hd2 as ->.
  cbn in Hnd. apply NoDup_cons in Hnd as [Hk _].
  assert (Hne : k1 ≠ k2) by (intros ->; apply Hk; by left).
  unfold indexed. cbn [fmap list_fmap fst imap rows compose].
  unfold indexed. cbn [imap columns Nat.eqb compose].
  unfold property. cbn [lookupKey].
  rewrite bool_decide_eq_true_2 by done. rewrite bool_decide_eq_false_2 by done.
  rewrite bool_decide_eq_true_2 by done.
  cbn [orThrow mbind response_bind]. unfold calculateCorrelation.
  assert (Hmean : mean [] = None) by by apply mean_throws.
  rewrite Hmean. done.
Qed.

End symmetry.

Lemma correlation_matrix_symmetric_witness :
  ∃ body,
    @correlation Reference.math Reference.statistics (Some heightWeight) None = Ok body ∧
    is_Some (entry (correlation_matrix body) "height" "weight") ∧
    entry (correlation_matrix body) "height" "weight"
      = entry (correlation_matrix body) "weight" "height".
Proof.
  destruct (@correlation Reference.math Reference.statistics (Some heightWeight) None)
    as [body|] eqn:Hbody; [|vm_compute in Hbody; discriminate].
  exists body. split; [reflexivity|].
  destruct (@correlation_matrix_symmetric Reference.math Reference.statistics
              heightWeight None 5 body heightWeight_valid Hbody) as [Hsym Hentry].
  split; [|apply Hsym].
  apply Hentry; cbn; first [done|by left|right; by left].
Defined.

Lemma correlation_interpretations_witness :
  ∃ body,
    @correlation Reference.math Reference.statistics (Some heightWeight) None = Ok body ∧
    ∃ r, entry (correlation_matrix body) "height" "weight" = Some r ∧
         interpretations body !! "height_weight"
         = Some {| int_correlation := Some r;
                   int_strength :=
                     if PrimFloat.abs r <? 0.3 then fraca
                     else if PrimFloat.abs r <? 0.7 then moderada
                     else forte;
                   int_direction := if 0 <? r then positiva else negativa |}.
Proof.
  destruct (@correlation Reference.math Reference.statistics (Some heightWeight) None)
    as [body|] eqn:Hbody; [|vm_compute in Hbody; discriminate].
  exists body. split; [reflexivity|].
  destruct (@correlation_interpretations Reference.math Reference.statistics
              heightWeight None 5 body heightWeight_valid Hbody) as [Hpairs _].
  - vm_compute. apply NoDup_singleton.
  - apply Hpairs; [|done]. vm_compute. by left.
Defined.

Definition emptySamples : list (string * list float) := [("x", []); ("y", [])].

Lemma correlation_empty_samples_witness :
  @correlation Reference.math Reference.statistics (Some emptySamples) None
    = Err InternalError.
Proof.
  apply (@correlation_empty_samples Reference.math Reference.statistics).
  split_and!.
  - cbn. apply NoDup_cons. split; [|apply NoDup_singleton].
    intros [=]%list_elem_of_singleton.
  - cbn. lia.
  - repeat constructor.
Defined.

End SymmetryFacts.

(** ** What the parser accepts and what it rejects *)

Module ParserFacts.
Import Js Regex Equations RegexFacts NumberFacts ExtractionFacts GreedyFacts RoundTripFacts.

(** *** What every match needs *)

(** A property of texts that a text has as soon as a part of it has. *)
Definition local (P : jsstring → bool) : Prop :=
  ∀ pre w post, P w = true → P (pre ++ w ++ post) = true.

(** A pattern whose every match has such a property finds nothing in a
    text that lacks it. *)
Lemma exec_needs (P : jsstring → bool) r s :
  local P → (∀ w caps, matches r w ∅ caps → P w = true) →
  P s = false → exec r s = None.
Proof.
  intros Hlocal Hneeds Hs. destruct (exec r s) as [caps|] eqn:Hexec; [|done].
  apply exec_sound in Hexec as (pre & w & post & -> & Hw).
  apply Hneeds in Hw. by rewrite (Hlocal pre w post Hw) in Hs.
Qed.

Lemma needs_Cat (P : jsstring → bool) r1 r2 :
  local P →
  (∀ w caps caps', matches r2 w caps caps' → P w = true) →
  ∀ w caps caps', matches (Cat r1 r2) w caps caps' → P w = true.
Proof.
  intros Hlocal H2 w caps caps' (w1 & w2 & caps1 & -> & _ & Hm)%matches_Cat_inv.
  rewrite <- (app_nil_r w2). apply Hlocal. by eapply H2.
Qed.

(** Some digit of the text is followed by [=]. *)
Fixpoint digitThenEquals (s : jsstring) : bool :=
  match s with
  | c :: s' =>
      (isDigit c && match s' with
                    | e :: _ => (e =? 61)%N
                    | [] => false
                    end)
      || digitThenEquals s'
  | [] => false
  end.

Lemma digitThenEquals_intro pre d post :
  isDigit d = true → digitThenEquals (pre ++ d :: 61%N :: post) = true.
Proof.
  intros Hd. induction pre as [|c pre IH]; cbn [app digitThenEquals].
  - by rewrite Hd.
  - rewrite IH. apply orb_true_r.
Qed.

Lemma digitThenEquals_elim s :
  digitThenEquals s = true → ∃ pre d post, s = pre ++ d :: 61%N :: post ∧ isDigit d = true.
Proof.
  induction s as [|c s IH]; cbn [digitThenEquals]; [done|].
  intros [[Hc He]%andb_true_iff|H]%orb_true_iff.
  - destruct s as [|e s]; [done|]. apply N.eqb_eq in He as ->. by exists [], c, s.
  - destruct (IH H) as (pre & d & post & -> & Hd). by exists (c :: pre), d, post.
Qed.

Lemma digitThenEquals_local : local digitThenEquals.
Proof.
  intros pre w post (pre' & d & post' & -> & Hd)%digitThenEquals_elim.
  replace (pre ++ (pre' ++ d :: 61%N :: post') ++ post)
    with ((pre ++ pre') ++ d :: 61%N :: (post' ++ post)).
  - by apply digitThenEquals_intro.
  - by rewrite <- !app_assoc.
Qed.

(** The tail of all five patterns: a constant, then [= 0]. *)
Lemma constant_needs_digit i w caps caps' :
  matches (Cat (const i) (Cat (chr "=") (chr "0"))) w caps caps' →
  digitThenEquals w = true.
Proof.
  intros (w1 & w2 & caps1 & -> & Hconst & Hrest)%matches_Cat_inv.
  change (chr "=") with (Chr 61%N) in Hrest.
  apply matches_Cat_inv in Hrest as (w3 & w4 & caps2 & -> & [-> _]%matches_Chr_inv & _).
  apply matches_Grp_inv in Hconst as (caps3 & _ & Hconst).
  apply matches_Cat_inv in Hconst as (ws & wd & caps4 & -> & _ & Hdigits).
  apply matches_Plus_Cls in Hdigits as (_ & Hne & Hdigits).
  destruct (exists_last Hne) as (ds & d & ->).
  apply Forall_app in Hdigits as [_ [Hd _]%Forall_cons].
  replace ((ws ++ ds ++ [d]) ++ [61%N] ++ w4) with ((ws ++ ds) ++ d :: 61%N :: w4).
  - by apply digitThenEquals_intro.
  - by rewrite <- !app_assoc.
Qed.

Lemma pattern_needs_digit pattern :
  pattern ∈ quadratic ++ linear →
  ∀ w caps caps', matches pattern w caps caps' → digitThenEquals w = true.
Proof.
  intros Hp. unfold quadratic, linear in Hp. cbn [app] in Hp.
  repeat (apply elem_of_cons in Hp as [->|Hp]); [| | | | |by apply elem_of_nil in Hp];
    repeat first [ apply constant_needs_digit
                 | apply needs_Cat; [apply digitThenEquals_local|] ].
Qed.

Lemma firstMatch_needs (P : jsstring → bool) patterns s :
  local P →
  (∀ pattern, pattern ∈ patterns → ∀ w caps caps', matches pattern w caps caps' → P w = true) →
  P s = false → firstMatch patterns s = None.
Proof.
  intros Hlocal Hneeds Hs. apply firstMatch_nothing. intros pattern Hp.
  apply (exec_needs P); [done| |done]. intros w caps. by apply Hneeds.
Qed.

(** A text where no digit comes before [=] is not recognised. *)
Lemma parseEquation_needs_digit (equation : jsstring) :
  digitThenEquals (normalized equation) = false →
  parseEquation equation = Unrecognised "Formato não reconhecido" suggestions.
Proof.
  intros Hs. unfold parseEquation.
  change (toLowerCase (stripWhiteSpace equation)) with (normalized equation).
  rewrite !(firstMatch_needs digitThenEquals); try done; try apply digitThenEquals_local.
  - intros pattern Hp. apply pattern_needs_digit. apply elem_of_app. by right.
  - intros pattern Hp. apply pattern_needs_digit. apply elem_of_app. by left.
Qed.

Lemma digitThenEquals_token t e rest :
  Forall (fun c => c ≠ 61%N) t → e ≠ 61%N →
  digitThenEquals (t ++ e :: rest) = digitThenEquals (e :: rest).
Proof.
  intros Ht He. induction Ht as [|c t Hc Ht IH]; [done|].
  cbn [app digitThenEquals] in *. rewrite IH.
  assert (Hnext : match t ++ e :: rest with e0 :: _ => (e0 =? 61)%N | [] => false end = false).
  { destruct Ht as [|c' t Hc' _]; cbn [app]; by apply N.eqb_neq. }
  rewrite Hnext. by rewrite andb_false_r.
Qed.

Lemma digits_no_equals t :
  Forall (fun c => isDigit c = true) t → Forall (fun c => c ≠ 61%N) t.
Proof. intros H. eapply Forall_impl; [exact H|]. intros c Hc%isDigit_range. lia. Qed.

Lemma leadingToken_no_equals t : leadingToken t → Forall (fun c => c ≠ 61%N) t.
Proof.
  intros (sg & ds & -> & Hsg & Hds). apply Forall_app. split; [|by apply digits_no_equals].
  destruct Hsg as [-> | ->]; repeat constructor. done.
Qed.

(** The texts of an equation whose constant is zero. *)
Lemma formatQuadraticEquation_no_constant a b :
  normalized (formatQuadraticEquation (Int a) (Int b) (Int 0))
  = leadText a ++ 120%N :: sup2 ::
      (if b =? 0 then units "=0" else signOf b :: magText b ++ 120%N :: units "=0").
Proof.
  unfold formatQuadraticEquation. cbv zeta. rewrite (leading_term_quadratic a).
  change (num_gtb (Int 0) zero) with false. change (num_ltb (Int 0) zero) with false.
  cbv iota. destruct (Z.eqb_spec b 0) as [->|Hb].
  - change (num_gtb (Int 0) zero) with false. change (num_ltb (Int 0) zero) with false.
    cbv iota. rewrite !normalized_app, (normalized_leading _ (leadText_token a)).
    by rewrite <- app_assoc.
  - rewrite (linear_term b _ Hb).
    rewrite !normalized_app, (normalized_leading _ (leadText_token a)),
      (normalized_digits _ (magText_digits b)).
    rewrite <- !app_assoc. f_equal. unfold signOf. by destruct (0 <? b).
Qed.

Lemma formatLinearEquation_no_constant a :
  normalized (formatLinearEquation (Int a) (Int 0)) = leadText a ++ 120%N :: units "=0".
Proof.
  unfold formatLinearEquation. cbv zeta. rewrite (leading_term_linear a).
  change (num_gtb (Int 0) zero) with false. change (num_ltb (Int 0) zero) with false.
  cbv iota. rewrite !normalized_app, (normalized_leading _ (leadText_token a)).
  by rewrite <- ?app_assoc.
Qed.

Lemma no_constant_quadratic (a b : Z) :
  parseEquation (formatQuadraticEquation (Int a) (Int b) (Int 0))
    = Unrecognised "Formato não reconhecido" suggestions.
Proof.
  apply parseEquation_needs_digit.
  rewrite formatQuadraticEquation_no_constant.
  rewrite digitThenEquals_token;
    [|by apply leadingToken_no_equals, leadText_token|done].
  destruct (b =? 0); [reflexivity|].
  change (digitThenEquals (120%N :: sup2 :: ?s)) with (digitThenEquals s).
  assert (Hsign : digitThenEquals (signOf b :: magText b ++ 120%N :: units "=0")
                  = digitThenEquals (magText b ++ 120%N :: units "=0")).
  { unfold signOf. destruct (0 <? b); cbn [digitThenEquals]; by destruct (magText b ++ _). }
  rewrite Hsign.
  by rewrite digitThenEquals_token; [|by apply digits_no_equals, magText_digits|done].
Qed.

Lemma no_constant_linear (a : Z) :
  parseEquation (formatLinearEquation (Int a) (Int 0))
    = Unrecognised "Formato não reconhecido" suggestions.
Proof.
  apply parseEquation_needs_digit.
  rewrite formatLinearEquation_no_constant.
  by rewrite digitThenEquals_token;
    [|by apply leadingToken_no_equals, leadText_token|done].
Qed.

(** An equation whose constant is zero is written without a constant, and
    no pattern reads it back: [parseEquation] rejects the text that the
    formatters produce for it. *)
Theorem zero_constant_is_not_parsed (a b : Z) :
  safeInteger a → safeInteger b →
  parseEquation (formatQuadraticEquation (Int a) (Int b) (Int 0))
    = Unrecognised "Formato não reconhecido" suggestions ∧
  parseEquation (formatLinearEquation (Int a) (Int 0))
    = Unrecognised "Formato não reconhecido" suggestions.
Proof.
  intros _ _. split; [apply no_constant_quadratic|apply no_constant_linear].
Qed.

Lemma zero_constant_is_not_parsed_witness :
  parseEquation (units "2x" ++ [sup2] ++ units " + 3x = 0")
    = Unrecognised "Formato não reconhecido" suggestions ∧
  parseEquation (units "2x = 0") = Unrecognised "Formato não reconhecido" suggestions.
Proof.
  apply (zero_constant_is_not_parsed 2 3); unfold safeInteger; lia.
Defined.

(** *** A quadratic without a linear term *)

(** The text has two [x]. *)
Definition twoX (s : jsstring) : bool :=
  (2 <=? length (List.filter (N.eqb 120) s))%nat.

Lemma twoX_local : local twoX.
Proof.
  intros pre w post. unfold twoX. rewrite !Nat.leb_le, !List.filter_app, !length_app. lia.
Qed.

Lemma no_x_filter t : Forall (fun c => c ≠ 120%N) t → List.filter (N.eqb 120) t = [].
Proof.
  induction 1 as [|c t Hc _ IH]; cbn [List.filter]; [done|].
  by rewrite (proj2 (N.eqb_neq 120 c)) by done.
Qed.

(** The patterns with a linear term have an [x] in it, after the [x] of the
    square. *)
Lemma linear_term_needs_x pattern :
  quadratic !! 0%nat = Some pattern ∨ quadratic !! 1%nat = Some pattern →
  ∀ w caps caps', matches pattern w caps caps' → twoX w = true.
Proof.
  intros Hp w caps caps' Hm; destruct Hp as [[= <-]|[= <-]];
    apply matches_up_to_x in Hm as (pre & wr & c1 & c2 & -> & Hm);
    change (chr "x") with (Chr 120%N) in Hm;
    repeat match type of Hm with
           | matches (Cat (Chr 120%N) _) _ _ _ =>
               apply matches_Cat_inv in Hm as (? & ? & ? & -> & [-> _]%matches_Chr_inv & _)
           | matches (Cat _ _) _ _ _ =>
               apply matches_Cat_inv in Hm as (? & ? & ? & -> & _ & Hm)
           end;
    unfold twoX; apply Nat.leb_le;
    repeat (rewrite ?List.filter_app, ?length_app; cbn [List.filter N.eqb Pos.eqb length app]);
    lia.
Qed.

Lemma caret_pattern_needs' pattern :
  quadratic !! 0%nat = Some pattern ∨ quadratic !! 2%nat = Some pattern →
  ∀ w caps caps', matches pattern w caps caps' → xThen [94%N; 50%N] w = true.
Proof.
  intros Hp w caps caps' Hm; destruct Hp as [[= <-]|[= <-]];
    apply matches_up_to_x in Hm as (pre & wr & c1 & c2 & -> & Hm);
    apply matches_Cat_inv in Hm as (w1 & w2 & c3 & -> & H1 & H2);
    apply matches_Cat_inv in H2 as (w3 & w4 & c4 & -> & [-> _]%matches_Chr_inv & _);
    apply matches_Opt_inv in H1 as [[-> _]|[-> _]%matches_Chr_inv];
    apply xThen_intro; set_solver.
Qed.

Lemma xThen_local ds : local (xThen ds).
Proof. intros pre w post. apply xThen_inside. Qed.

(** The pattern with [x²] and a constant, on the text of two coefficients. *)
Lemma exec_quadratic_constant t1 sc t3 :
  leadingToken t1 →
  isSign sc = true → t3 ≠ [] → Forall (fun c => isDigit c = true) t3 →
  ∃ pattern, quadratic !! 3%nat = Some pattern ∧
    exec pattern (t1 ++ 120%N :: sup2 :: sc :: t3 ++ units "=0")
      = Some (<[2%nat := sc :: t3]> (<[1%nat := t1]> ∅)).
Proof.
  intros Ht1 Hsc Hne Ht3. eexists. split; [reflexivity|].
  eapply exec_first.
  eapply first_Cat; [by apply first_coeff1|].
  eapply first_Cat; [by apply first_Opt_Chr_skip|].
  eapply first_Cat; [apply first_Chr|].
  eapply first_Cat; [apply first_Chr|].
  eapply first_Cat; [by apply first_const|].
  eapply first_Cat; [apply first_Chr|].
  apply first_Chr.
Qed.

Lemma formatQuadraticEquation_no_linear_term a c :
  c ≠ 0 →
  normalized (formatQuadraticEquation (Int a) (Int 0) (Int c))
  = leadText a ++ 120%N :: sup2 :: signOf c :: digits (Z.abs_N c) ++ units "=0".
Proof.
  intros Hc. unfold formatQuadraticEquation. cbv zeta. rewrite (leading_term_quadratic a).
  change (num_gtb (Int 0) zero) with false. change (num_ltb (Int 0) zero) with false.
  cbv iota. rewrite (constant_term c _ Hc).
  rewrite !normalized_app, (normalized_leading _ (leadText_token a)),
    (normalized_digits _ (digits_are_digits _)).
  rewrite <- !app_assoc. f_equal. unfold signOf. by destruct (0 <? c).
Qed.

Lemma no_linear_term (a c : Z) :
  a ≠ 0 → c ≠ 0 →
  parseEquation (formatQuadraticEquation (Int a) (Int 0) (Int c))
  = Quadratic (Int a) (Int c) (Int c) (formatQuadraticEquation (Int a) (Int c) (Int c)).
Proof.
  intros Ha Hc. unfold parseEquation.
  change (toLowerCase (stripWhiteSpace ?s)) with (normalized s).
  rewrite (formatQuadraticEquation_no_linear_term a c Hc).
  set (text := leadText a ++ _).
  assert (Hcaret : xThen [94%N; 50%N] text = false).
  { subst text.
    rewrite (xThen_token _ _ _ (leadingToken_no_x _ (leadText_token a))).
    rewrite xThen_x, xThen_other, (xThen_other _ _ _ (signOf_no_x c)) by done.
    rewrite (xThen_token _ _ _ (digits_no_x _ (digits_are_digits _))).
    reflexivity. }
  assert (Htwo : twoX text = false).
  { subst text. unfold twoX. apply Nat.leb_gt.
    rewrite List.filter_app, (no_x_filter _ (leadingToken_no_x _ (leadText_token a))).
    unfold signOf. destruct (0 <? c);
      cbn [app List.filter N.eqb Pos.eqb sup2 plus minus];
      rewrite List.filter_app, (no_x_filter _ (digits_no_x _ (digits_are_digits _)));
      change (List.filter (N.eqb 120) (units "=0")) with (@nil N);
      cbn [app length]; lia. }
  destruct (exec_quadratic_constant (leadText a) (signOf c) (digits (Z.abs_N c)))
    as (pattern4 & [= <-] & Hexec4);
    [apply leadText_token|apply signOf_sign|apply digits_nonempty|apply digits_are_digits|].
  fold text in Hexec4.
  unfold quadratic. cbn [firstMatch].
  rewrite (exec_needs (xThen [94%N; 50%N]) _ text (xThen_local _)); [|
    intros w caps; apply caret_pattern_needs'; by left | done].
  rewrite (exec_needs twoX _ text twoX_local); [|
    intros w caps; apply linear_term_needs_x; by right | done].
  rewrite (exec_needs (xThen [94%N; 50%N]) _ text (xThen_local _)); [|
    intros w caps; apply caret_pattern_needs'; by right | done].
  rewrite Hexec4.
  rewrite lookup_insert_ne, lookup_insert_eq by done.
  rewrite lookup_insert_eq.
  rewrite lookup_insert_ne, lookup_insert_ne, lookup_empty by done.
  cbn [falsy negb].
  rewrite (parseCoeff_rule _ (leading_coefficientToken _ (leadText_token a))).
  rewrite (parseCoeff_rule _ (signed_token _ _ (signOf_sign c) (digits_are_digits _))).
  pose proof (rule_leadText a Ha) as Ra. pose proof (rule_constant c Hc) as Rc.
  unfold jsstring in *. rewrite Ra, Rc, num_or_one.
  unfold leading. by rewrite (proj2 (Z.eqb_neq a 0) Ha).
Qed.

(** A quadratic without a linear term: the text that
    [formatQuadraticEquation] writes for (a, 0, c) is read back as
    (a, c, c).  The pattern that matches has the constant in its second
    group, which is where the route takes the second coefficient from. *)
Theorem missing_linear_term_reads_constant (a c : Z) :
  safeInteger a → safeInteger c → a ≠ 0 → c ≠ 0 →
  parseEquation (formatQuadraticEquation (Int a) (Int 0) (Int c))
  = Quadratic (Int a) (Int c) (Int c) (formatQuadraticEquation (Int a) (Int c) (Int c)).
Proof. intros _ _. apply no_linear_term. Qed.

Lemma missing_linear_term_reads_constant_witness :
  parseEquation (units "3x" ++ [sup2] ++ units " + 12 = 0")
  = Quadratic (Int 3) (Int 12) (Int 12) (units "3x" ++ [sup2] ++ units " + 12x + 12 = 0").
Proof.
  apply (missing_linear_term_reads_constant 3 12); unfold safeInteger; lia.
Defined.

(** *** Text around an equation *)

(** The engine has no anchors: a way to match a prefix of a text is a way
    to match the same prefix when more text follows. *)
Definition extends (step : jsstring → captures → outcomes) : Prop :=
  ∀ s caps s' caps' t,
    In (s', caps') (step s caps) → In (s' ++ t, caps') (step (s ++ t) caps).

Lemma iterate_extends step fuel fuel' :
  extends step →
  ∀ s caps s' caps' t,
    (length (s ++ t) ≤ fuel')%nat →
    In (s', caps') (iterate step fuel s caps) →
    In (s' ++ t, caps') (iterate step fuel' (s ++ t) caps).
Proof.
  intros Hstep. revert fuel'.
  induction fuel as [|fuel IH]; intros fuel' s caps s' caps' t Hfuel Hin.
  - destruct Hin as [[= <- <-]|[]].
    destruct fuel'; cbn [iterate]; [by left|]. apply in_or_app. right. by left.
  - cbn [iterate] in Hin. apply in_app_or in Hin as [Hin|[[= <- <-]|[]]].
    + apply in_flat_map in Hin as ([s1 caps1] & Hin1 & Hin).
      destruct (length s1 <? length s)%nat eqn:Hshorter; [|destruct Hin].
      apply Nat.ltb_lt in Hshorter.
      destruct fuel' as [|fuel'].
      { rewrite length_app in Hfuel. lia. }
      cbn [iterate]. apply in_or_app. left. apply in_flat_map.
      exists (s1 ++ t, caps1). split; [by apply Hstep|].
      rewrite (proj2 (Nat.ltb_lt _ _)) by (rewrite !length_app; lia).
      apply IH; [|done]. rewrite !length_app in *. lia.
    + destruct fuel'; cbn [iterate]; [by left|]. apply in_or_app. right. by left.
Qed.

Lemma run_extends r : extends (run r).
Proof.
  induction r as [c|p|r1 IH1 r2 IH2|r IH|r IH|r IH|i r IH];
    intros s caps s' caps' t Hin; cbn [run] in *.
  - destruct s as [|x s]; [destruct Hin|]. cbn [app].
    destruct (x =? c)%N; [|destruct Hin]. destruct Hin as [[= <- <-]|[]]. by left.
  - destruct s as [|x s]; [destruct Hin|]. cbn [app].
    destruct (p x); [|destruct Hin]. destruct Hin as [[= <- <-]|[]]. by left.
  - apply in_flat_map in Hin as ([s1 caps1] & Hin1 & Hin). apply in_flat_map.
    exists (s1 ++ t, caps1). split; [by apply IH1|by apply IH2].
  - apply in_or_app. apply in_app_or in Hin as [Hin|[[= <- <-]|[]]].
    + left. by apply IH.
    + right. by left.
  - by apply (iterate_extends _ (length s)).
  - apply in_flat_map in Hin as ([s1 caps1] & Hin1 & Hin). apply in_flat_map.
    exists (s1 ++ t, caps1). split; [by apply IH|].
    by apply (iterate_extends _ (length s1)).
  - apply in_map_iff in Hin as ([s1 caps1] & [= <- <-] & Hin). apply in_map_iff.
    exists (s1 ++ t, caps1). split; [|by apply IH].
    destruct (run_sound r s caps s1 caps1 Hin) as (w & -> & _).
    rewrite <- !app_assoc, !length_app.
    replace (length w + (length s1 + length t) - (length s1 + length t))%nat
      with (length w) by lia.
    replace (length w + length s1 - length s1)%nat with (length w) by lia.
    by rewrite !take_app_length.
Qed.

Lemma exec_prefix r c s : is_Some (exec r s) → is_Some (exec r (c :: s)).
Proof. intros Hs. cbn [exec]. destruct (run r (c :: s) ∅) as [|[? ?] ?]; [done|by eexists]. Qed.

Lemma exec_suffix r s post : is_Some (exec r s) → is_Some (exec r (s ++ post)).
Proof.
  induction s as [|x s IH].
  - cbn [exec app]. destruct (run r [] ∅) as [|[s' caps'] more] eqn:Hrun; [by intros [? [=]]|].
    intros _. pose proof (run_extends r [] ∅ s' caps' post) as Hext.
    rewrite Hrun in Hext. specialize (Hext (or_introl eq_refl)). cbn [app] in Hext.
    clear Hrun. destruct post as [|c post]; cbn [exec].
    + destruct (run r [] ∅) as [|[? ?] ?]; [by apply in_nil in Hext|by eexists].
    + destruct (run r (c :: post) ∅) as [|[? ?] ?]; [by apply in_nil in Hext|by eexists].
  - cbn [exec app]. destruct (run r (x :: s) ∅) as [|[s' caps'] more] eqn:Hrun.
    + intros Hs. destruct (run r (x :: s ++ post) ∅) as [|[? ?] ?]; [by apply IH|by eexists].
    + intros _. pose proof (run_extends r (x :: s) ∅ s' caps' post) as Hext.
      rewrite Hrun in Hext. specialize (Hext (or_introl eq_refl)). cbn [app] in Hext.
      destruct (run r (x :: s ++ post) ∅) as [|[? ?] ?]; [by apply in_nil in Hext|by eexists].
Qed.

Lemma exec_inside r pre s post : is_Some (exec r s) → is_Some (exec r (pre ++ s ++ post)).
Proof.
  intros Hs. induction pre as [|c pre IH]; cbn [app].
  - by apply exec_suffix.
  - by apply exec_prefix.
Qed.

Lemma firstMatch_inside patterns pre s post :
  is_Some (firstMatch patterns s) → is_Some (firstMatch patterns (pre ++ s ++ post)).
Proof.
  induction patterns as [|pattern patterns IH]; cbn [firstMatch]; [done|].
  destruct (exec pattern s) as [m|] eqn:Hexec.
  - intros _. destruct (exec_inside pattern pre s post) as [m' ->]; [by rewrite Hexec|by eexists].
  - intros Hs. destruct (exec pattern (pre ++ s ++ post)); [by eexists|by apply IH].
Qed.

Definition recognised (p : parsed) : bool :=
  match p with
  | Unrecognised _ _ => false
  | _ => true
  end.

Lemma recognised_spec (equation : jsstring) :
  recognised (parseEquation equation) = true ↔
  is_Some (firstMatch quadratic (normalized equation)) ∨
  is_Some (firstMatch linear (normalized equation)).
Proof.
  unfold parseEquation.
  change (toLowerCase (stripWhiteSpace equation)) with (normalized equation).
  destruct (firstMatch quadratic _) as [m|]; [split; [left; by eexists|done]|].
  destruct (firstMatch linear _) as [m|]; [split; [right; by eexists|done]|].
  split; [done|]. by intros [[? [=]]|[? [=]]].
Qed.

(** The patterns are not anchored: a text that holds a recognised equation
    is recognised, whatever is written before and after it. *)
Theorem parseEquation_ignores_surrounding_text (before equation after : jsstring) :
  recognised (parseEquation equation) = true →
  recognised (parseEquation (before ++ equation ++ after)) = true.
Proof.
  rewrite !recognised_spec, !normalized_app.
  intros [Hq|Hl]; [left|right]; by apply firstMatch_inside.
Qed.

Lemma parseEquation_ignores_surrounding_text_witness :
  recognised (parseEquation (units "solve " ++ units "2x + 4 = 0" ++ units " please")) = true.
Proof.
  apply (parseEquation_ignores_surrounding_text (units "solve ") (units "2x + 4 = 0")
           (units " please")).
  vm_compute. reflexivity.
Defined.

(** *** What a recognised equation is *)

Lemma leading_not_zero z : leading z ≠ 0.
Proof. unfold leading. destruct (Z.eqb_spec z 0); lia. Qed.

(** The result of [parseEquation], case by case: integers, the leading
    one not zero, and the text of the formatter. *)
Lemma parseEquation_inv (equation : jsstring) :
  match parseEquation equation with
  | Quadratic a b c formatted =>
      ∃ za zb zc, a = Int za ∧ za ≠ 0 ∧ b = Int zb ∧ c = Int zc ∧
                  formatted = formatQuadraticEquation a b c
  | Linear a b formatted =>
      ∃ za zb, a = Int za ∧ za ≠ 0 ∧ b = Int zb ∧ formatted = formatLinearEquation a b
  | Unrecognised _ hints => hints = suggestions
  end.
Proof.
  unfold parseEquation.
  destruct (firstMatch quadratic _) as [m|] eqn:Hq.
  - apply firstMatch_sound in Hq as (pattern & w & Hp & Hw).
    destruct (quadratic_captures _ _ _ Hp Hw) as (t1 & t2 & H1 & Ht1 & H2 & Ht2 & H3).
    rewrite H1, H2, (signedToken_truthy t2 Ht2). cbn [negb].
    rewrite (parseCoeff_rule t1 Ht1), num_or_one.
    rewrite (parseCoeff_rule t2 (signedToken_coefficientToken _ Ht2)).
    destruct H3 as [->|(t3 & -> & Ht3)].
    + cbn [falsy negb]. do 3 eexists. split_and!; try done. apply leading_not_zero.
    + rewrite (signedToken_truthy t3 Ht3). cbn [negb].
      rewrite (parseCoeff_rule t3 (signedToken_coefficientToken _ Ht3)).
      do 3 eexists. split_and!; try done. apply leading_not_zero.
  - destruct (firstMatch linear _) as [m|] eqn:Hl; [|done].
    apply firstMatch_sound in Hl as (pattern & w & Hp & Hw).
    destruct (linear_captures _ _ _ Hp Hw) as (t1 & t2 & H1 & Ht1 & H2 & Ht2).
    rewrite H1, H2.
    rewrite (parseCoeff_rule t1 Ht1), num_or_one.
    rewrite (parseCoeff_rule t2 (signedToken_coefficientToken _ Ht2)), num_or_zero.
    do 2 eexists. split_and!; try done. apply leading_not_zero.
Qed.

(** Whatever the text, the coefficients that [parseEquation] returns are
    numbers, not NaN, the leading one is not zero, and the formatted
    equation is the text of these coefficients. *)
Theorem parseEquation_returns_numbers (equation : jsstring) :
  match parseEquation equation with
  | Quadratic a b c formatted =>
      a ≠ NaN ∧ a ≠ zero ∧ b ≠ NaN ∧ c ≠ NaN ∧ formatted = formatQuadraticEquation a b c
  | Linear a b formatted =>
      a ≠ NaN ∧ a ≠ zero ∧ b ≠ NaN ∧ formatted = formatLinearEquation a b
  | Unrecognised _ hints => hints = suggestions
  end.
Proof.
  pose proof (parseEquation_inv equation) as H.
  destruct (parseEquation equation) as [a b c f|a b f|e hints]; [| |done].
  - destruct H as (za & zb & zc & -> & Hza & -> & -> & ->).
    split_and!; try done. unfold zero. congruence.
  - destruct H as (za & zb & -> & Hza & -> & ->).
    split_and!; try done. unfold zero. congruence.
Qed.

(** *** Parsing the formatted equation again *)

Lemma full_quadratic (a b c : Z) :
  a ≠ 0 → b ≠ 0 → c ≠ 0 →
  parseEquation (formatQuadraticEquation (Int a) (Int b) (Int c))
  = Quadratic (Int a) (Int b) (Int c) (formatQuadraticEquation (Int a) (Int b) (Int c)).
Proof.
  intros Ha Hb Hc. unfold parseEquation.
  change (toLowerCase (stripWhiteSpace ?s)) with (normalized s).
  rewrite (normalized_quadratic a b c Hb Hc).
  destruct (exec_quadratic_sup2 (leadText a) (signOf b) (magText b) (signOf c)
              (digits (Z.abs_N c)))
    as (pattern2 & [= <-] & Hexec2);
    [apply leadText_token|apply signOf_sign|apply magText_digits|apply signOf_sign
    |apply digits_nonempty|apply digits_are_digits|].
  unfold quadratic. erewrite firstMatch_second; [|
    apply (exec_nothing [94%N; 50%N]);
      [intros w caps; by apply caret_pattern_needs|apply quadratic_text_no_caret]
    |exact Hexec2].
  rewrite lookup_insert_ne, lookup_insert_ne, lookup_insert_eq by done.
  rewrite lookup_insert_ne, lookup_insert_eq by done.
  rewrite lookup_insert_eq. cbn [falsy negb].
  rewrite (parseCoeff_rule _ (leading_coefficientToken _ (leadText_token a))).
  rewrite (parseCoeff_rule _ (signed_token _ _ (signOf_sign b) (magText_digits b))).
  rewrite (parseCoeff_rule _ (signed_token _ _ (signOf_sign c) (digits_are_digits _))).
  pose proof (rule_leadText a Ha) as Ra. pose proof (rule_term b Hb) as Rb.
  pose proof (rule_constant c Hc) as Rc. unfold jsstring in *.
  rewrite Ra, Rb, Rc, num_or_one.
  unfold leading. by rewrite (proj2 (Z.eqb_neq a 0) Ha).
Qed.

Lemma full_linear (a b : Z) :
  a ≠ 0 → b ≠ 0 →
  parseEquation (formatLinearEquation (Int a) (Int b))
  = Linear (Int a) (Int b) (formatLinearEquation (Int a) (Int b)).
Proof.
  intros Ha Hb. unfold parseEquation.
  change (toLowerCase (stripWhiteSpace ?s)) with (normalized s).
  rewrite (normalized_linear a b Hb).
  rewrite firstMatch_nothing; cycle 1.
  { intros pattern Hp. apply (exec_nothing [94%N; 50%N; sup2]).
    - intros w caps. by apply quadratic_needs_x2.
    - apply linear_text_no_x2. }
  destruct (exec_linear (leadText a) (signOf b) (digits (Z.abs_N b)))
    as (pattern & [= <-] & Hexec);
    [apply leadText_token|apply signOf_sign|apply digits_nonempty|apply digits_are_digits|].
  unfold linear. cbn [firstMatch]. rewrite Hexec.
  rewrite lookup_insert_ne, lookup_insert_eq by done.
  rewrite lookup_insert_eq.
  rewrite (parseCoeff_rule _ (leading_coefficientToken _ (leadText_token a))).
  rewrite (parseCoeff_rule _ (signed_token _ _ (signOf_sign b) (digits_are_digits _))).
  pose proof (rule_leadText a Ha) as Ra. pose proof (rule_constant b Hb) as Rb.
  unfold jsstring in *.
  rewrite Ra, Rb, num_or_one, num_or_zero.
  unfold leading. by rewrite (proj2 (Z.eqb_neq a 0) Ha).
Qed.

(** What [parseEquation] makes of the formatted equation of its own
    result: the same result when no coefficient is zero; the constant in
    place of a linear coefficient that is zero; and nothing at all when the
    constant is zero. *)
Theorem formatted_equation_parsed_again (equation : jsstring) :
  match parseEquation equation with
  | Quadratic (Int a) (Int b) (Int c) formatted =>
      safeInteger a → safeInteger b → safeInteger c →
      parseEquation formatted =
        if c =? 0 then Unrecognised "Formato não reconhecido" suggestions
        else if b =? 0
             then Quadratic (Int a) (Int c) (Int c)
                    (formatQuadraticEquation (Int a) (Int c) (Int c))
             else Quadratic (Int a) (Int b) (Int c) formatted
  | Linear (Int a) (Int b) formatted =>
      safeInteger a → safeInteger b →
      parseEquation formatted =
        if b =? 0 then Unrecognised "Formato não reconhecido" suggestions
        else Linear (Int a) (Int b) formatted
  | _ => True
  end.
Proof.
  pose proof (parseEquation_inv equation) as H.
  destruct (parseEquation equation) as [a b c f|a b f|e hints]; [| |done].
  - destruct H as (za & zb & zc & -> & Hza & -> & -> & ->). intros _ _ _.
    destruct (Z.eqb_spec zc 0) as [->|Hc]; [apply no_constant_quadratic|].
    destruct (Z.eqb_spec zb 0) as [->|Hb]; [by apply no_linear_term|].
    by apply full_quadratic.
  - destruct H as (za & zb & -> & Hza & -> & ->). intros _ _.
    destruct (Z.eqb_spec zb 0) as [->|Hb]; [apply no_constant_linear|].
    by apply full_linear.
Qed.

Lemma formatted_equation_parsed_again_witness :
  parseEquation (units "x" ++ [sup2] ++ units " + 0x + 5 = 0")
    = Quadratic (Int 1) (Int 0) (Int 5) (units "x" ++ [sup2] ++ units " + 5 = 0") ∧
  parseEquation (units "x" ++ [sup2] ++ units " + 5 = 0")
    = Quadratic (Int 1) (Int 5) (Int 5) (units "x" ++ [sup2] ++ units " + 5x + 5 = 0").
Proof.
  pose proof (formatted_equation_parsed_again (units "x" ++ [sup2] ++ units " + 0x + 5 = 0"))
    as H.
  destruct (parseEquation (units "x" ++ [sup2] ++ units " + 0x + 5 = 0"))
    as [a b c f|a b f|e hints] eqn:Hparsed; vm_compute in Hparsed; [|discriminate..].
  injection Hparsed as <- <- <- <-.
  split; [reflexivity|]. apply H; unfold safeInteger; lia.
Defined.

End ParserFacts.

(** ** The helpers *)

Module HelperFacts.
Import Js Equations Helpers NumberFacts ExtractionFacts GreedyFacts RoundTripFacts.

(** [parseCoeff] reads back what [formatCoeff] writes: the empty text of
    1, the bare minus of -1, and the digits of every other integer. *)
Theorem formatCoeff_round_trip (z : Z) :
  safeInteger z → parseCoeff (Some (formatCoeff (Int z))) = Int z.
Proof.
  intros _.
  assert (Htext : formatCoeff (Int z) = leadText z).
  { unfold formatCoeff, leadText, num_eqb, one, minus_one.
    destruct (z =? 1); [done|]. by destruct (z =? -1). }
  rewrite Htext, (parseCoeff_rule _ (leading_coefficientToken _ (leadText_token z))).
  destruct (Z.eq_dec z 0) as [->|Hz]; [reflexivity|].
  pose proof (rule_leadText z Hz) as Hrule. unfold jsstring in *. by rewrite Hrule.
Qed.

Lemma formatCoeff_round_trip_witness :
  parseCoeff (Some (formatCoeff (Int (-12)))) = Int (-12).
Proof. apply formatCoeff_round_trip. unfold safeInteger. lia. Defined.

End HelperFacts.

(** ** The quadratic handler of the server, and the verification entries *)

Module ApiFacts.
Import Route Solver Ml OrderFacts.
#[local] Open Scope float_scope.

(** The two quadratic solvers on numbers.  Both refuse a leading
    coefficient of zero.  Whenever the route answers 200, the handler of
    [server.js] returns the same discriminant, the same roots and the same
    type.  They differ only on a coefficient that fails the isNumeric
    check of the route (1e-7, say), which the handler of [server.js], that
    tests [typeof] alone, solves. *)
Theorem quadratic_agrees_with_route (a b c : float) :
  match Api.quadratic (Some (JNumber a)) (Some (JNumber b)) (Some (JNumber c)),
        solveQuadratic a b c with
  | inl e, Err e' => e = Api.ZeroLeading ∧ e' = InvalidData ∧ (a =? 0) = true
  | inr body, Ok body' =>
      (a =? 0) = false ∧
      isNumeric a = true ∧ isNumeric b = true ∧ isNumeric c = true ∧
      Api.discriminant body = discriminant body' ∧
      Api.solutions body = solutions body' ∧
      Api.type body = type body'
  | inr body, Err e' =>
      e' = InvalidData ∧ (a =? 0) = false ∧
      (isNumeric a = false ∨ isNumeric b = false ∨ isNumeric c = false)
  | inl _, Ok _ => False
  end.
Proof.
  unfold Api.quadratic, solveQuadratic, validateQuadratic.
  destruct (a =? 0); [by destruct (isNumeric a)|]. cbv zeta.
  destruct (isNumeric a), (isNumeric b), (isNumeric c); cbn [negb andb];
    destruct (0 <? b * b - 4 * a * c); try destruct (b * b - 4 * a * c =? 0);
    cbn; auto 10.
Qed.

(** *** The verification entries *)

Lemma abs_zero_small (r : float) : (r =? 0) = true → (PrimFloat.abs r <? 1e-10) = true.
Proof.
  rewrite FloatAxioms.eqb_spec, FloatAxioms.ltb_spec, abs_spec.
  change (Prim2SF 0) with (S754_zero false).
  destruct (Prim2SF r) as [[]|[]| |[] m e]; try done.
Qed.

(** An entry of the verification array that reports a residual of zero is
    flagged valid, and an entry that is not flagged valid reports its
    residual as computed. *)
Theorem verifySolutions_entries (a b c : float) (solutions : list float) (v : verified) :
  v ∈ verifySolutions a b c solutions →
  x v ∈ solutions ∧
  ((verification v =? 0) = true → isValid v = true) ∧
  (isValid v = false → verification v = SolverFacts.residual a b c (x v)).
Proof.
  unfold verifySolutions. intros (x0 & -> & Hx)%list_elem_of_fmap. cbn.
  fold (SolverFacts.residual a b c x0). set (r := SolverFacts.residual a b c x0).
  split; [done|].
  assert (Hsmall : (PrimFloat.abs r <? 1e-10) = true → (PrimFloat.abs r <? 1e-6) = true).
  { intros H. by apply (ltb_leb_trans _ 1e-10). }
  destruct (PrimFloat.abs r <? 1e-10) eqn:Hr.
  - rewrite Hsmall by done. done.
  - split; [|done]. intros Hzero%abs_zero_small. congruence.
Qed.

Lemma verifySolutions_entries_witness :
  let v := {| x := 2; verification := 0; isValid := true |} in
  x v ∈ [2; 3] ∧
  ((verification v =? 0) = true → isValid v = true) ∧
  (isValid v = false → verification v = SolverFacts.residual 1 (-5) 6 (x v)).
Proof.
  apply (verifySolutions_entries 1 (-5) 6 [2; 3]). vm_compute. left.
Defined.

End ApiFacts.

(** ** The calculator route *)

Module CalculatorFacts.
Import Js Calculator.

Lemma replaceAll_absent c by_ s : c ∉ s → replaceAll c by_ s = s.
Proof.
  unfold replaceAll. induction s as [|x s IH]; intros Hc; cbn [flat_map]; [done|].
  apply not_elem_of_cons in Hc as [Hx Hc].
  rewrite (proj2 (N.eqb_neq x c)) by done. cbn [app]. by rewrite IH.
Qed.

Lemma validateExpression_allowed expression :
  validateExpression expression = true →
  expression ≠ [] ∧ (length expression ≤ 200)%nat ∧ Forall (fun c => allowed c = true) expression.
Proof.
  unfold validateExpression. rewrite !andb_true_iff, negb_true_iff.
  intros [[Hne Hlen] [_ Hall]]. apply bool_decide_eq_false in Hne.
  apply Nat.leb_le in Hlen. split_and!; [done|done|].
  apply Forall_forall. intros c Hc%list_elem_of_In. by apply (proj1 (forallb_forall _ _) Hall).
Qed.

(** The characters that the validation never lets through: the two
    operator signs that the route would replace, the comma, and the letters
    that no function name of the pattern has. *)
Definition refused : list N :=
  [timesSign; divisionSign] ++ units "," ++ units "hjkmqvwyz" ++ units "HJKMQVWYZ".

Lemma refused_not_allowed c : c ∈ refused → allowed c = false.
Proof.
  unfold refused. intros Hc.
  repeat (apply elem_of_cons in Hc as [->|Hc]); try reflexivity.
  by apply elem_of_nil in Hc.
Qed.

Section calculate.
Context `{!MathJs}.

(** An expression that holds a multiplication sign, a division sign, a
    comma or one of the letters h, j, k, m, q, v, w, y, z is answered with
    the 400 of the validation, and [evaluate] is not called: the route
    never replaces a multiplication or a division sign, and [sqrt(16)] or
    [log(100, 10)] cannot be computed ([√(16)] can). *)
Theorem calculate_refuses (expression : jsstring) (c : N) :
  c ∈ expression → c ∈ refused → calculate expression = inl InvalidData.
Proof.
  intros Hc Href. unfold calculate.
  destruct (validateExpression expression) eqn:Hvalid; [|done].
  apply validateExpression_allowed in Hvalid as (_ & _ & Hall).
  rewrite Forall_forall in Hall. specialize (Hall c Hc).
  by rewrite (refused_not_allowed c Href) in Hall.
Qed.

(** What reaches [evaluate] is the expression in lower case with every
    root sign written [sqrt], and a response carries a finite number. *)
Theorem calculate_evaluates (expression : jsstring) (response : body) :
  calculate expression = inr response →
  ∃ result,
    evaluate (toLowerCase (replaceAll rootSign (units "sqrt") expression)) = Some result ∧
    body_result response = toNumber result ∧
    is_finite (body_result response) = true ∧
    body_expression response = expression.
Proof.
  unfold calculate. destruct (validateExpression expression) eqn:Hvalid; [|done].
  cbn [negb]. apply validateExpression_allowed in Hvalid as (_ & _ & Hall).
  assert (Hnot : ∀ c, c ∈ refused → c ∉ expression).
  { intros c Href Hc. rewrite Forall_forall in Hall. specialize (Hall c Hc).
    by rewrite (refused_not_allowed c Href) in Hall. }
  unfold processExpression.
  rewrite (replaceAll_absent timesSign), (replaceAll_absent divisionSign);
    [|apply Hnot; unfold refused; set_solver..].
  destruct (evaluate _) as [result|]; [|done].
  destruct (is_finite (toNumber result)) eqn:Hfinite; [|done].
  cbn [negb]. intros [= <-]. by exists result.
Qed.

End calculate.

(** A stand-in for the package, to run the route on examples: it knows
    one expression. *)
Definition sample : MathJs :=
  {| result := float;
     evaluate := fun s => if bool_decide (s = units "sqrt(16)") then Some 4%float else None;
     toNumber := id |}.

Lemma calculate_refuses_witness :
  @calculate sample (units "sqrt(16)") = inl InvalidData.
Proof.
  apply (@calculate_refuses sample (units "sqrt(16)") 113%N).
  - vm_compute. right. left.
  - apply list_elem_of_In. vm_compute. repeat first [left; reflexivity | right].
Defined.

Lemma calculate_evaluates_witness :
  ∃ response,
    @calculate sample (rootSign :: units "(16)") = inr response ∧
    ∃ result,
      @evaluate sample (toLowerCase (replaceAll rootSign (units "sqrt") (rootSign :: units "(16)")))
        = Some result ∧
      body_result response = @toNumber sample result ∧
      is_finite (body_result response) = true ∧
      body_expression response = rootSign :: units "(16)".
Proof.
  destruct (@calculate sample (rootSign :: units "(16)")) as [e|response] eqn:Hresponse;
    [vm_compute in Hresponse; discriminate|].
  exists response. split; [reflexivity|].
  exact (@calculate_evaluates sample _ _ Hresponse).
Defined.

End CalculatorFacts.

(** ** The regression route *)

Module RegressionFacts.
Import Route Host Ml Regression SampleFacts OrderFacts DifferenceFacts.
#[local] Open Scope float_scope.

(** A square is never negative. *)
Lemma square_not_negative (r : float) : (r * r <? 0) = false.
Proof.
  rewrite FloatAxioms.ltb_spec, mul_spec. unfold SF64mul, SFmul.
  change (Prim2SF 0) with (S754_zero false).
  destruct (Prim2SF r) as [[]|[]| |s m e]; try done.
  rewrite xorb_nilpotent. apply binary_round_aux_not_below_zero.
Qed.

Section regression.
Context `{!JsMath, !SimpleStatistics}.

(** On 2 to 1000 points the route never answers 500.  It answers 400
    when a coordinate fails the isNumeric check of the validation chain.
    When all pass, it refuses the data if the sum of the squared deviations
    of x is zero, and otherwise returns one prediction per point, each with
    its residual, and an r² that is not negative. *)
Theorem linearRegression_answers (data : list (float * float)) :
  (2 ≤ length data ≤ 1000)%nat →
  (Exists (fun point => isNumeric point.1 = false ∨ isNumeric point.2 = false) data →
     linearRegression (Some data) = inl InvalidData) ∧
  (Forall (fun point => isNumeric point.1 = true ∧ isNumeric point.2 = true) data →
     linearRegression (Some data) = inl CannotRegress ∨
     ∃ response,
       linearRegression (Some data) = inr response ∧
       dataPoints response = length data ∧
       (r_squared response <? 0) = false ∧
       map (fun p => (x p, y_actual p)) (predictions response) = data ∧
       ∀ p, p ∈ predictions response →
         y_predicted p = slope response * x p + intercept response ∧
         residual p = y_actual p - y_predicted p).
Proof.
  intros [Hmin Hmax]. unfold linearRegression, validateDataset.
  rewrite (proj2 (Nat.leb_le _ _) Hmin), (proj2 (Nat.leb_le _ _) Hmax). cbn [andb].
  split.
  { intros (point & Hin & Hbad)%Exists_exists.
    destruct (forallb (fun point => isNumeric point.1) data) eqn:Hxs; [|done].
    destruct (forallb (fun point => isNumeric point.2) data) eqn:Hys; [|done].
    rewrite forallb_forall in Hxs, Hys. apply list_elem_of_In in Hin.
    specialize (Hxs point Hin). specialize (Hys point Hin).
    destruct Hbad; congruence. }
  intros Hall.
  assert (Hxs : forallb (fun point => isNumeric point.1) data = true).
  { apply forallb_forall. intros point Hin%list_elem_of_In.
    rewrite Forall_forall in Hall. by apply Hall. }
  assert (Hys : forallb (fun point => isNumeric point.2) data = true).
  { apply forallb_forall. intros point Hin%list_elem_of_In.
    rewrite Forall_forall in Hall. by apply Hall. }
  rewrite Hxs, Hys. cbn [andb negb].
  assert (Hx : map fst data ≠ []) by (destruct data; [cbn in Hmin; lia|done]).
  assert (Hy : map snd data ≠ []) by (destruct data; [cbn in Hmin; lia|done]).
  destruct (mean_returns _ Hx) as [mx ->], (mean_returns _ Hy) as [my ->].
  cbn [call mbind answer_bind]. cbv zeta.
  destruct (_ =? 0); [by left|]. right.
  destruct (CorrelationFacts.calculateCorrelation_returns _ _ Hx Hy) as [r ->].
  cbn [ofRoute mbind answer_bind].
  set (predict := fun point : float * float => _).
  assert (Hp : ∀ f : prediction → float, map f (map predict data) ≠ []).
  { intros f. destruct data; [cbn in Hmin; lia|done]. }
  destruct (mean_returns _ (Hp (fun p => residual p * residual p))) as [v1 ->].
  destruct (mean_returns _ (Hp (fun p => PrimFloat.abs (residual p)))) as [v2 ->].
  cbn [call mbind answer_bind]. eexists. split; [reflexivity|]. cbn.
  split_and!; [done|apply square_not_negative| |].
  - rewrite map_map. subst predict. cbn. clear. induction data as [|[] ? IH]; [done|].
    cbn. by rewrite IH.
  - intros p (point & -> & _)%list_elem_of_fmap. by subst predict.
Qed.

End regression.

Lemma linearRegression_answers_witness :
  @linearRegression Reference.math Reference.statistics
     (Some [(1e-7, 2); (2, 4); (3, 6)]) = inl InvalidData ∧
  ∃ response,
    @linearRegression Reference.math Reference.statistics
       (Some [(1, 2); (2, 4); (3, 6)]) = inr response ∧
    slope response = 2 ∧ intercept response = 0 ∧ r_squared response = 1.
Proof.
  split.
  { apply (@linearRegression_answers Reference.math Reference.statistics
             [(1e-7, 2); (2, 4); (3, 6)]); [cbn; lia|].
    left. by left. }
  destruct (proj2 (@linearRegression_answers Reference.math Reference.statistics
                     [(1, 2); (2, 4); (3, 6)] ltac:(cbn; lia)))
    as [Hno|(response & Hresponse & _)];
    [repeat constructor|vm_compute in Hno; discriminate|].
  exists response. split; [exact Hresponse|].
  vm_compute in Hresponse. by injection Hresponse as <-.
Defined.

End RegressionFacts.

(** ** The order of the equations of a system *)

Module SystemFacts.
Import Route Solver OrderFacts.
#[local] Open Scope float_scope.

(** Rounding does not look at the sign. *)
Lemma binary_round_aux_opp s mx ex lx :
  binary_round_aux prec emax (negb s) mx ex lx = SFopp (binary_round_aux prec emax s mx ex lx).
Proof.
  unfold binary_round_aux.
  destruct (shr_fexp prec emax mx ex lx) as [mrs' e'].
  destruct (shr_fexp prec emax _ e' loc_Exact) as [mrs'' e''].
  destruct (shr_m mrs''); [reflexivity| |reflexivity].
  destruct (Z.leb e'' (emax - prec)); reflexivity.
Qed.

Lemma binary_normalize_opp m e :
  m ≠ 0%Z →
  binary_normalize prec emax (- m) e false = SFopp (binary_normalize prec emax m e false).
Proof.
  destruct m as [|m|m]; [done| |]; intros _.
  - change (- Z.pos m)%Z with (Z.neg m). cbn [binary_normalize].
    unfold binary_round. destruct (shl_align _ _ _) as [mz ez].
    apply (binary_round_aux_opp false).
  - change (- Z.neg m)%Z with (Z.pos m). cbn [binary_normalize].
    unfold binary_round. destruct (shl_align _ _ _) as [mz ez].
    rewrite (binary_round_aux_opp false). cbn [negb].
    by destruct (binary_round_aux prec emax false (Z.pos mz) ez loc_Exact) as [[]|[]| |[] ? ?].
Qed.

(** Taking a difference the other way round changes its sign, unless it
    is zero. *)
Lemma SF64sub_swap X Y :
  SF64sub Y X = SFopp (SF64sub X Y) ∨
  (SF64sub X Y = S754_zero false ∧ SF64sub Y X = S754_zero false).
Proof.
  destruct X as [sx|sx| |sx mx ex], Y as [sy|sy| |sy my ey];
    try (destruct sx; try destruct sy; cbn; auto; fail);
    try (destruct sy; cbn; auto; fail);
    try (cbn; auto; fail).
  unfold SF64sub, SFsub. rewrite (Z.min_comm ey ex).
  set (A := cond_Zopp sx _). set (B := cond_Zopp sy _).
  destruct (Z.eq_dec (A - B)%Z 0%Z) as [Hzero|Hne].
  - right. replace (B - A)%Z with 0%Z by lia. rewrite Hzero. done.
  - left. replace (B - A)%Z with (- (A - B))%Z by lia. by apply binary_normalize_opp.
Qed.

Lemma sub_swap (x y : float) :
  y - x = - (x - y) ∨ (x - y = 0 ∧ y - x = 0).
Proof.
  destruct (SF64sub_swap (Prim2SF x) (Prim2SF y)) as [H|[H1 H2]].
  - left. apply Prim2SF_inj. by rewrite opp_spec, !sub_spec.
  - right. split; apply Prim2SF_inj; by rewrite sub_spec.
Qed.

Lemma abs_opp (x : float) : PrimFloat.abs (- x) = PrimFloat.abs x.
Proof.
  apply Prim2SF_inj. rewrite !abs_spec, opp_spec. by destruct (Prim2SF x).
Qed.

Lemma div_opp_opp (x y : float) : - x / - y = x / y.
Proof.
  apply Prim2SF_inj. rewrite !div_spec, !opp_spec. unfold SF64div, SFdiv.
  destruct (Prim2SF x) as [sx|sx| |sx mx ex], (Prim2SF y) as [sy|sy| |sy my ey];
    cbn [SFopp]; try done.
  all: by replace (xorb (negb sx) (negb sy)) with (xorb sx sy) by by destruct sx, sy.
Qed.

(** Two numbers that are the same number: equal, or the two zeros. *)
Definition sameNumber (x y : float) : Prop := x = y ∨ (x =? y) = true.

Lemma zero_div_opp (y : float) : sameNumber (0 / - y) (0 / y).
Proof.
  unfold sameNumber. rewrite FloatAxioms.eqb_spec.
  assert (H : Prim2SF (0 / - y) = Prim2SF (0 / y) ∨
              SFeqb (Prim2SF (0 / - y)) (Prim2SF (0 / y)) = true).
  { rewrite !div_spec, opp_spec. change (Prim2SF 0) with (S754_zero false).
    destruct (Prim2SF y) as [[]|[]| |[] my ey]; cbn; auto. }
  destruct H as [H|H]; [left; by apply Prim2SF_inj|by right].
Qed.

(** The quotient of two differences, with both taken the other way
    round. *)
Lemma quotient_swap (u v p q : float) :
  (PrimFloat.abs (p - q) <? 1e-10) = false →
  sameNumber ((v - u) / (q - p)) ((u - v) / (p - q)).
Proof.
  intros Hdet.
  destruct (sub_swap p q) as [Hpq|[Hzero _]]; [|by rewrite Hzero in Hdet].
  rewrite Hpq.
  destruct (sub_swap u v) as [Huv|[Hzero Hzero']].
  - left. by rewrite Huv, div_opp_opp.
  - rewrite Hzero, Hzero'. apply zero_div_opp.
Qed.

(** The order of the two equations does not matter: the system is refused
    either way or solved either way, with the same solution (a solution of
    zero may change the sign of the zero) and the opposite determinant. *)
Theorem solveSystem2x2_order (eq1 eq2 : option (float * float * float)) :
  match solveSystem2x2 eq1 eq2, solveSystem2x2 eq2 eq1 with
  | Ok body, Ok body' =>
      sameNumber (solution_x body') (solution_x body) ∧
      sameNumber (solution_y body') (solution_y body) ∧
      determinant body' = - determinant body
  | Err e, Err e' => e = e'
  | _, _ => False
  end.
Proof.
  destruct eq1 as [[[a1 b1] c1]|], eq2 as [[[a2 b2] c2]|]; try done.
  unfold solveSystem2x2. cbv zeta.
  destruct (sub_swap (a1 * b2) (a2 * b1)) as [Hdet|[Hzero Hzero']].
  - rewrite Hdet, abs_opp.
    destruct (PrimFloat.abs (a1 * b2 - a2 * b1) <? 1e-10) eqn:Hsingular; [done|].
    cbn. rewrite <- Hdet. split_and!; [by apply quotient_swap..|done].
  - by rewrite Hzero, Hzero'.
Qed.

End SystemFacts.
